(** * ProxyMaster: validation, scoring and selection of proxy endpoints

    A shallow embedding of the scoring engine of [test-proxy.py]:
    [ProxyValidator.test_proxy], [ProxyMaster.test_proxies] and
    [ProxyMaster.select_best_proxy], with the fetching of the provider's
    records and the export of the results.

    Modelling conventions.
    - A Python [dict] with string keys is a [gmap string value]; the small
      per-probe dicts of [test_details], whose key set is fixed up to the
      optional ['status_code'] and ['error'] keys, are records with optional
      fields.
    - A Python float is the rational number its IEEE double stands for;
      every float operation of the code is the exact operation followed by
      [b64], rounding to the nearest double, and [round(x, n)] is the double
      nearest to the decimal nearest to [x].  Infinities and NaN are not
      modelled: the clock's readings are taken to be far from overflow.
    - The network, the clock and the interpreter's [str] and set iteration
      order are an environment [Env] over an abstract [World]; [test_proxy]
      is written in a state-and-exception monad over it.
    - The thread pool of [test_proxies] is represented by what the loop over
      [as_completed] observes: the submitted records in completion order,
      each with what [future.result()] returns or raises.
    - [list.sort] and [sorted] compare keys as Python does; when no
      comparison raises they are the stable sort.  When a comparison raises,
      the exception and the order in which the items are left depend on the
      algorithm of the interpreter and are parameters of the model. *)

From Stdlib Require Import ZArith QArith Qround Qabs Qpower Lia Lqa.
From stdpp Require Import base option list strings gmap fin_maps sorting.

Local Open Scope string_scope.
Local Open Scope list_scope.
Local Open Scope Z_scope.

(** ** Numbers *)

(** Nearest integer, ties to the even neighbour (Python's [round]). *)
Definition round_half_even (q : Q) : Z :=
  let f := Qfloor q in
  match (q - inject_Z f ?= 1 # 2)%Q with
  | Lt => f
  | Gt => f + 1
  | Eq => if Z.even f then f else f + 1
  end.

(** The exponent of the leading bit of a non-zero rational:
    [2^(ilog2 q) <= |q| < 2^(ilog2 q + 1)]. *)
Definition ilog2 (q : Q) : Z :=
  let e := Z.log2 (Z.abs (Qnum q)) - Z.log2 (Zpos (Qden q)) in
  if Qle_bool (2 ^ e) (Qabs q) then e else e - 1.

(** The exponent of the last place of the double nearest to [q]: 53
    significant bits, and never below the subnormal spacing [2^-1074]. *)
Definition b64_exponent (q : Q) : Z := Z.max (ilog2 q - 52) (-1074).

(** The IEEE binary64 number nearest to [q], ties to the even significand,
    as a rational in lowest terms.  This is the rounding of every float
    operation and of the conversion of a literal or an [int]. *)
Definition b64 (q : Q) : Q :=
  let e := b64_exponent q in
  Qred (inject_Z (round_half_even (q / 2 ^ e)) * 2 ^ e).

Definition pow10 (ndigits : nat) : Z := 10 ^ Z.of_nat ndigits.

(** The multiple of [10^-ndigits] nearest to [x], ties to even. *)
Definition round_decimal (x : Q) (ndigits : nat) : Q :=
  (inject_Z (round_half_even (x * inject_Z (pow10 ndigits)))
   / inject_Z (pow10 ndigits))%Q.

(** [round(x, ndigits)] on a float: the exact value of [x] is rounded to
    [ndigits] decimals and the decimal is converted back to a double. *)
Definition py_round (x : Q) (ndigits : nat) : Q :=
  b64 (round_decimal x ndigits).

(** A Python number: [int] or [float]. *)
Inductive number :=
  | PyInt (z : Z)
  | PyFloat (q : Q).

Definition num_val (n : number) : Q :=
  match n with
  | PyInt z => inject_Z z
  | PyFloat q => q
  end.

(** ** Records *)

(** One entry of [test_details]: the dict appended to [results] by one
    iteration of the probe loop.  ['status_code'] and ['error'] are keys that
    only some branches set. *)
Record TestOutcome := {
  url : string;
  success : bool;
  response_time : number;
  status_code : option Z;
  error : option string
}.

Inductive value :=
  | VStr (s : string)
  | VBool (b : bool)
  | VNum (n : number)
  | VDetails (l : list TestOutcome).

Abbreviation Dict := (gmap string value).

(** ** Exceptions *)

(** The exception classes the code distinguishes, the ones it raises itself,
    and two that only reach the catch-all clause: [ReadTimeout] (in
    [requests], a [Timeout] that is not a [ConnectTimeout]) and any other
    [Exception]. *)
Inductive ExcClass :=
  | ProxyError
  | ConnectTimeout
  | ReadTimeout
  | SSLError
  | KeyError
  | ZeroDivisionError
  | TypeError
  | OtherException.

Record PyExc := {
  exc_class : ExcClass;
  exc_str : string
}.

(** ** Probes *)

(** What one [requests.get] through the proxy comes to: a response with its
    status code, received after [elapsed] seconds, or an exception. *)
Inductive ProbeResult :=
  | Responded (code : Z) (elapsed : Q)
  | Failed (e : PyExc).

(** The branch of the probe loop taken, lines 267-311. *)
Inductive OutcomeClass :=
  | Success (code : Z) (elapsed : Q)
  | HttpError (code : Z)
  | ProxyErr
  | Timeout
  | TlsError
  | Other (msg : string).

Definition classify (r : ProbeResult) : OutcomeClass :=
  match r with
  | Responded code elapsed =>
      if code =? 200 then Success code elapsed else HttpError code
  | Failed e =>
      match exc_class e with
      | ProxyError => ProxyErr
      | ConnectTimeout => Timeout
      | SSLError => TlsError
      | _ => Other (exc_str e)
      end
  end.

(** [str] of a status code inside [f"HTTP {response.status_code}"]. *)
Definition digit_of (d : Z) : string :=
  String (Ascii.ascii_of_N (48 + Z.to_N d)) EmptyString.

Fixpoint str_of_pos_fuel (fuel : nat) (z : Z) (acc : string) : string :=
  match fuel with
  | O => acc
  | S fuel' =>
      let acc' := digit_of (z mod 10) +:+ acc in
      if z / 10 =? 0 then acc' else str_of_pos_fuel fuel' (z / 10) acc'
  end.

Definition str_of_Z (z : Z) : string :=
  if z <? 0
  then "-" +:+ str_of_pos_fuel (S (Z.to_nat (Z.log2 (- z)))) (- z) ""
  else str_of_pos_fuel (S (Z.to_nat (Z.log2 z))) z "".

(** The dict appended to [results] in each branch. *)
Definition outcome_dict (u : string) (c : OutcomeClass) : TestOutcome :=
  match c with
  | Success code elapsed =>
      {| url := u; success := true;
         response_time := PyFloat (py_round elapsed 2);
         status_code := Some code; error := None |}
  | HttpError code =>
      {| url := u; success := false; response_time := PyInt (-1);
         status_code := Some code;
         error := Some ("HTTP " +:+ str_of_Z code) |}
  | ProxyErr =>
      {| url := u; success := false; response_time := PyInt (-1);
         status_code := None; error := Some "Proxy Error" |}
  | Timeout =>
      {| url := u; success := false; response_time := PyInt (-1);
         status_code := None; error := Some "Timeout" |}
  | TlsError =>
      {| url := u; success := false; response_time := PyInt (-1);
         status_code := None; error := Some "SSL Error" |}
  | Other msg =>
      {| url := u; success := false; response_time := PyInt (-1);
         status_code := None; error := Some msg |}
  end.

(** The loop variables [results], [total_time], [success_count]. *)
Record Acc := {
  results : list TestOutcome;
  total_time : Q;
  success_count : Z
}.

Definition acc0 : Acc :=
  {| results := []; total_time := 0; success_count := 0 |}.

Definition record_outcome (acc : Acc) (u : string) (c : OutcomeClass) : Acc :=
  match c with
  | Success _ elapsed =>
      {| results := results acc ++ [outcome_dict u c];
         total_time := b64 (total_time acc + elapsed);
         success_count := success_count acc + 1 |}
  | _ =>
      {| results := results acc ++ [outcome_dict u c];
         total_time := total_time acc;
         success_count := success_count acc |}
  end.

(** ** The environment and the monad of [test_proxy] *)

(** One call of [requests.get(url, proxies=..., timeout=...)]. *)
Record Request := {
  req_url : string;
  req_proxy : string;
  req_timeout : Z
}.

(** What the code takes from outside: the clock, the network, the wall-clock
    timestamp, [str] on a field value, the order in which a [set] of
    strings is iterated, and what the interpreter's sort does when a
    comparison of two keys raises (the order in which it leaves the items
    and the exception of the comparison it was at). *)
Record Env (World : Type) := {
  time_time : World → Q * World;
  requests_get : Request → World → (Z + PyExc) * World;
  datetime_now : World → string * World;
  py_str : value → string;
  py_set_iter : list string → list string;
  py_sort_fault : list Dict → list Dict * PyExc
}.

Arguments time_time {World}.
Arguments requests_get {World}.
Arguments datetime_now {World}.
Arguments py_str {World}.
Arguments py_set_iter {World}.
Arguments py_sort_fault {World}.

(** The state threaded through [test_proxy]: the world and the requests
    issued so far, oldest first. *)
Record St (World : Type) := {
  world : World;
  requests_log : list Request
}.

Arguments world {World}.
Arguments requests_log {World}.

Definition M (World A : Type) : Type := St World → (A + PyExc) * St World.

Definition raise {World A} (e : PyExc) : M World A := λ s, (inr e, s).

#[global] Instance M_ret {World} : MRet (M World) := λ A a s, (inl a, s).

#[global] Instance M_bind {World} : MBind (M World) := λ A B f m s,
  match m s with
  | (inl a, s') => f a s'
  | (inr e, s') => (inr e, s')
  end.

(** [for x in l: acc = body(acc, x)], stopping at the first exception. *)
Fixpoint for_each {World A B} (body : A → B → M World A) (acc : A)
    (l : list B) : M World A :=
  match l with
  | [] => mret acc
  | x :: l' => acc' ← body acc x; for_each body acc' l'
  end.

(** [d[k]], raising [KeyError] on a missing key. *)
Definition getitem {World} (d : Dict) (k : string) : M World value :=
  match d !! k with
  | Some v => mret v
  | None => raise {| exc_class := KeyError; exc_str := k |}
  end.

(** [', '.join(l)]. *)
Fixpoint join (sep : string) (l : list string) : string :=
  match l with
  | [] => ""
  | [s] => s
  | s :: l' => s +:+ sep +:+ join sep l'
  end.

Record ProxyValidator := {
  test_urls : list string;
  timeout : Z
}.

Definition DEFAULT_TIMEOUT : Z := 10.

Definition default_test_urls : list string :=
  ["https://www.google.com"; "https://www.cloudflare.com";
   "https://www.amazon.com"].

(** [ProxyValidator.__init__]: [test_urls or [...]] replaces [None] and the
    empty list by the three default targets. *)
Definition ProxyValidator_init (urls : option (list string)) (t : Z)
    : ProxyValidator :=
  {| test_urls := match urls with
                  | None | Some [] => default_test_urls
                  | Some l => l
                  end;
     timeout := t |}.

(** The names of the keys written by [test_proxy]. *)
Definition test_result_fields : list string :=
  ["test_details"; "success"; "success_rate"; "response_time"; "test_time";
   "status"; "error"].

(** The float literal [66.6]. *)
Definition threshold : Q := b64 (666 # 10).

(** The status expression of line 323. *)
Definition status_of (success_rate : Q) : string :=
  if Qle_bool threshold success_rate then "active"
  else if negb (Qle_bool success_rate 0) then "unreliable"
  else "dead".

(** Line 313: the float [total_time] divided by the [int] converted to a
    float, and the quotient rounded to two decimals. *)
Definition avg_time_of (acc : Acc) : number :=
  if 0 <? success_count acc
  then PyFloat (py_round (b64 (total_time acc
                               / b64 (inject_Z (Z.max 1 (success_count acc)))))
                  2)
  else PyInt (-1).

(** The value of [round(success_count / n * 100, 1)] for [n <> 0]: the
    quotient of the two [int]s as a float, its product with [100] as a
    float, rounded to one decimal. *)
Definition success_rate_of (count n : Z) : Q :=
  py_round (b64 (b64 (inject_Z count / inject_Z n) * 100)) 1.

Section Validator.
Context {World : Type} (env : Env World).

Definition do_time : M World Q := λ s,
  let '(t, w) := time_time env (world s) in
  (inl t, {| world := w; requests_log := requests_log s |}).

Definition do_now : M World string := λ s,
  let '(t, w) := datetime_now env (world s) in
  (inl t, {| world := w; requests_log := requests_log s |}).

(** [requests.get] inside its [try]: an exception is a value here. *)
Definition do_get (r : Request) : M World (Z + PyExc) := λ s,
  let '(res, w) := requests_get env r (world s) in
  (inl res, {| world := w; requests_log := requests_log s ++ [r] |}).

(** Lines 256-265 and the [except] clauses: the clock is read before the
    request, and again only when a response came back. *)
Definition run_probe (self : ProxyValidator) (proxies u : string)
    : M World ProbeResult :=
  start_time ← do_time;
  res ← do_get {| req_url := u; req_proxy := proxies;
                  req_timeout := timeout self |};
  match res with
  | inl code =>
      end_time ← do_time;
      mret (Responded code (b64 (end_time - start_time)))
  | inr e => mret (Failed e)
  end.

(** One iteration of the loop of line 255. *)
Definition probe_step (self : ProxyValidator) (proxies : string)
    (acc : Acc) (u : string) : M World Acc :=
  r ← run_probe self proxies u;
  mret (record_outcome acc u (classify r)).

(** The dict of lines 316-325: the input record with the seven result
    keys written over it. *)
Definition result_dict (proxy : Dict) (acc : Acc) (success_rate : Q)
    (test_time : string) : Dict :=
  <["error" := VStr (join ", " (py_set_iter env
                                  (omap error (results acc))))]>
  (<["status" := VStr (status_of success_rate)]>
  (<["test_time" := VStr test_time]>
  (<["response_time" := VNum (avg_time_of acc)]>
  (<["success_rate" := VNum (PyFloat success_rate)]>
  (<["success" := VBool (Qle_bool threshold success_rate)]>
  (<["test_details" := VDetails (results acc)]> proxy)))))).

(** The value of [proxies] for both schemes, lines 245-249. *)
Definition proxy_url (ip port : value) : string :=
  "http://" +:+ (py_str env ip +:+ ":" +:+ py_str env port).

(** [ProxyValidator.test_proxy]. *)
Definition test_proxy (self : ProxyValidator) (proxy : Dict)
    : M World Dict :=
  ip ← getitem proxy "ip";
  port ← getitem proxy "port";
  let proxies := proxy_url ip port in
  acc ← for_each (probe_step self proxies) acc0 (test_urls self);
  let n := Z.of_nat (length (test_urls self)) in
  success_rate ←
    (if n =? 0
     then raise {| exc_class := ZeroDivisionError;
                   exc_str := "division by zero" |}
     else mret (success_rate_of (success_count acc) n));
  test_time ← do_now;
  mret (result_dict proxy acc success_rate test_time).

(** The results the probes of one endpoint meet, in the order in which
    the loop issues them. *)
Fixpoint run_probes (self : ProxyValidator) (proxies : string)
    (urls : list string) (s : St World) : list ProbeResult * St World :=
  match urls with
  | [] => ([], s)
  | u :: urls' =>
      match run_probe self proxies u s with
      | (inl r, s1) =>
          let '(rs, s2) := run_probes self proxies urls' s1 in
          (r :: rs, s2)
      | (inr _, s1) => ([], s1)
      end
  end.

(** What a worker running [test_proxy] hands to its future. *)
Definition run_test_proxy (self : ProxyValidator) (proxy : Dict)
    (w : World) : Dict + PyExc :=
  fst (test_proxy self proxy {| world := w; requests_log := [] |}).
End Validator.

(** ** Exceptions as values *)

Definition Exc (A : Type) : Type := (A + PyExc)%type.

#[global] Instance Exc_ret : MRet Exc := λ A a, inl a.

#[global] Instance Exc_bind : MBind Exc := λ A B f m,
  match m with
  | inl a => f a
  | inr e => inr e
  end.

Definition lookup_exc (d : Dict) (k : string) : Exc value :=
  match d !! k with
  | Some v => inl v
  | None => inr {| exc_class := KeyError; exc_str := k |}
  end.

(** [f(x) for x in l], left to right, stopping at the first exception. *)
Fixpoint map_exc {A B} (f : A → Exc B) (l : list A) : Exc (list B) :=
  match l with
  | [] => inl []
  | x :: l' => y ← f x; ys ← map_exc f l'; mret (y :: ys)
  end.

(** Truth value of an object in an [if]. *)
Definition truthy (v : value) : bool :=
  match v with
  | VStr s => negb (String.eqb s "")
  | VBool b => b
  | VNum n => negb (Qeq_bool (num_val n) 0)
  | VDetails l => match l with [] => false | _ => true end
  end.

(** The name of the type of a value, as the messages of [TypeError] write
    it. *)
Definition type_name (v : value) : string :=
  match v with
  | VStr _ => "str"
  | VBool _ => "bool"
  | VNum (PyInt _) => "int"
  | VNum (PyFloat _) => "float"
  | VDetails _ => "list"
  end.

(** The numeric value of an [int], [float] or [bool]; strings and lists have
    none. *)
Definition num_of (v : value) : option Q :=
  match v with
  | VNum n => Some (num_val n)
  | VBool b => Some (if b then 1%Q else 0%Q)
  | _ => None
  end.

(** The operand of an arithmetic operation or of a comparison with a
    number; [msg] words the [TypeError] of the operation on the name of the
    operand's type. *)
Definition as_number (msg : string → string) (v : value) : Exc Q :=
  match num_of v with
  | Some q => inl q
  | None => inr {| exc_class := TypeError; exc_str := msg (type_name v) |}
  end.

Definition unary_minus (t : string) : string :=
  "bad operand type for unary -: '" +:+ t +:+ "'".

Definition greater_than_int (t : string) : string :=
  "'>' not supported between instances of '" +:+ t +:+ "' and 'int'".

Definition less_than (t1 t2 : string) : string :=
  "'<' not supported between instances of '" +:+ t1 +:+ "' and '" +:+ t2
  +:+ "'".

Definition Qlt_bool (x y : Q) : bool := negb (Qle_bool y x).

(** ** Comparisons *)

Definition option_eqb {A : Type} (eqb : A → A → bool) (a b : option A)
    : bool :=
  match a, b with
  | Some x, Some y => eqb x y
  | None, None => true
  | _, _ => false
  end.

(** [a == b] on two dicts of ['test_details']: the same keys with equal
    values. *)
Definition outcome_eqb (a b : TestOutcome) : bool :=
  String.eqb (url a) (url b) && Bool.eqb (success a) (success b)
  && Qeq_bool (num_val (response_time a)) (num_val (response_time b))
  && option_eqb Z.eqb (status_code a) (status_code b)
  && option_eqb String.eqb (error a) (error b).

(** [a < b] on two lists of such dicts: the first items that differ are
    compared, and dicts have no order; without such items the shorter list
    is the smaller. *)
Fixpoint details_lt (a b : list TestOutcome) : Exc bool :=
  match a, b with
  | [], [] => inl false
  | [], _ :: _ => inl true
  | _ :: _, [] => inl false
  | x :: a', y :: b' =>
      if outcome_eqb x y then details_lt a' b'
      else inr {| exc_class := TypeError;
                  exc_str := less_than "dict" "dict" |}
  end.

(** [a < b] on two values: numbers by value, strings by their characters,
    lists as above; values of different kinds have no order. *)
Definition value_lt (a b : value) : Exc bool :=
  match num_of a, num_of b with
  | Some x, Some y => inl (Qlt_bool x y)
  | _, _ =>
      match a, b with
      | VStr x, VStr y => inl (String.ltb x y)
      | VDetails x, VDetails y => details_lt x y
      | _, _ => inr {| exc_class := TypeError;
                       exc_str := less_than (type_name a) (type_name b) |}
      end
  end.

(** [a < b] on two tuples of a number and a value: the first components
    decide unless they are equal, and then the second ones do (two equal
    values are not smaller than each other). *)
Definition tuple_lt (a b : Q * value) : Exc bool :=
  if Qeq_bool (fst a) (fst b) then value_lt (snd a) (snd b)
  else inl (Qlt_bool (fst a) (fst b)).

(** ** Sorting *)

(** [list.sort(key=...)] and [sorted(..., key=...)]: the keys are computed
    once, the items are sorted by [<] on their keys, and items with equal
    keys keep their order.  Insertion from the right, each item placed
    before the first item whose key is not smaller, is that function when
    [<] orders the keys.  When [<] raises on two of the keys the sort
    raises, at a comparison and with the items in an order that depend on
    the algorithm: those are left to the environment. *)
Section Sort.
Context {K A : Type} (lt : K → K → bool).

Fixpoint insert_by (x : K * A) (l : list (K * A)) : list (K * A) :=
  match l with
  | [] => [x]
  | y :: l' => if lt (fst y) (fst x) then y :: insert_by x l'
               else x :: y :: l'
  end.

Definition sort_by (l : list (K * A)) : list (K * A) :=
  foldr insert_by [] l.

(** [x] may stand before [y]: the key of [y] is not smaller. *)
Definition not_after (x y : K * A) : Prop := lt (fst y) (fst x) = false.

(** The key of [x] is neither smaller nor greater than [k]. *)
Definition same_key (k : K) (x : K * A) : bool :=
  negb (lt k (fst x)) && negb (lt (fst x) k).
End Sort.

(** A comparison that may raise, read as a test: [false] where it raises. *)
Definition decided {K : Type} (lt : K → K → Exc bool) (a b : K) : bool :=
  match lt a b with
  | inl c => c
  | inr _ => false
  end.

(** No comparison of two of the keys raises. *)
Definition comparable {K : Type} (lt : K → K → Exc bool) (keys : list K)
    : bool :=
  forallb (λ a, forallb (λ b, match lt a b with
                              | inl _ => true
                              | inr _ => false
                              end) keys) keys.

(** The items sorted by their keys, when no comparison raises. *)
Definition sort_keyed {K A : Type} (lt : K → K → Exc bool) (keys : list K)
    (l : list A) : option (list A) :=
  if comparable lt keys
  then Some (snd <$> sort_by (decided lt) (zip keys l))
  else None.

(** What the sort of the interpreter does with a list on which a comparison
    raises: the order in which it leaves the items, and the exception. *)
Definition SortFault : Type := list Dict → list Dict * PyExc.

(** The key of line 494, [(-x['success_rate'], x['response_time'])]: the
    success rate is negated, the response time only read. *)
Definition sort_key (x : Dict) : Exc (Q * value) :=
  rate ← lookup_exc x "success_rate";
  r ← as_number unary_minus rate;
  time ← lookup_exc x "response_time";
  mret ((- r)%Q, time).

(** [<] on two keys of scored records, whose components are numbers: the
    first components decide unless equal. *)
Definition key_lt (a b : Q * Q) : bool :=
  if Qeq_bool (fst a) (fst b) then Qlt_bool (snd a) (snd b)
  else Qlt_bool (fst a) (fst b).

(** [active_proxies.sort(key=...)]: the sorted list, or the exception of
    the key function or of a comparison. *)
Definition sort_active (fault : SortFault) (l : list Dict)
    : Exc (list Dict) :=
  keys ← map_exc sort_key l;
  match sort_keyed tuple_lt keys l with
  | Some sorted => inl sorted
  | None => inr (snd (fault l))
  end.

(** The list after [active_proxies.sort(key=...)]: sorted, as it was when
    the key function raised (no item has moved yet), or as a raising
    comparison left it. *)
Definition after_sort (fault : SortFault) (l : list Dict) : list Dict :=
  match map_exc sort_key l with
  | inr _ => l
  | inl keys =>
      match sort_keyed tuple_lt keys l with
      | Some sorted => sorted
      | None => fst (fault l)
      end
  end.

(** ** ProxyMaster *)

Definition MAX_THREADS : Z := 50.

Record ProxyMaster := {
  validator : ProxyValidator;
  proxy_data : list Dict;
  active_proxies : list Dict;
  current_proxy : option Dict;
  max_threads : Z;
  current_file : option string
}.

(** What [save_results] serialises, without the metadata and the network
    information of the session. *)
Record Snapshot := {
  snap_file : string;
  snap_proxies : list Dict;
  snap_active_proxies : list Dict;
  snap_current_proxy : option Dict
}.

Inductive Mark := MarkOk | MarkWarn | MarkFail.

(** The lines printed, by what they report. *)
Inductive Output :=
  | OutNoProxies
  | OutTestingHeader
  | OutTested (m : Mark) (ip port status success_rate : value)
  | OutError (ip port : value) (msg : string)
  | OutSaved (file : string)
  | OutNoActive
  | OutBest (ip port response_time success_rate : value).

(** The object, the console and the files written, and what the sort of
    line 494 does when a comparison raises. *)
Record Sys := {
  master : ProxyMaster;
  console : list Output;
  saved : list Snapshot;
  sort_fault : SortFault
}.

Definition print (o : Output) (s : Sys) : Sys :=
  {| master := master s; console := console s ++ [o]; saved := saved s;
     sort_fault := sort_fault s |}.

Definition set_active (l : list Dict) (s : Sys) : Sys :=
  {| master := {| validator := validator (master s);
                  proxy_data := proxy_data (master s);
                  active_proxies := l;
                  current_proxy := current_proxy (master s);
                  max_threads := max_threads (master s);
                  current_file := current_file (master s) |};
     console := console s; saved := saved s; sort_fault := sort_fault s |}.

Definition set_current (c : option Dict) (s : Sys) : Sys :=
  {| master := {| validator := validator (master s);
                  proxy_data := proxy_data (master s);
                  active_proxies := active_proxies (master s);
                  current_proxy := c;
                  max_threads := max_threads (master s);
                  current_file := current_file (master s) |};
     console := console s; saved := saved s; sort_fault := sort_fault s |}.

(** A method: the state after it, and the exception it raised if any. *)
Definition Cmd : Type := Sys → option PyExc * Sys.

(** The lines printed for the selected proxy, lines 497-500. *)
Definition best_line (cur : Dict) : Exc Output :=
  ip ← lookup_exc cur "ip";
  port ← lookup_exc cur "port";
  time ← lookup_exc cur "response_time";
  rate ← lookup_exc cur "success_rate";
  mret (OutBest ip port time rate).

(** [ProxyMaster.select_best_proxy]. *)
Definition select_best_proxy : Cmd := λ s,
  match active_proxies (master s) with
  | [] => (None, print OutNoActive s)
  | first :: rest =>
      match sort_active (sort_fault s) (first :: rest) with
      | inr e =>
          (Some e, set_active (after_sort (sort_fault s) (first :: rest)) s)
      | inl sorted =>
          let s1 := set_current (head sorted) (set_active sorted s) in
          match
            match head sorted with
            | Some cur => best_line cur
            | None => inr {| exc_class := OtherException;
                             exc_str := "list index out of range" |}
            end
          with
          | inl o => (None, print o s1)
          | inr e => (Some e, s1)
          end
      end
  end.

(** [ProxyMaster.save_results], the timestamp given; the write to the file
    is taken to succeed. *)
Definition save_results (timestamp : string) : Cmd := λ s,
  let file := "proxy_results/proxy_test_" +:+ timestamp +:+ ".json" in
  let m := master s in
  let m' := {| validator := validator m; proxy_data := proxy_data m;
               active_proxies := active_proxies m;
               current_proxy := current_proxy m;
               max_threads := max_threads m;
               current_file := Some file |} in
  (None,
   print (OutSaved file)
     {| master := m'; console := console s;
        saved := saved s ++
                 [{| snap_file := file; snap_proxies := proxy_data m;
                     snap_active_proxies := active_proxies m;
                     snap_current_proxy := current_proxy m |}];
        sort_fault := sort_fault s |}).

(** The [try] block of lines 472-480 for one completed future: the active
    list after it, and the line printed or the exception handed to the
    [except] clause.  The append comes before anything printed. *)
Definition try_block (active : list Dict) (proxy : Dict)
    (outcome : Exc Dict) : list Dict * Exc Output :=
  match outcome with
  | inr e => (active, inr e)
  | inl result =>
      match result !! "success" with
      | None => (active, inr {| exc_class := KeyError; exc_str := "success" |})
      | Some ok =>
          ((if truthy ok then active ++ [result] else active)%list,
           m ← (if truthy ok then inl MarkOk
                else rate ← lookup_exc result "success_rate";
                     r ← as_number greater_than_int rate;
                     mret (if Qlt_bool 0 r then MarkWarn else MarkFail));
           ip ← lookup_exc proxy "ip";
           port ← lookup_exc proxy "port";
           status ← lookup_exc result "status";
           rate ← lookup_exc result "success_rate";
           mret (OutTested m ip port status rate))
      end
  end.

(** The [except Exception as e] clause of lines 481-482: it formats
    [proxy['ip']] and [proxy['port']] itself. *)
Definition except_clause (proxy : Dict) (e : PyExc) : Exc Output :=
  ip ← lookup_exc proxy "ip";
  port ← lookup_exc proxy "port";
  mret (OutError ip port (exc_str e)).

(** The loop over [as_completed(futures)], lines 469-482, on the futures in
    completion order.  It runs in the calling thread, so the append under
    [self.validator.lock] is a plain append. *)
Fixpoint completed_loop (completed : list (Dict * Exc Dict)) : Cmd := λ s,
  match completed with
  | [] => (None, s)
  | (proxy, outcome) :: rest =>
      let '(active, r) := try_block (active_proxies (master s)) proxy outcome in
      let s1 := set_active active s in
      match r with
      | inl o => completed_loop rest (print o s1)
      | inr e =>
          match except_clause proxy e with
          | inl o => completed_loop rest (print o s1)
          | inr e' => (Some e', s1)
          end
      end
  end.

(** [ProxyMaster.test_proxies]. *)
Definition test_proxies (completed : list (Dict * Exc Dict))
    (timestamp : string) : Cmd := λ s,
  match proxy_data (master s) with
  | [] => (None, print OutNoProxies s)
  | _ =>
      let s1 := set_active [] (print OutTestingHeader s) in
      match completed_loop completed s1 with
      | (Some e, s2) => (Some e, s2)
      | (None, s2) =>
          match save_results timestamp s2 with
          | (Some e, s3) => (Some e, s3)
          | (None, s3) => select_best_proxy s3
          end
      end
  end.

(** What the executor may hand to the loop: the submitted records in some
    order of completion, each with the outcome of [test_proxy] on it in the
    world its worker met. *)
Definition executor_run {World} (env : Env World) (m : ProxyMaster)
    (completed : list (Dict * Exc Dict)) : Prop :=
  fmap fst completed ≡ₚ proxy_data m ∧
  Forall (λ po, ∃ w, snd po = run_test_proxy env (validator m) (fst po) w)
         completed.

(** ** A scripted environment for the examples *)

(** The world is the list of results the next requests will meet and the
    clock; a response takes its elapsed time off the script. *)
Definition ScriptWorld : Type := (list ProbeResult * Q)%type.

Fixpoint dedup (l : list string) : list string :=
  match l with
  | [] => []
  | x :: l' => x :: filter (λ y, negb (String.eqb x y)) (dedup l')
  end.

(** A sort that leaves the items as it found them when a comparison
    raises. *)
Definition example_fault : SortFault :=
  λ l, (l, {| exc_class := TypeError;
              exc_str := less_than "str" "float" |}).

Definition scripted : Env ScriptWorld := {|
  time_time := λ w, (snd w, w);
  requests_get := λ _ w,
    match fst w with
    | [] => (inr {| exc_class := OtherException; exc_str := "unreachable" |},
             w)
    | Responded code elapsed :: rest =>
        (inl code, (rest, (snd w + elapsed)%Q))
    | Failed e :: rest => (inr e, (rest, snd w))
    end;
  datetime_now := λ w, ("2025-05-09 12:00:00", w);
  py_str := λ v, match v with
                 | VStr s => s
                 | VBool true => "True"
                 | VBool false => "False"
                 | VNum (PyInt z) => str_of_Z z
                 | _ => ""
                 end;
  py_set_iter := dedup;
  py_sort_fault := example_fault
|}.

Definition script (l : list ProbeResult) : St ScriptWorld :=
  {| world := (l, 0%Q); requests_log := [] |}.

(** A record as [SSLProxiesProvider.fetch_proxies] builds it. *)
Definition candidate (ip port : string) : Dict :=
  <["ip" := VStr ip]> (<["port" := VStr port]> (<["code" := VStr "DE"]>
  (<["country" := VStr "Germany"]> (<["anonymity" := VStr "elite proxy"]>
  (<["google" := VStr "no"]> (<["https" := VStr "yes"]>
  (<["last_checked" := VStr "1 minute ago"]>
  (<["source" := VStr "www.sslproxies.org"]> (<["success" := VBool false]>
  (<["response_time" := VNum (PyInt (-1))]> (<["test_time" := VStr ""]>
  (<["status" := VStr "untested"]> (<["error" := VStr ""]> ∅))))))))))))).

Definition default_validator : ProxyValidator :=
  ProxyValidator_init None DEFAULT_TIMEOUT.

Definition exc (c : ExcClass) (msg : string) : PyExc :=
  {| exc_class := c; exc_str := msg |}.

Definition new_master (data : list Dict) : Sys :=
  {| master := {| validator := default_validator; proxy_data := data;
                  active_proxies := []; current_proxy := None;
                  max_threads := MAX_THREADS; current_file := None |};
     console := []; saved := []; sort_fault := example_fault |}.

(** Field readers for statements. *)
Definition field_num (d : Dict) (k : string) : option Q :=
  match d !! k with
  | Some (VNum n) => Some (num_val n)
  | Some (VBool b) => Some (if b then 1%Q else 0%Q)
  | _ => None
  end.

Definition field_str (d : Dict) (k : string) : option string :=
  match d !! k with
  | Some (VStr s) => Some s
  | _ => None
  end.

(** ** Vocabulary of the statements *)

(** The loop of line 255 on the results its probes meet. *)
Definition fold_outcomes (acc : Acc) (l : list (string * ProbeResult)) : Acc :=
  foldl (λ a ur, record_outcome a (fst ur) (classify (snd ur))) acc l.

(** The elapsed time of a probe that took the success branch. *)
Definition elapsed_ok (r : ProbeResult) : option Q :=
  match classify r with
  | Success _ elapsed => Some elapsed
  | _ => None
  end.

(** The request the loop issues for one target. *)
Definition request_for (self : ProxyValidator) (proxies u : string)
    : Request :=
  {| req_url := u; req_proxy := proxies; req_timeout := timeout self |}.

Definition Qsum (l : list Q) : Q := foldr Qplus 0%Q l.

(** The arithmetic mean of a list of numbers. *)
Definition mean (l : list Q) : Q :=
  (Qsum l / inject_Z (Z.of_nat (length l)))%Q.

(** The sum of a list of floats as [total_time += x] accumulates it, from
    left to right, each sum rounded to a double. *)
Definition fsum (l : list Q) : Q := foldl (λ t x, b64 (t + x)) 0%Q l.

(** The mean of a list of floats as line 313 computes it. *)
Definition fmean (l : list Q) : Q :=
  b64 (fsum l / b64 (inject_Z (Z.of_nat (length l)))).

(** The tenths of a percent in [round(count / n * 100, 1)]. *)
Definition tenths_of (count n : Z) : Z :=
  round_half_even (b64 (b64 (inject_Z count / inject_Z n) * 100) * 10).

Definition count_success (details : list TestOutcome) : Z :=
  Z.of_nat (length (filter (λ o, success o = true) details)).

(** The results met by the probes of [test_proxy] on one record. *)
Definition probe_results {World} (env : Env World) (self : ProxyValidator)
    (proxy : Dict) (s : St World) : list ProbeResult :=
  match proxy !! "ip", proxy !! "port" with
  | Some ip, Some port =>
      fst (run_probes env self (proxy_url env ip port) (test_urls self) s)
  | _, _ => []
  end.


(** ** Ranking vocabulary *)

(** The success rate and the mean latency of a scored record as numbers
    (0 when the field is missing or not a number). *)
Definition rate_of (d : Dict) : Q := default 0%Q (field_num d "success_rate").

Definition latency_of (d : Dict) : Q :=
  default 0%Q (field_num d "response_time").

(** The record has a numeric success rate and mean latency. *)
Definition scored (d : Dict) : Prop :=
  is_Some (field_num d "success_rate") ∧
  is_Some (field_num d "response_time").

(** The key of line 494 can be computed for the record: it has a numeric
    success rate and a response time. *)
Definition keyed (d : Dict) : Prop :=
  is_Some (field_num d "success_rate") ∧ is_Some (d !! "response_time").

(** The record names its endpoint. *)
Definition has_endpoint (d : Dict) : Prop :=
  is_Some (d !! "ip") ∧ is_Some (d !! "port").

(** The key line 494 computes for a scored record. *)
Definition key_of (d : Dict) : Q * Q := ((- rate_of d)%Q, latency_of d).

(** The number a numeric value stands for (0 for the others). *)
Definition number_of (v : value) : Q := default 0%Q (num_of v).

(** The numbers of a key whose second component is a number. *)
Definition numeric (k : Q * value) : Q * Q := (fst k, number_of (snd k)).

Definition decorate (l : list Dict) : list ((Q * Q) * Dict) :=
  (λ d, (key_of d, d)) <$> l.

(** [x] may stand before [y] in the ranking: a higher success rate, or the
    same rate and a mean latency that is not higher. *)
Definition ranks_before (x y : Dict) : Prop :=
  (rate_of y < rate_of x)%Q ∨
  ((rate_of x == rate_of y)%Q ∧ (latency_of x <= latency_of y)%Q).

(** [x] and [y] tie on both keys. *)
Definition same_rank (x y : Dict) : bool :=
  Qeq_bool (rate_of x) (rate_of y) && Qeq_bool (latency_of x) (latency_of y).

(** ** Vocabulary of a test cycle *)

(** [result['success']] is true in an [if]. *)
Definition flagged (r : Dict) : bool :=
  match r !! "success" with
  | Some v => truthy v
  | None => false
  end.

(** The status of the record is ['active']. *)
Definition is_active (r : Dict) : bool :=
  match r !! "status" with
  | Some (VStr st) => String.eqb st "active"
  | _ => false
  end.

(** The dicts the completed futures returned, in completion order. *)
Definition returned_results (completed : list (Dict * Exc Dict))
    : list Dict :=
  omap (λ po, match snd po with
              | inl r => Some r
              | inr _ => None
              end) completed.

(** A result the loop and the selection can read: scored, naming its
    endpoint, with a success flag and a status. *)
Definition well_scored (r : Dict) : Prop :=
  scored r ∧ has_endpoint r ∧
  is_Some (r !! "success") ∧ is_Some (r !! "status").

(** A completed future whose record names its endpoint and which either
    raised or returned a readable result. *)
Definition orderly (po : Dict * Exc Dict) : Prop :=
  has_endpoint (fst po) ∧
  match snd po with
  | inl r => well_scored r
  | inr _ => True
  end.

(** The line the loop prints for one completed future: the error line for
    one that raised, the result line otherwise. *)
Definition reports (po : Dict * Exc Dict) (o : Output) : Prop :=
  ∃ ip port,
    fst po !! "ip" = Some ip ∧ fst po !! "port" = Some port ∧
    match snd po with
    | inr e => o = OutError ip port (exc_str e)
    | inl r =>
        ∃ m status rate,
          r !! "status" = Some status ∧ r !! "success_rate" = Some rate ∧
          o = OutTested m ip port status rate
    end.

(** Every record the object holds or has written after a cycle. *)
Definition snapshot_records (sn : Snapshot) : list Dict :=
  snap_proxies sn ++ snap_active_proxies sn
  ++ option_list (snap_current_proxy sn).

Definition recorded (s : Sys) : list Dict :=
  proxy_data (master s) ++ active_proxies (master s)
  ++ option_list (current_proxy (master s))
  ++ (saved s ≫= snapshot_records).

(** ** The outcome classes in the specification's words *)

(** The six classes of the specification. *)
Inductive SpecClass :=
  | spec_success
  | spec_http_error (code : Z)
  | spec_proxy_error
  | spec_timeout
  | spec_tls_error
  | spec_other (msg : string).

(** "A successful status code": the 2xx class of HTTP. *)
Definition http_successful (code : Z) : bool :=
  (200 <=? code) && (code <? 300).

(** The classification as the specification words it: success on a
    successful status code, [timeout] when no response came within the
    window (while connecting or while reading). *)
Definition spec_classify (r : ProbeResult) : SpecClass :=
  match r with
  | Responded code _ =>
      if http_successful code then spec_success else spec_http_error code
  | Failed e =>
      match exc_class e with
      | ProxyError => spec_proxy_error
      | ConnectTimeout | ReadTimeout => spec_timeout
      | SSLError => spec_tls_error
      | _ => spec_other (exc_str e)
      end
  end.

(** The class a branch of the code stands for. *)
Definition class_of (c : OutcomeClass) : SpecClass :=
  match c with
  | Success _ _ => spec_success
  | HttpError code => spec_http_error code
  | ProxyErr => spec_proxy_error
  | Timeout => spec_timeout
  | TlsError => spec_tls_error
  | Other msg => spec_other msg
  end.

(** ** Example runs *)

Definition example_proxy : Dict := candidate "10.0.0.1" "8080".

Definition example_run (l : list ProbeResult)
    : Exc Dict * St ScriptWorld :=
  test_proxy scripted default_validator example_proxy (script l).

(** The dict a run returned (the empty dict if it raised). *)
Definition returned {S : Type} (x : Exc Dict * S) : Dict :=
  match fst x with
  | inl r => r
  | inr _ => ∅
  end.

(** Three successes after 0.1, 0.2 and 0.3 seconds. *)
Definition probes_all_ok : list ProbeResult :=
  [Responded 200 (1 # 10); Responded 200 (2 # 10); Responded 200 (3 # 10)].

(** One success after 0.1875 seconds, a 204 response and a read timeout. *)
Definition probes_mixed : list ProbeResult :=
  [Responded 200 (3 # 16); Responded 204 (2 # 10);
   Failed (exc ReadTimeout "Read timed out")].

(** Two successes and a refused connection. *)
Definition probes_two_ok : list ProbeResult :=
  [Responded 200 (4 # 10); Failed (exc ProxyError "Cannot connect to proxy");
   Responded 200 (2 # 10)].

(** The results of two example runs, in the order in which they completed:
    two of three targets reached, then all three. *)
Definition example_active : list Dict :=
  [returned (example_run probes_two_ok); returned (example_run probes_all_ok)].

Definition example_sys : Sys :=
  set_active example_active (new_master [example_proxy; example_proxy]).

(** A second endpoint, whose validation raises, and a batch of the two in
    completion order. *)
Definition example_proxy2 : Dict := candidate "10.0.0.2" "3128".

Definition example_completed : list (Dict * Exc Dict) :=
  [(example_proxy2, inr (exc OtherException "out of memory"));
   (example_proxy, inl (returned (example_run probes_all_ok)))].

Definition example_batch : Sys := new_master [example_proxy; example_proxy2].

(** A cycle over two copies of the example endpoint, the first worker
    reaching two targets and the second one. *)
Definition example_cycle : list (Dict * Exc Dict) :=
  [(example_proxy,
    run_test_proxy scripted default_validator example_proxy
      (probes_two_ok, 0%Q));
   (example_proxy,
    run_test_proxy scripted default_validator example_proxy
      (probes_mixed, 0%Q))].

Definition example_cycle_sys : Sys := new_master [example_proxy; example_proxy].

(** ** The provider's records *)

(** [cols[i].text.strip() if len(cols) > i else ""] on the stripped texts of
    the cells of one table row. *)
Definition cell (cols : list string) (i : nat) : string :=
  default "" (cols !! i).

(** The dict of lines 207-222 for one row with at least two cells. *)
Definition row_to_proxy (domain : string) (cols : list string) : Dict :=
  <["ip" := VStr (cell cols 0)]> (<["port" := VStr (cell cols 1)]>
  (<["code" := VStr (cell cols 2)]> (<["country" := VStr (cell cols 3)]>
  (<["anonymity" := VStr (cell cols 4)]> (<["google" := VStr (cell cols 5)]>
  (<["https" := VStr (cell cols 6)]>
  (<["last_checked" := VStr (cell cols 7)]>
  (<["source" := VStr domain]> (<["success" := VBool false]>
  (<["response_time" := VNum (PyInt (-1))]> (<["test_time" := VStr ""]>
  (<["status" := VStr "untested"]> (<["error" := VStr ""]> ∅))))))))))))).

(** The loop of lines 203-225 over the rows of the table, each row given by
    the stripped texts of its [td] cells: the first row is skipped, at most
    a hundred rows are read, and rows with fewer than two cells are left
    out. *)
Definition rows_to_proxies (domain : string) (rows : list (list string))
    : list Dict :=
  row_to_proxy domain
  <$> filter (λ cols, (2 ≤ length cols)%nat) (take 100 (drop 1 rows)).

(** What the request for the listing page comes to. *)
Inductive Page :=
  | PageError (msg : string)
  | NoTable
  | Table (rows : list (list string)).

(** [SSLProxiesProvider.fetch_proxies] on the page it met. *)
Definition provider_fetch_proxies (domain : string) (page : Page)
    : list Dict :=
  match page with
  | Table rows => rows_to_proxies domain rows
  | _ => []
  end.

(** ** Fetching *)

Inductive FetchLine :=
  | FetchHeader
  | FetchTorWarning
  | FetchAdded (n : nat)
  | FetchTotal (n : nat).

Definition set_proxy_data (data : list Dict) (m : ProxyMaster)
    : ProxyMaster :=
  {| validator := validator m; proxy_data := data;
     active_proxies := active_proxies m; current_proxy := current_proxy m;
     max_threads := max_threads m; current_file := current_file m |}.

(** The loop of lines 444-449 over the providers' lists in completion
    order: the object, the running total and the lines printed. *)
Fixpoint fetch_loop (fetched : list (list Dict)) (m : ProxyMaster)
    (total : nat) : ProxyMaster * nat * list FetchLine :=
  match fetched with
  | [] => (m, total, [])
  | proxies :: rest =>
      let '(m', total', lines) :=
        fetch_loop rest (set_proxy_data (proxy_data m ++ proxies) m)
          (total + length proxies) in
      (m', total', FetchAdded (length proxies) :: lines)
  end.

(** [ProxyMaster.fetch_proxies], on whether Tor answers and on the lists
    the providers returned, in completion order. *)
Definition fetch_proxies (tor_running : bool) (fetched : list (list Dict))
    (m : ProxyMaster) : bool * ProxyMaster * list FetchLine :=
  let '(m', total, lines) := fetch_loop fetched m 0 in
  (bool_decide (0 < total)%nat, m',
   FetchHeader :: (if tor_running then [] else [FetchTorWarning])
   ++ lines ++ [FetchTotal total]).

(** ** Export *)

(** The index of the last occurrence of [c] in [s], or -1. *)
Fixpoint rfind_from (c : Ascii.ascii) (s : string) (i last : Z) : Z :=
  match s with
  | EmptyString => last
  | String a s' => rfind_from c s' (i + 1) (if Ascii.eqb a c then i else last)
  end.

Definition rfind (c : Ascii.ascii) (s : string) : Z := rfind_from c s 0 (-1).

(** Whether [s] has a character other than [c]. *)
Fixpoint has_other (c : Ascii.ascii) (s : string) : bool :=
  match s with
  | EmptyString => false
  | String a s' => negb (Ascii.eqb a c) || has_other c s'
  end.

Definition slash : Ascii.ascii := Ascii.ascii_of_N 47.

Definition period : Ascii.ascii := Ascii.ascii_of_N 46.

(** [os.path.splitext] of a POSIX path: the extension starts at the last
    dot of the last component, leading dots of the component apart. *)
Definition splitext (p : string) : string * string :=
  let sep := rfind slash p in
  let dot := rfind period p in
  if (sep <? dot)
     && has_other period
          (String.substring (Z.to_nat (sep + 1)) (Z.to_nat (dot - sep - 1)) p)
  then (String.substring 0 (Z.to_nat dot) p,
        String.substring (Z.to_nat dot) (String.length p - Z.to_nat dot) p)
  else (p, "").

Inductive ExportLine :=
  | ExportNoData
  | ExportActiveSaved (filename : string)
  | ExportFullSaved (filename : string)
  | ExportInvalid.

(** What [export_results] did: the exception raised if any, the file
    opened with the strings written to it in order, the lines printed. *)
Record Export := {
  export_raised : option PyExc;
  export_file : option (string * list string);
  export_console : list ExportLine
}.

(** [for x in l: f.write(row(x))]: the strings written, and the exception
    that stopped the loop if any. *)
Fixpoint write_rows (row : Dict → Exc string) (l : list Dict)
    : list string * option PyExc :=
  match l with
  | [] => ([], None)
  | x :: l' =>
      match row x with
      | inr e => ([], Some e)
      | inl line =>
          let '(written, e) := write_rows row l' in (line :: written, e)
      end
  end.

(** The key of line 565, [x['response_time']]. *)
Definition export_key (x : Dict) : Exc value :=
  lookup_exc x "response_time".

(** [sorted(l, key=lambda x: x['response_time'])]. *)
Definition sorted_by_response_time (fault : SortFault) (l : list Dict)
    : Exc (list Dict) :=
  keys ← map_exc export_key l;
  match sort_keyed value_lt keys l with
  | Some sorted => inl sorted
  | None => inr (snd (fault l))
  end.

Definition newline : string := String (Ascii.ascii_of_N 10) EmptyString.

Definition dquote : string := String (Ascii.ascii_of_N 34) EmptyString.

Definition csv_header : string :=
  "IP,Port,Country,Anonymity,HTTPS,Success Rate,Response Time,Status,Error"
  +:+ newline.

Section Exporting.
Context {World : Type} (env : Env World).

(** The line of line 566. *)
Definition txt_row (proxy : Dict) : Exc string :=
  ip ← lookup_exc proxy "ip";
  port ← lookup_exc proxy "port";
  mret (py_str env ip +:+ ":" +:+ py_str env port +:+ newline).

(** The line of lines 574-578; the keys are read from left to right. *)
Definition csv_row (proxy : Dict) : Exc string :=
  ip ← lookup_exc proxy "ip";
  port ← lookup_exc proxy "port";
  country ← lookup_exc proxy "country";
  anonymity ← lookup_exc proxy "anonymity";
  https ← lookup_exc proxy "https";
  rate ← lookup_exc proxy "success_rate";
  time ← lookup_exc proxy "response_time";
  status ← lookup_exc proxy "status";
  err ← lookup_exc proxy "error";
  mret (py_str env ip +:+ "," +:+ py_str env port +:+ ","
        +:+ py_str env country +:+ "," +:+ py_str env anonymity +:+ ","
        +:+ py_str env https +:+ "," +:+ py_str env rate +:+ ","
        +:+ py_str env time +:+ "," +:+ py_str env status +:+ ","
        +:+ dquote +:+ py_str env err +:+ dquote +:+ newline).

(** [ProxyMaster.export_results]; [now] is [str(datetime.now())] for the
    heading of the text file.  Opening the file and writing to it are taken
    to succeed; what was written before an exception stays in the file. *)
Definition export_results (format_type now : string) (m : ProxyMaster)
    : Export :=
  match proxy_data m with
  | [] => {| export_raised := None; export_file := None;
             export_console := [ExportNoData] |}
  | _ :: _ =>
      match current_file m with
      | None =>
          {| export_raised :=
               Some {| exc_class := TypeError;
                       exc_str := "expected str, bytes or os.PathLike object, not NoneType" |};
             export_file := None; export_console := [] |}
      | Some file =>
          let base_name := fst (splitext file) in
          if String.eqb format_type "txt" then
            let filename := base_name +:+ ".txt" in
            let heading :=
              "# Active Proxy List - Generated on " +:+ now +:+ newline
              +:+ newline in
            match sorted_by_response_time (py_sort_fault env)
                    (active_proxies m) with
            | inr e =>
                {| export_raised := Some e;
                   export_file := Some (filename, [heading]);
                   export_console := [] |}
            | inl sorted =>
                match write_rows txt_row sorted with
                | (written, Some e) =>
                    {| export_raised := Some e;
                       export_file := Some (filename, heading :: written);
                       export_console := [] |}
                | (written, None) =>
                    {| export_raised := None;
                       export_file := Some (filename, heading :: written);
                       export_console := [ExportActiveSaved filename] |}
                end
            end
          else if String.eqb format_type "csv" then
            let filename := base_name +:+ ".csv" in
            match write_rows csv_row (proxy_data m) with
            | (written, Some e) =>
                {| export_raised := Some e;
                   export_file := Some (filename, csv_header :: written);
                   export_console := [] |}
            | (written, None) =>
                {| export_raised := None;
                   export_file := Some (filename, csv_header :: written);
                   export_console := [ExportFullSaved filename] |}
            end
          else
            {| export_raised := None; export_file := None;
               export_console := [ExportInvalid] |}
      end
  end.
End Exporting.

(** Three probes that all fail. *)
Definition probes_none_ok : list ProbeResult :=
  [Failed (exc ProxyError "Cannot connect to proxy");
   Responded 503 (1 # 10); Failed (exc ConnectTimeout "timed out")].

(** A later cycle over the same two records in which no worker reaches a
    target. *)
Definition example_dead_cycle : list (Dict * Exc Dict) :=
  [(example_proxy,
    run_test_proxy scripted default_validator example_proxy
      (probes_none_ok, 0%Q));
   (example_proxy,
    run_test_proxy scripted default_validator example_proxy
      (probes_none_ok, 0%Q))].

(** A record without ['ip'], and a batch made of it. *)
Definition example_bad_record : Dict := <["port" := VStr "8080"]> ∅.

Definition example_bad_batch : Sys := new_master [example_bad_record].

(** A listing page with a heading row, two proxies and a short row. *)
Definition example_page : Page :=
  Table [["IP Address"; "Port"]; ["10.0.0.1"; "8080"; "DE"]; ["-"];
         ["10.0.0.2"; "3128"]].

(** The object after a fetch of the example page. *)
Definition example_fetched : Sys :=
  new_master (provider_fetch_proxies "www.sslproxies.org" example_page).

(** The record has a numeric mean latency. *)
Definition timed (d : Dict) : Prop :=
  is_Some (field_num d "response_time").

Definition decorate_time (l : list Dict) : list (Q * Dict) :=
  (λ d, (latency_of d, d)) <$> l.

(** The object after the selection on the example results, with the file
    of a cycle. *)
Definition example_saved : ProxyMaster :=
  {| validator := default_validator;
     proxy_data := [example_proxy; example_proxy];
     active_proxies := example_active; current_proxy := None;
     max_threads := MAX_THREADS;
     current_file := Some "proxy_results/proxy_test_20250509_120000.json" |}.

(** * Properties *)

(** ** Rounding *)

Lemma round_half_even_near (q : Q) :
  (inject_Z (round_half_even q) - q <= 1 # 2)%Q ∧
  (q - inject_Z (round_half_even q) <= 1 # 2)%Q.
Proof.
  unfold round_half_even.
  pose proof (Qfloor_le q) as Hlo.
  pose proof (Qlt_floor q) as Hhi.
  rewrite inject_Z_plus in Hhi.
  change (inject_Z 1) with 1%Q in Hhi.
  destruct (Qcompare_spec (q - inject_Z (Qfloor q)) (1 # 2)) as [He|Hl|Hg].
  - destruct (Z.even (Qfloor q));
      rewrite ?inject_Z_plus; change (inject_Z 1) with 1%Q; split; lra.
  - split; lra.
  - rewrite inject_Z_plus; change (inject_Z 1) with 1%Q; split; lra.
Qed.

Lemma round_half_even_comp (x y : Q) :
  (x == y)%Q → round_half_even x = round_half_even y.
Proof.
  intros H. unfold round_half_even.
  rewrite (Qfloor_comp x y H).
  assert ((x - inject_Z (Qfloor y) ?= 1 # 2)%Q
          = (y - inject_Z (Qfloor y) ?= 1 # 2)%Q) as ->; [|reflexivity].
  apply Qcompare_comp; [rewrite H|]; reflexivity.
Qed.

Lemma round_half_even_range (a b : Z) (q : Q) :
  (inject_Z a <= q)%Q → (q <= inject_Z b)%Q →
  a ≤ round_half_even q ≤ b.
Proof.
  intros Ha Hb.
  destruct (round_half_even_near q) as [H1 H2].
  split.
  - destruct (Z_lt_le_dec (round_half_even q) a) as [Hlt|]; [|lia].
    assert (round_half_even q + 1 ≤ a) as Hle by lia.
    rewrite Zle_Qle in Hle. rewrite inject_Z_plus in Hle.
    change (inject_Z 1) with 1%Q in Hle. lra.
  - destruct (Z_lt_le_dec b (round_half_even q)) as [Hlt|]; [|lia].
    assert (b + 1 ≤ round_half_even q) as Hle by lia.
    rewrite Zle_Qle in Hle. rewrite inject_Z_plus in Hle.
    change (inject_Z 1) with 1%Q in Hle. lra.
Qed.

Lemma round_half_even_inject (z : Z) : round_half_even (inject_Z z) = z.
Proof.
  pose proof (round_half_even_range z z (inject_Z z)) as H.
  assert (z ≤ round_half_even (inject_Z z) ≤ z) by (apply H; lra).
  lia.
Qed.

Lemma round_half_even_mono (x y : Q) :
  (x <= y)%Q → round_half_even x ≤ round_half_even y.
Proof.
  intros Hxy.
  destruct (Z_lt_le_dec (round_half_even y) (round_half_even x)) as [Hlt|];
    [|done].
  assert (round_half_even y + 1 ≤ round_half_even x) as Hle by lia.
  rewrite Zle_Qle, inject_Z_plus in Hle. change (inject_Z 1) with 1%Q in Hle.
  destruct (round_half_even_near x) as [Hx1 Hx2].
  destruct (round_half_even_near y) as [Hy1 Hy2].
  assert (x == y)%Q as Heq by lra.
  rewrite (round_half_even_comp x y Heq) in Hlt. lia.
Qed.

(** An integer less than half a unit away is the rounded value. *)
Lemma round_half_even_unique (q : Q) (z : Z) :
  (inject_Z z - (1 # 2) < q)%Q → (q < inject_Z z + (1 # 2))%Q →
  round_half_even q = z.
Proof.
  intros Hlo Hhi. destruct (round_half_even_near q) as [H1 H2].
  destruct (Z.lt_trichotomy (round_half_even q) z) as [Hc|[Hc|Hc]]; [|done|].
  - assert (round_half_even q + 1 ≤ z) as Hc' by lia.
    rewrite Zle_Qle, inject_Z_plus in Hc'.
    change (inject_Z 1) with 1%Q in Hc'. lra.
  - assert (z + 1 ≤ round_half_even q) as Hc' by lia.
    rewrite Zle_Qle, inject_Z_plus in Hc'.
    change (inject_Z 1) with 1%Q in Hc'. lra.
Qed.

(** Half way between two integers the even one is taken. *)
Lemma round_half_even_tie (q : Q) (z : Z) :
  (q == inject_Z z + (1 # 2))%Q →
  round_half_even q = if Z.even z then z else z + 1.
Proof.
  intros Hq. unfold round_half_even.
  assert (Qfloor q = z) as ->.
  { pose proof (Qfloor_le q) as Hlo. pose proof (Qlt_floor q) as Hhi.
    rewrite inject_Z_plus in Hhi. change (inject_Z 1) with 1%Q in Hhi.
    destruct (Z.lt_trichotomy (Qfloor q) z) as [Hc|[Hc|Hc]]; [|done|].
    - assert (Qfloor q + 1 ≤ z) as Hc' by lia.
      rewrite Zle_Qle, inject_Z_plus in Hc'.
      change (inject_Z 1) with 1%Q in Hc'. lra.
    - assert (z + 1 ≤ Qfloor q) as Hc' by lia.
      rewrite Zle_Qle, inject_Z_plus in Hc'.
      change (inject_Z 1) with 1%Q in Hc'. lra. }
  assert ((q - inject_Z z ?= 1 # 2)%Q = Eq) as ->; [|reflexivity].
  apply Qeq_alt. lra.
Qed.

Lemma round_half_even_opp (q : Q) :
  round_half_even (- q) = - round_half_even q.
Proof.
  destruct (round_half_even_near q) as [H1 H2].
  set (r := round_half_even q) in *.
  destruct (Qlt_le_dec (inject_Z r - q) (1 # 2)) as [Ha|Ha].
  - destruct (Qlt_le_dec (q - inject_Z r) (1 # 2)) as [Hb|Hb].
    + apply round_half_even_unique; rewrite inject_Z_opp; lra.
    + (* q = r + 1/2: the tie was resolved to the even floor *)
      assert (q == inject_Z r + (1 # 2))%Q as Hq by lra.
      pose proof (round_half_even_tie q r Hq) as Ht. fold r in Ht.
      destruct (Z.even r) eqn:Hev; [|lia].
      rewrite (round_half_even_tie (- q) (- r - 1)).
      * replace (Z.even (- r - 1)) with false; [lia|].
        rewrite Z.even_sub, Z.even_opp, Hev. reflexivity.
      * unfold Zminus. rewrite inject_Z_plus, !inject_Z_opp.
        change (inject_Z 1) with 1%Q. lra.
  - assert (q == inject_Z (r - 1) + (1 # 2))%Q as Hq.
    { unfold Zminus. rewrite inject_Z_plus, inject_Z_opp.
      change (inject_Z 1) with 1%Q. lra. }
    pose proof (round_half_even_tie q (r - 1) Hq) as Ht. fold r in Ht.
    destruct (Z.even (r - 1)) eqn:Hev; [lia|].
    rewrite (round_half_even_tie (- q) (- r)).
    + rewrite Z.even_opp.
      replace (Z.even r) with true; [reflexivity|].
      rewrite Z.even_sub in Hev. cbn in Hev.
      destruct (Z.even r); done.
    + rewrite inject_Z_opp. lra.
Qed.

(** ** Powers of two *)

Lemma pow2_pos (e : Z) : (0 < 2 ^ e)%Q.
Proof. apply Qpower_0_lt. reflexivity. Qed.

Lemma pow2_le (a b : Z) : a ≤ b → (2 ^ a <= 2 ^ b)%Q.
Proof. intros H. apply Qpower_le_compat_l; [exact H|]. discriminate. Qed.

Lemma pow2_lt (a b : Z) : a < b → (2 ^ a < 2 ^ b)%Q.
Proof. intros H. apply Qpower_lt_compat_l; [exact H|]. reflexivity. Qed.

Lemma pow2_le_inv (a b : Z) : (2 ^ a <= 2 ^ b)%Q → a ≤ b.
Proof. intros H. eapply Qpower_le_compat_l_inv; [exact H|]. reflexivity. Qed.

Lemma pow2_lt_inv (a b : Z) : (2 ^ a < 2 ^ b)%Q → a < b.
Proof. intros H. eapply Qpower_lt_compat_l_inv; [exact H|]. reflexivity. Qed.

Lemma pow2_plus (a b : Z) : (2 ^ (a + b) == 2 ^ a * 2 ^ b)%Q.
Proof. apply Qpower_plus. discriminate. Qed.

Lemma pow2_inject (n : Z) : 0 ≤ n → (inject_Z (2 ^ n) == 2 ^ n)%Q.
Proof. intros H. apply (Zpower_Qpower 2 n H). Qed.

Lemma pow2_succ (a : Z) : (2 ^ (a + 1) == 2 * 2 ^ a)%Q.
Proof.
  rewrite pow2_plus. change (2 ^ 1)%Q with 2%Q.
  generalize (2 ^ a)%Q. intros p. lra.
Qed.

Lemma pow2_pred (a : Z) : (2 ^ (a - 1) == (1 # 2) * 2 ^ a)%Q.
Proof.
  replace (a - 1) with (a + (-1)) by lia.
  rewrite pow2_plus. change (2 ^ (-1))%Q with (1 # 2)%Q.
  generalize (2 ^ a)%Q. intros p. lra.
Qed.

(** [q] as the quotient of its numerator and denominator. *)
Lemma Qabs_num_den (q : Q) :
  (Qabs q * inject_Z (Zpos (Qden q)) == inject_Z (Z.abs (Qnum q)))%Q.
Proof.
  destruct q as [n d]. unfold Qabs, Qeq, inject_Z. simpl. lia.
Qed.

Lemma ilog2_spec (q : Q) :
  ¬ (q == 0)%Q → (2 ^ ilog2 q <= Qabs q)%Q ∧ (Qabs q < 2 ^ (ilog2 q + 1))%Q.
Proof.
  intros Hq.
  set (a := Z.abs (Qnum q)). set (b := Zpos (Qden q)).
  assert (0 < a) as Ha.
  { subst a. destruct q as [n d]. unfold Qeq in Hq. simpl in *. lia. }
  assert (0 < b) as Hb by (subst b; lia).
  pose proof (Z.log2_spec a Ha) as [Ha1 Ha2].
  pose proof (Z.log2_spec b Hb) as [Hb1 Hb2].
  pose proof (Z.log2_nonneg a) as Hla. pose proof (Z.log2_nonneg b) as Hlb.
  set (la := Z.log2 a) in *. set (lb := Z.log2 b) in *.
  pose proof (Qabs_num_den q) as Hab. fold a b in Hab.
  rewrite Zle_Qle, pow2_inject in Ha1, Hb1 by lia.
  rewrite Zlt_Qlt, pow2_inject in Ha2, Hb2 by lia.
  assert (0 < inject_Z b)%Q as HbQ.
  { change 0%Q with (inject_Z 0). by rewrite <- Zlt_Qlt. }
  pose proof (pow2_pos (la - lb)) as He. pose proof (pow2_pos lb) as Hlbp.
  assert (2 ^ la == 2 ^ (la - lb) * 2 ^ lb)%Q as Hsplit.
  { rewrite <- pow2_plus. by replace (la - lb + lb) with la by lia. }
  (* the quotient lies strictly between 2^(e-1) and 2^(e+1) *)
  assert (Qabs q < 2 ^ (la - lb + 1))%Q as Hup.
  { apply (Qmult_lt_r _ _ (inject_Z b) HbQ). rewrite Hab.
    eapply Qlt_le_trans; [exact Ha2|].
    replace (Z.succ la) with ((la - lb + 1) + lb) by lia.
    rewrite (pow2_plus (la - lb + 1) lb).
    apply Qmult_le_l; [apply pow2_pos|exact Hb1]. }
  assert (2 ^ (la - lb - 1) <= Qabs q)%Q as Hdown.
  { apply (Qmult_le_r _ _ (inject_Z b) HbQ). rewrite Hab.
    eapply Qle_trans; [|exact Ha1].
    replace la with ((la - lb - 1) + Z.succ lb) at 2 by lia.
    rewrite (pow2_plus (la - lb - 1) (Z.succ lb)).
    apply Qmult_le_l; [apply pow2_pos|]. apply Qlt_le_weak, Hb2. }
  unfold ilog2. fold a b. fold la lb.
  destruct (Qle_bool (2 ^ (la - lb)) (Qabs q)) eqn:Hcmp.
  - apply Qle_bool_iff in Hcmp. done.
  - split; [exact Hdown|].
    replace (la - lb - 1 + 1) with (la - lb) by lia.
    apply Qnot_le_lt. intros H. apply Qle_bool_iff in H. congruence.
Qed.

Lemma ilog2_unique (q : Q) (m : Z) :
  (2 ^ m <= Qabs q)%Q → (Qabs q < 2 ^ (m + 1))%Q → ilog2 q = m.
Proof.
  intros Hlo Hhi.
  assert (¬ (q == 0)%Q) as Hq.
  { intros H. rewrite H in Hlo. pose proof (pow2_pos m).
    change (Qabs 0) with 0%Q in Hlo. lra. }
  destruct (ilog2_spec q Hq) as [H1 H2].
  assert (ilog2 q < m + 1).
  { apply pow2_lt_inv. eapply Qle_lt_trans; [exact H1|exact Hhi]. }
  assert (m < ilog2 q + 1).
  { apply pow2_lt_inv. eapply Qle_lt_trans; [exact Hlo|exact H2]. }
  lia.
Qed.

Lemma ilog2_comp (x y : Q) :
  (x == y)%Q → ¬ (x == 0)%Q → ilog2 x = ilog2 y.
Proof.
  intros Hxy Hx. symmetry. destruct (ilog2_spec x Hx) as [H1 H2].
  apply ilog2_unique; by rewrite <- Hxy.
Qed.

Lemma Qabs_zero (x : Q) : (Qabs x <= 0)%Q → (x == 0)%Q.
Proof.
  intros H. pose proof (Qle_Qabs x) as H1. pose proof (Qle_Qabs (- x)) as H2.
  rewrite Qabs_opp in H2. lra.
Qed.

Lemma ilog2_mono (x y : Q) :
  ¬ (x == 0)%Q → (Qabs x <= Qabs y)%Q → ilog2 x ≤ ilog2 y.
Proof.
  intros Hx Hxy.
  assert (¬ (y == 0)%Q) as Hy.
  { intros H. rewrite H in Hxy. change (Qabs 0) with 0%Q in Hxy.
    by apply Hx, Qabs_zero. }
  destruct (ilog2_spec x Hx) as [H1 _]. destruct (ilog2_spec y Hy) as [_ H2].
  assert (ilog2 x < ilog2 y + 1); [|lia].
  apply pow2_lt_inv. eapply Qle_lt_trans; [exact H1|].
  eapply Qle_lt_trans; [exact Hxy|exact H2].
Qed.

(** ** Doubles *)

Lemma b64_eq (q : Q) :
  (b64 q == inject_Z (round_half_even (q / 2 ^ b64_exponent q))
            * 2 ^ b64_exponent q)%Q.
Proof. unfold b64. cbv zeta. apply Qred_correct. Qed.

Lemma scaled_back (q : Q) (e : Z) : (q / 2 ^ e * 2 ^ e == q)%Q.
Proof. pose proof (pow2_pos e). field. lra. Qed.

Lemma b64_zero (q : Q) : (q == 0)%Q → b64 q = 0%Q.
Proof.
  intros Hq. unfold b64. cbv zeta.
  rewrite (round_half_even_comp _ (inject_Z 0)).
  - rewrite round_half_even_inject. apply (Qred_complete _ 0).
    apply Qmult_0_l.
  - change (inject_Z 0) with 0%Q. pose proof (pow2_pos (b64_exponent q)).
    generalize dependent (2 ^ b64_exponent q)%Q. intros p Hp.
    rewrite Hq. field. lra.
Qed.

Lemma b64_comp (x y : Q) : (x == y)%Q → b64 x = b64 y.
Proof.
  intros Hxy. destruct (Qeq_dec x 0) as [Hx|Hx].
  - rewrite (b64_zero x Hx), (b64_zero y); [done|by rewrite <- Hxy].
  - unfold b64, b64_exponent. cbv zeta.
    rewrite <- (ilog2_comp x y Hxy Hx).
    set (e := Z.max (ilog2 x - 52) (-1074)).
    assert (x / 2 ^ e == y / 2 ^ e)%Q as H by (rewrite Hxy; reflexivity).
    by rewrite (round_half_even_comp _ _ H).
Qed.

(** A double is at most half a unit in the last place from the number it
    rounds. *)
Lemma b64_near (q : Q) :
  (Qabs (b64 q - q) <= 2 ^ (b64_exponent q - 1))%Q.
Proof.
  rewrite b64_eq. set (e := b64_exponent q).
  destruct (round_half_even_near (q / 2 ^ e)) as [H1 H2].
  pose proof (pow2_pos e) as He. pose proof (scaled_back q e) as Hq.
  rewrite pow2_pred. set (t := (q / 2 ^ e)%Q) in *.
  set (r := inject_Z (round_half_even t)) in *.
  apply Qabs_Qle_condition.
  assert ((r - t) * 2 ^ e <= (1 # 2) * 2 ^ e)%Q as Ha
    by (apply Qmult_le_compat_r; lra).
  assert ((t - r) * 2 ^ e <= (1 # 2) * 2 ^ e)%Q as Hb
    by (apply Qmult_le_compat_r; lra).
  generalize dependent (2 ^ e)%Q. intros p Hp Hq Ha Hb. split; lra.
Qed.

Lemma b64_exponent_le (q : Q) (m : Z) :
  -1022 ≤ m → ¬ (q == 0)%Q → (Qabs q <= 2 ^ m)%Q →
  b64_exponent q ≤ m - 52.
Proof.
  intros Hm Hq Hle. destruct (ilog2_spec q Hq) as [H1 _].
  assert (ilog2 q ≤ m) by (apply pow2_le_inv; lra).
  unfold b64_exponent. lia.
Qed.

(** The absolute error of rounding a number of magnitude at most [2^m]. *)
Lemma b64_abs_error (q : Q) (m : Z) :
  -1022 ≤ m → (Qabs q <= 2 ^ m)%Q → (Qabs (b64 q - q) <= 2 ^ (m - 53))%Q.
Proof.
  intros Hm Hle. destruct (Qeq_dec q 0) as [Hq|Hq].
  - rewrite (b64_zero q Hq), Hq. change (Qabs (0 - 0)) with 0%Q.
    apply Qlt_le_weak, pow2_pos.
  - eapply Qle_trans; [apply b64_near|]. apply pow2_le.
    pose proof (b64_exponent_le q m Hm Hq Hle). lia.
Qed.

Lemma ilog2_opp (q : Q) : ilog2 (- q) = ilog2 q.
Proof.
  destruct (Qeq_dec q 0) as [Hq|Hq].
  - destruct q as [[|n|n] d]; [reflexivity|discriminate Hq|discriminate Hq].
  - destruct (ilog2_spec q Hq) as [H1 H2].
    apply ilog2_unique; by rewrite Qabs_opp.
Qed.

Lemma b64_opp (q : Q) : (b64 (- q) == - b64 q)%Q.
Proof.
  rewrite !b64_eq. unfold b64_exponent. rewrite ilog2_opp.
  set (e := Z.max (ilog2 q - 52) (-1074)).
  rewrite (round_half_even_comp (- q / 2 ^ e) (- (q / 2 ^ e))).
  - rewrite round_half_even_opp, inject_Z_opp.
    generalize (2 ^ e)%Q, (inject_Z (round_half_even (q / 2 ^ e))).
    intros p r. lra.
  - pose proof (pow2_pos e). field. lra.
Qed.

Lemma b64_nonneg (q : Q) : (0 <= q)%Q → (0 <= b64 q)%Q.
Proof.
  intros Hq. rewrite b64_eq. set (e := b64_exponent q).
  pose proof (pow2_pos e) as He.
  apply Qmult_le_0_compat; [|lra].
  change 0%Q with (inject_Z 0). rewrite <- Zle_Qle.
  rewrite <- (round_half_even_inject 0). apply round_half_even_mono.
  change (inject_Z 0) with 0%Q. apply Qle_shift_div_l; lra.
Qed.

Lemma b64_mono_pos (x y : Q) :
  (0 < x)%Q → (x <= y)%Q → (b64 x <= b64 y)%Q.
Proof.
  intros Hx Hxy.
  assert (¬ (x == 0)%Q) as Hx0 by lra.
  assert (¬ (y == 0)%Q) as Hy0 by lra.
  assert (Qabs x == x)%Q as Hax by (apply Qabs_pos; lra).
  assert (Qabs y == y)%Q as Hay by (apply Qabs_pos; lra).
  pose proof (ilog2_mono x y Hx0) as Hlog.
  rewrite Hax, Hay in Hlog. specialize (Hlog Hxy).
  destruct (ilog2_spec x Hx0) as [_ Hxhi]. rewrite Hax in Hxhi.
  destruct (ilog2_spec y Hy0) as [Hylo _]. rewrite Hay in Hylo.
  rewrite !b64_eq.
  set (ex := b64_exponent x). set (ey := b64_exponent y).
  assert (ex ≤ ey) as Hexy by (subst ex ey; unfold b64_exponent; lia).
  pose proof (pow2_pos ex) as Hpx. pose proof (pow2_pos ey) as Hpy.
  destruct (Z.eq_dec ex ey) as [Heq|Hne].
  - rewrite <- Heq. apply Qmult_le_compat_r; [|lra].
    rewrite <- Zle_Qle. apply round_half_even_mono.
    apply Qmult_le_compat_r; [exact Hxy|].
    apply Qlt_le_weak, Qinv_lt_0_compat, Hpx.
  - (* the smaller number stays below the next power of two, the larger
       one is at least that power *)
    assert (inject_Z (round_half_even (x / 2 ^ ex)) <= 2 ^ 53)%Q as H1.
    { rewrite <- (pow2_inject 53) by lia. rewrite <- Zle_Qle.
      apply (round_half_even_range 0 (2 ^ 53)).
      - change (inject_Z 0) with 0%Q. apply Qle_shift_div_l; lra.
      - rewrite (pow2_inject 53) by lia. apply Qle_shift_div_r; [exact Hpx|].
        rewrite <- pow2_plus. apply Qlt_le_weak.
        eapply Qlt_le_trans; [exact Hxhi|]. apply pow2_le.
        subst ex. unfold b64_exponent. lia. }
    assert (2 ^ 52 <= inject_Z (round_half_even (y / 2 ^ ey)))%Q as H2.
    { rewrite <- (pow2_inject 52) by lia. rewrite <- Zle_Qle.
      assert (inject_Z (2 ^ 52) <= y / 2 ^ ey)%Q as Hge.
      { rewrite (pow2_inject 52) by lia. apply Qle_shift_div_l; [exact Hpy|].
        rewrite <- pow2_plus. eapply Qle_trans; [|exact Hylo].
        apply pow2_le. subst ex ey. unfold b64_exponent in *. lia. }
      rewrite <- (round_half_even_inject (2 ^ 52)).
      by apply round_half_even_mono. }
    apply (Qle_trans _ (2 ^ 53 * 2 ^ ex));
      [apply Qmult_le_compat_r; [exact H1|lra]|].
    apply (Qle_trans _ (2 ^ 52 * 2 ^ ey));
      [|apply Qmult_le_compat_r; [exact H2|lra]].
    rewrite <- !pow2_plus. apply pow2_le. lia.
Qed.

Lemma b64_mono (x y : Q) : (x <= y)%Q → (b64 x <= b64 y)%Q.
Proof.
  intros Hxy.
  destruct (Qlt_le_dec 0 x) as [Hx|Hx]; [by apply b64_mono_pos|].
  assert (b64 x <= 0)%Q as Hbx.
  { pose proof (b64_nonneg (- x)) as H. rewrite b64_opp in H. lra. }
  destruct (Qlt_le_dec y 0) as [Hy|Hy].
  - pose proof (b64_mono_pos (- y) (- x)) as H.
    rewrite !b64_opp in H. lra.
  - pose proof (b64_nonneg y Hy). lra.
Qed.

(** ** Rounding to decimals *)

Lemma pow10_pos (n : nat) : 0 < pow10 n.
Proof. unfold pow10. apply Z.pow_pos_nonneg; lia. Qed.

Lemma inject_Z_pos (z : Z) : 0 < z → (0 < inject_Z z)%Q.
Proof. intros H. change 0%Q with (inject_Z 0). by rewrite <- Zlt_Qlt. Qed.

Lemma round_decimal_comp (x y : Q) (n : nat) :
  (x == y)%Q → round_decimal x n = round_decimal y n.
Proof.
  intros H. unfold round_decimal.
  rewrite (round_half_even_comp (x * inject_Z (pow10 n))
             (y * inject_Z (pow10 n))); [reflexivity|].
  rewrite H. reflexivity.
Qed.

Lemma py_round_comp (x y : Q) (n : nat) :
  (x == y)%Q → py_round x n = py_round y n.
Proof. intros H. unfold py_round. by rewrite (round_decimal_comp x y n H). Qed.

Lemma round_decimal_mono (x y : Q) (n : nat) :
  (x <= y)%Q → (round_decimal x n <= round_decimal y n)%Q.
Proof.
  intros Hxy. pose proof (inject_Z_pos _ (pow10_pos n)) as Hp.
  unfold round_decimal. apply Qmult_le_compat_r.
  - rewrite <- Zle_Qle. apply round_half_even_mono.
    apply Qmult_le_compat_r; [done|lra].
  - apply Qlt_le_weak, Qinv_lt_0_compat, Hp.
Qed.

Lemma py_round_mono (x y : Q) (n : nat) :
  (x <= y)%Q → (py_round x n <= py_round y n)%Q.
Proof. intros H. apply b64_mono, round_decimal_mono, H. Qed.

Lemma success_rate_tenths (k n : Z) :
  success_rate_of k n = b64 (inject_Z (tenths_of k n) / 10).
Proof.
  unfold success_rate_of, py_round, round_decimal, tenths_of.
  change (inject_Z (pow10 1)) with 10%Q. reflexivity.
Qed.

Lemma fraction_range (k n : Z) :
  0 ≤ k ≤ n → 0 < n →
  (0 <= inject_Z k / inject_Z n)%Q ∧ (inject_Z k / inject_Z n <= 1)%Q.
Proof.
  intros [Hk Hn] Hpos. pose proof (inject_Z_pos n Hpos) as HnQ.
  rewrite Zle_Qle in Hk, Hn. change (inject_Z 0) with 0%Q in Hk.
  split.
  - apply Qle_shift_div_l; [done|]. lra.
  - apply Qle_shift_div_r; [done|]. lra.
Qed.

Lemma b64_one : b64 1 = 1%Q.
Proof. vm_compute. reflexivity. Qed.

Lemma b64_hundred : b64 100 = 100%Q.
Proof. vm_compute. reflexivity. Qed.

(** The product of line 314 as a double: in [0, 100] and within [2^-45] of
    the exact percentage. *)
Lemma percent_error (k n : Z) :
  0 ≤ k ≤ n → 0 < n →
  let p := b64 (b64 (inject_Z k / inject_Z n) * 100) in
  (0 <= p)%Q ∧ (p <= 100)%Q ∧
  (Qabs (p - inject_Z k / inject_Z n * 100) <= 1 # 35184372088832)%Q.
Proof.
  intros Hk Hn. destruct (fraction_range k n Hk Hn) as [H0 H1].
  set (x := (inject_Z k / inject_Z n)%Q) in *. cbv zeta.
  pose proof (b64_nonneg x H0) as Hq0.
  pose proof (b64_mono x 1 H1) as Hq1. rewrite b64_one in Hq1.
  assert (Qabs (b64 x - x) <= 1 # 9007199254740992)%Q as Hex.
  { apply (b64_abs_error x 0); [lia|].
    rewrite Qabs_pos by done. exact H1. }
  set (q := b64 x) in *.
  assert (0 <= q * 100)%Q as Hp0 by lra.
  assert (q * 100 <= 100)%Q as Hp1 by lra.
  pose proof (b64_nonneg _ Hp0) as Hb0.
  pose proof (b64_mono _ 100 Hp1) as Hb1. rewrite b64_hundred in Hb1.
  assert (Qabs (b64 (q * 100) - q * 100) <= 1 # 70368744177664)%Q as Hep.
  { apply (b64_abs_error (q * 100) 7); [lia|].
    rewrite Qabs_pos by done. change (2 ^ 7)%Q with 128%Q. lra. }
  split; [exact Hb0|]. split; [exact Hb1|].
  apply Qabs_Qle_condition in Hex, Hep. apply Qabs_Qle_condition.
  set (p := b64 (q * 100)) in *. split; lra.
Qed.

Lemma round_half_even_ge (z : Z) (x : Q) :
  (inject_Z z - (1 # 2) < x)%Q → z ≤ round_half_even x.
Proof.
  intros Hx. destruct (round_half_even_near x) as [H1 H2].
  destruct (Z_lt_le_dec (round_half_even x) z) as [Hc|]; [|done].
  assert (round_half_even x + 1 ≤ z) as Hc' by lia.
  rewrite Zle_Qle, inject_Z_plus in Hc'.
  change (inject_Z 1) with 1%Q in Hc'. lra.
Qed.

Lemma round_half_even_le (z : Z) (x : Q) :
  (x < inject_Z z + (1 # 2))%Q → round_half_even x ≤ z.
Proof.
  intros Hx. destruct (round_half_even_near x) as [H1 H2].
  destruct (Z_lt_le_dec z (round_half_even x)) as [Hc|]; [|done].
  assert (z + 1 ≤ round_half_even x) as Hc' by lia.
  rewrite Zle_Qle, inject_Z_plus in Hc'.
  change (inject_Z 1) with 1%Q in Hc'. lra.
Qed.

Lemma tenths_of_range (k n : Z) :
  0 ≤ k ≤ n → 0 < n → 0 ≤ tenths_of k n ≤ 1000.
Proof.
  intros Hk Hn. destruct (percent_error k n Hk Hn) as (H0 & H1 & _).
  cbv zeta in *. unfold tenths_of.
  apply round_half_even_range; change (inject_Z 0) with 0%Q;
    change (inject_Z 1000) with 1000%Q; lra.
Qed.

(** With at most [2^40] targets the rounding error of the doubles never
    moves the percentage across a rounding boundary: the tenths are those
    of the exact fraction, off its ties. *)
Lemma tenths_of_exact (k n c : Z) :
  0 ≤ k ≤ n → 0 < n → n ≤ 2 ^ 40 →
  ((2 * c - 1) * n < 2000 * k → c ≤ tenths_of k n) ∧
  (2000 * k < (2 * c + 1) * n → tenths_of k n ≤ c).
Proof.
  intros Hk Hn Hmax. destruct (percent_error k n Hk Hn) as (_ & _ & Herr).
  cbv zeta in Herr. unfold tenths_of.
  set (p := b64 (b64 (inject_Z k / inject_Z n) * 100)) in *.
  pose proof (inject_Z_pos n Hn) as HnQ.
  assert (inject_Z k / inject_Z n * 100 * inject_Z n == 100 * inject_Z k)%Q
    as Hx by (field; lra).
  set (x := (inject_Z k / inject_Z n * 100)%Q) in *.
  apply Qabs_Qle_condition in Herr. destruct Herr as [He1 He2].
  assert (inject_Z n <= 1099511627776)%Q as HmaxQ.
  { change 1099511627776%Q with (inject_Z (2 ^ 40)). by rewrite <- Zle_Qle. }
  assert ((p - x) * inject_Z n <= 1 # 32)%Q as Hup by nra.
  assert (- (1 # 32) <= (p - x) * inject_Z n)%Q as Hdown by nra.
  split; intros Hc.
  - apply round_half_even_ge.
    assert (inject_Z ((2 * c + - (1)) * n + 1) <= inject_Z (2000 * k))%Q
      as Hc' by (rewrite <- Zle_Qle; lia).
    repeat rewrite ?inject_Z_plus, ?inject_Z_mult, ?inject_Z_opp in Hc'.
    change (inject_Z 1) with 1%Q in Hc'. change (inject_Z 2) with 2%Q in Hc'.
    change (inject_Z 2000) with 2000%Q in Hc'.
    apply (Qmult_lt_r _ _ (inject_Z n) HnQ). nra.
  - apply round_half_even_le.
    assert (inject_Z (2000 * k + 1) <= inject_Z ((2 * c + 1) * n))%Q
      as Hc' by (rewrite <- Zle_Qle; lia).
    repeat rewrite ?inject_Z_plus, ?inject_Z_mult, ?inject_Z_opp in Hc'.
    change (inject_Z 1) with 1%Q in Hc'. change (inject_Z 2) with 2%Q in Hc'.
    change (inject_Z 2000) with 2000%Q in Hc'.
    apply (Qmult_lt_r _ _ (inject_Z n) HnQ). nra.
Qed.

(** Comparing a rate with the literals [66.6] and [0]. *)
Lemma rate_above_threshold (t : Z) :
  (b64 (666 # 10) <= b64 (inject_Z t / 10))%Q ↔ 666 ≤ t.
Proof.
  assert (∀ y : Q, y / 10 == y * (1 # 10))%Q as Hdiv by (intros; reflexivity).
  split.
  - intros H. destruct (Z_lt_le_dec t 666) as [Hlt|]; [|done].
    assert (t ≤ 665) as Hle by lia. rewrite Zle_Qle in Hle.
    change (inject_Z 665) with 665%Q in Hle.
    assert (inject_Z t / 10 <= 665 # 10)%Q as Hq by (rewrite Hdiv; lra).
    apply b64_mono in Hq.
    assert (b64 (665 # 10) < b64 (666 # 10))%Q as Hgap
      by (vm_compute; reflexivity).
    lra.
  - intros H. apply b64_mono. rewrite Hdiv. rewrite Zle_Qle in H.
    change (inject_Z 666) with 666%Q in H. lra.
Qed.

Lemma b64_0 : b64 0 = 0%Q.
Proof. vm_compute. reflexivity. Qed.

Lemma rate_positive (t : Z) :
  (0 < b64 (inject_Z t / 10))%Q ↔ 0 < t.
Proof.
  assert (∀ y : Q, y / 10 == y * (1 # 10))%Q as Hdiv by (intros; reflexivity).
  split.
  - intros H. destruct (Z_lt_le_dec 0 t) as [|Hle]; [done|].
    rewrite Zle_Qle in Hle. change (inject_Z 0) with 0%Q in Hle.
    assert (inject_Z t / 10 <= 0)%Q as Hq by (rewrite Hdiv; lra).
    apply b64_mono in Hq. rewrite b64_0 in Hq. lra.
  - intros H. assert (1 ≤ t) as Hle by lia. rewrite Zle_Qle in Hle.
    change (inject_Z 1) with 1%Q in Hle.
    assert (1 # 10 <= inject_Z t / 10)%Q as Hq by (rewrite Hdiv; lra).
    apply b64_mono in Hq.
    assert (0 < b64 (1 # 10))%Q as Hgap by (vm_compute; reflexivity).
    lra.
Qed.

(** The decimal is a multiple of [10^-n] at most half a unit from [x]. *)
Lemma round_decimal_near (x : Q) (n : nat) :
  (round_decimal x n * inject_Z (pow10 n)
   == inject_Z (round_half_even (x * inject_Z (pow10 n))))%Q ∧
  (Qabs (round_decimal x n - x) <= 1 / (2 * inject_Z (pow10 n)))%Q.
Proof.
  pose proof (pow10_pos n) as Hp.
  assert (0 < inject_Z (pow10 n))%Q as HpQ.
  { change 0%Q with (inject_Z 0). rewrite <- Zlt_Qlt. exact Hp. }
  set (p := inject_Z (pow10 n)) in *.
  set (r := inject_Z (round_half_even (x * p))).
  assert (round_decimal x n == r / p)%Q as Hdef by reflexivity.
  split.
  - rewrite Hdef. field. lra.
  - destruct (round_half_even_near (x * p)) as [H1 H2]. fold r in H1, H2.
    apply Qabs_Qle_condition.
    assert (round_decimal x n - x == (r - x * p) / p)%Q as ->.
    { rewrite Hdef. field. lra. }
    assert (1 / (2 * p) == (1 # 2) / p)%Q as -> by (field; lra).
    assert (- ((1 # 2) / p) == (- (1 # 2)) / p)%Q as -> by (field; lra).
    split; apply Qmult_le_compat_r;
      try (apply Qlt_le_weak, Qinv_lt_0_compat; exact HpQ); lra.
Qed.

Lemma round_decimal_range (a b : Z) (x : Q) (n : nat) :
  (inject_Z a <= x)%Q → (x <= inject_Z b)%Q →
  (inject_Z a <= round_decimal x n)%Q ∧ (round_decimal x n <= inject_Z b)%Q.
Proof.
  intros Ha Hb.
  pose proof (pow10_pos n) as Hp.
  assert (0 < inject_Z (pow10 n))%Q as HpQ.
  { change 0%Q with (inject_Z 0). rewrite <- Zlt_Qlt. exact Hp. }
  destruct (round_half_even_range (a * pow10 n) (b * pow10 n)
              (x * inject_Z (pow10 n))) as [H1 H2].
  { rewrite inject_Z_mult. apply Qmult_le_compat_r; [exact Ha|lra]. }
  { rewrite inject_Z_mult. apply Qmult_le_compat_r; [exact Hb|lra]. }
  rewrite Zle_Qle in H1, H2. rewrite inject_Z_mult in H1, H2.
  unfold round_decimal.
  set (p := inject_Z (pow10 n)) in *.
  set (r := inject_Z (round_half_even (x * p))) in *.
  split.
  - apply Qle_shift_div_l; assumption.
  - apply Qle_shift_div_r; assumption.
Qed.

(** ** The probe loop *)

Lemma fold_outcomes_results (l : list (string * ProbeResult)) (acc : Acc) :
  results (fold_outcomes acc l)
  = results acc ++ fmap (λ ur, outcome_dict (fst ur) (classify (snd ur))) l.
Proof.
  revert acc. induction l as [|[u r] l IH]; intros acc; simpl.
  - by rewrite app_nil_r.
  - unfold fold_outcomes in *. simpl. rewrite IH.
    destruct (classify r); simpl; by rewrite <- app_assoc.
Qed.

Lemma outcome_dict_success (u : string) (r : ProbeResult) :
  success (outcome_dict u (classify r)) = true ↔ is_Some (elapsed_ok r).
Proof.
  unfold elapsed_ok. destruct (classify r); simpl; split;
    intros H; try done; try (by destruct H); by eexists.
Qed.

Lemma omap_elapsed_cons (r : ProbeResult) (rs : list ProbeResult) :
  omap elapsed_ok (r :: rs)
  = match classify r with
    | Success _ elapsed => elapsed :: omap elapsed_ok rs
    | _ => omap elapsed_ok rs
    end.
Proof.
  change (omap elapsed_ok (r :: rs))
    with (match elapsed_ok r with
          | Some y => y :: omap elapsed_ok rs
          | None => omap elapsed_ok rs
          end).
  unfold elapsed_ok at 1. destruct (classify r); reflexivity.
Qed.

Lemma fold_outcomes_cons (acc : Acc) (u : string) (r : ProbeResult)
    (l : list (string * ProbeResult)) :
  fold_outcomes acc ((u, r) :: l)
  = fold_outcomes (record_outcome acc u (classify r)) l.
Proof. reflexivity. Qed.

Lemma fold_outcomes_count (l : list (string * ProbeResult)) (acc : Acc) :
  success_count (fold_outcomes acc l)
  = success_count acc + Z.of_nat (length (omap elapsed_ok (fmap snd l))).
Proof.
  revert acc. induction l as [|[u r] l IH]; intros acc.
  - cbn. lia.
  - rewrite fold_outcomes_cons, IH, fmap_cons, omap_elapsed_cons.
    cbn [snd]. destruct (classify r); cbn [record_outcome success_count length];
      lia.
Qed.

Lemma fold_outcomes_total (l : list (string * ProbeResult)) (acc : Acc) :
  total_time (fold_outcomes acc l)
  = foldl (λ t x, b64 (t + x)) (total_time acc)
      (omap elapsed_ok (fmap snd l)).
Proof.
  revert acc. induction l as [|[u r] l IH]; intros acc.
  - reflexivity.
  - rewrite fold_outcomes_cons, IH, fmap_cons, omap_elapsed_cons.
    cbn [snd].
    destruct (classify r); cbn [record_outcome total_time foldl];
      reflexivity.
Qed.

Lemma count_success_outcomes (l : list (string * ProbeResult)) :
  count_success (fmap (λ ur, outcome_dict (fst ur) (classify (snd ur))) l)
  = Z.of_nat (length (omap elapsed_ok (fmap snd l))).
Proof.
  unfold count_success. f_equal.
  induction l as [|[u r] l IH]; [done|].
  rewrite !fmap_cons, omap_elapsed_cons, filter_cons. cbn [fst snd].
  destruct (classify r); cbn [outcome_dict success];
    case_decide; try done; cbn [length]; by rewrite IH.
Qed.

Section Loop.
Context {World : Type} (env : Env World).
Implicit Types (self : ProxyValidator) (s : St World).

Lemma run_probe_returns self proxies u s :
  ∃ r s', run_probe env self proxies u s = (inl r, s') ∧
          requests_log s'
          = requests_log s ++ [request_for self proxies u].
Proof.
  unfold run_probe, mbind, M_bind, do_time, do_get, mret, M_ret. simpl.
  destruct (time_time env (world s)) as [t0 w0]. simpl.
  destruct (requests_get env _ w0) as [[code|e] w1]; simpl.
  - destruct (time_time env w1) as [t1 w2]. simpl. by eexists _, _.
  - by eexists _, _.
Qed.

Lemma run_probes_length self proxies urls s :
  length (fst (run_probes env self proxies urls s)) = length urls.
Proof.
  revert s. induction urls as [|u urls IH]; intros s; simpl; [done|].
  destruct (run_probe_returns self proxies u s) as (r & s1 & -> & _).
  specialize (IH s1).
  destruct (run_probes env self proxies urls s1) as [rs s2]. simpl in *.
  by rewrite IH.
Qed.

Lemma run_probes_log self proxies urls s :
  requests_log (snd (run_probes env self proxies urls s))
  = requests_log s ++ fmap (request_for self proxies) urls.
Proof.
  revert s. induction urls as [|u urls IH]; intros s; simpl.
  - by rewrite app_nil_r.
  - destruct (run_probe_returns self proxies u s) as (r & s1 & -> & Hlog).
    specialize (IH s1).
    destruct (run_probes env self proxies urls s1) as [rs s2]. simpl in *.
    rewrite IH, Hlog, <- app_assoc. done.
Qed.

(** The loop never raises, and is the fold over the results met. *)
Lemma for_each_probe_step self proxies urls acc s :
  for_each (probe_step env self proxies) acc urls s
  = (inl (fold_outcomes acc
            (zip urls (fst (run_probes env self proxies urls s)))),
     snd (run_probes env self proxies urls s)).
Proof.
  revert acc s. induction urls as [|u urls IH]; intros acc s; simpl.
  - done.
  - unfold mbind at 1, M_bind at 1. unfold probe_step at 1.
    unfold mbind at 1, M_bind at 1.
    destruct (run_probe_returns self proxies u s) as (r & s1 & -> & _).
    unfold mret at 1, M_ret at 1.
    rewrite IH.
    destruct (run_probes env self proxies urls s1) as [rs s2]. done.
Qed.
End Loop.

(** ** What [test_proxy] returns *)

Section TestProxy.
Context {World : Type} (env : Env World).
Implicit Types (self : ProxyValidator) (s : St World) (proxy r : Dict).

(** [test_proxy] returns exactly when the record has ['ip'] and ['port']
    and there is a target; the result is the dict of the fold over the
    probe results. *)
Lemma test_proxy_returns self proxy s r s' :
  test_proxy env self proxy s = (inl r, s') ↔
  ∃ ip port,
    proxy !! "ip" = Some ip ∧ proxy !! "port" = Some port ∧
    test_urls self ≠ [] ∧
    let run := run_probes env self (proxy_url env ip port)
                 (test_urls self) s in
    let acc := fold_outcomes acc0 (zip (test_urls self) (fst run)) in
    r = result_dict env proxy acc
          (success_rate_of (success_count acc)
             (Z.of_nat (length (test_urls self))))
          (fst (datetime_now env (world (snd run)))) ∧
    s' = {| world := snd (datetime_now env (world (snd run)));
            requests_log := requests_log (snd run) |}.
Proof.
  unfold test_proxy, getitem.
  destruct (proxy !! "ip") as [ip|] eqn:Hip; cycle 1.
  { split; [intros H; discriminate H|intros (? & ? & ? & _); done]. }
  destruct (proxy !! "port") as [port|] eqn:Hport; cycle 1.
  { split; [intros H; discriminate H|intros (? & ? & _ & ? & _); done]. }
  unfold mbind at 1, M_bind at 1, mret at 1, M_ret at 1.
  unfold mbind at 1, M_bind at 1, mret at 1, M_ret at 1.
  unfold mbind at 1, M_bind at 1. rewrite for_each_probe_step.
  set (run := run_probes env self (proxy_url env ip port) (test_urls self) s).
  set (acc := fold_outcomes acc0 (zip (test_urls self) (fst run))).
  unfold mbind at 1, M_bind at 1.
  destruct (test_urls self) as [|u urls] eqn:Hurls.
  { cbn. split; [intros H; discriminate H|].
    intros (? & ? & _ & _ & ? & _); done. }
  replace (Z.of_nat (length (u :: urls)) =? 0) with false
    by (symmetry; apply Z.eqb_neq; cbn [length]; lia).
  unfold mret at 1, M_ret at 1, mbind, M_bind, do_now, mret, M_ret.
  destruct (datetime_now env (world (snd run))) as [now w] eqn:Hnow.
  cbn [fst snd]. split.
  - intros [= <- <-]. eexists ip, port. subst run acc. rewrite Hnow. done.
  - intros (ip' & port' & [= <-] & [= <-] & _ & -> & ->).
    subst run acc. rewrite Hnow. done.
Qed.

Lemma test_proxy_total self proxy s :
  is_Some (proxy !! "ip") → is_Some (proxy !! "port") →
  test_urls self ≠ [] →
  ∃ r s', test_proxy env self proxy s = (inl r, s').
Proof.
  intros [ip Hip] [port Hport] Hurls.
  eexists _, _. apply test_proxy_returns. by eexists ip, port.
Qed.
End TestProxy.

(** ** The fields of a result *)

Section Result.
Context {World : Type} (env : Env World).
Implicit Types (proxy : Dict) (acc : Acc) (rate : Q) (now : string).

Lemma result_dict_written proxy acc rate now :
  let r := result_dict env proxy acc rate now in
  r !! "test_details" = Some (VDetails (results acc)) ∧
  r !! "success" = Some (VBool (Qle_bool threshold rate)) ∧
  r !! "success_rate" = Some (VNum (PyFloat rate)) ∧
  r !! "response_time" = Some (VNum (avg_time_of acc)) ∧
  r !! "test_time" = Some (VStr now) ∧
  r !! "status" = Some (VStr (status_of rate)).
Proof. unfold result_dict. cbv zeta. repeat split; by simplify_map_eq. Qed.

Lemma result_dict_frame proxy acc rate now (k : string) :
  k ∉ test_result_fields →
  result_dict env proxy acc rate now !! k = proxy !! k.
Proof.
  unfold test_result_fields, result_dict. intros Hk.
  rewrite !not_elem_of_cons in Hk.
  destruct Hk as (? & ? & ? & ? & ? & ? & ? & _).
  by rewrite !lookup_insert_ne.
Qed.
End Result.

Lemma length_omap_elapsed (rs : list ProbeResult) :
  (length (omap elapsed_ok rs) ≤ length rs)%nat.
Proof.
  induction rs as [|r rs IH]; [done|].
  rewrite omap_elapsed_cons. destruct (classify r); cbn [length]; lia.
Qed.

Lemma success_rate_of_range (k n : Z) :
  0 ≤ k ≤ n → 0 < n →
  (0 <= success_rate_of k n)%Q ∧ (success_rate_of k n <= 100)%Q.
Proof.
  intros Hk Hn. destruct (tenths_of_range k n Hk Hn) as [H0 H1].
  rewrite success_rate_tenths.
  assert (∀ y : Q, y / 10 == y * (1 # 10))%Q as Hdiv by (intros; reflexivity).
  rewrite Zle_Qle in H0, H1.
  change (inject_Z 0) with 0%Q in H0. change (inject_Z 1000) with 1000%Q in H1.
  split.
  - apply b64_nonneg. rewrite Hdiv. lra.
  - rewrite <- b64_hundred. apply b64_mono. rewrite Hdiv. lra.
Qed.

Lemma threshold_pos : (0 < threshold)%Q.
Proof. vm_compute. reflexivity. Qed.

Lemma status_of_active (rate : Q) :
  status_of rate = "active" ↔ (threshold <= rate)%Q.
Proof.
  unfold status_of. generalize threshold. intros th.
  destruct (Qle_bool th rate) eqn:E.
  - by apply Qle_bool_iff in E.
  - split; [by destruct (negb (Qle_bool rate 0))|].
    intros H. apply Qle_bool_iff in H. congruence.
Qed.

Lemma status_of_dead (rate : Q) :
  status_of rate = "dead" ↔ (rate <= 0)%Q.
Proof.
  pose proof threshold_pos as Hpos.
  unfold status_of. generalize dependent threshold. intros th Hpos.
  destruct (Qle_bool th rate) eqn:Ea.
  - apply Qle_bool_iff in Ea. split; [done|lra].
  - destruct (Qle_bool rate 0) eqn:Ed; cbn [negb].
    + by apply Qle_bool_iff in Ed.
    + split; [done|]. intros H. apply Qle_bool_iff in H. congruence.
Qed.

Lemma status_of_unreliable (rate : Q) :
  status_of rate = "unreliable" ↔ (0 < rate)%Q ∧ (rate < threshold)%Q.
Proof.
  pose proof threshold_pos as Hpos.
  unfold status_of. generalize dependent threshold. intros threshold Hpos.
  destruct (Qle_bool threshold rate) eqn:Ea.
  - apply Qle_bool_iff in Ea. split; [done|lra].
  - assert (rate < threshold)%Q as Hlt.
    { apply Qnot_le_lt. intros H. apply Qle_bool_iff in H. congruence. }
    destruct (Qle_bool rate 0) eqn:Ed; cbn [negb].
    + apply Qle_bool_iff in Ed. split; [done|lra].
    + split; [|done]. intros _. split; [|done].
      apply Qnot_le_lt. intros H. apply Qle_bool_iff in H. congruence.
Qed.

(** The status expression on a rate of [t] tenths of a percent, read on
    the ratio [t / 1000]. *)
Lemma status_of_ratio (t : Z) :
  0 ≤ t →
  let rate := b64 (inject_Z t / 10) in
  let ratio := (inject_Z t / 1000)%Q in
  (status_of rate = "active" ↔ (666 # 1000 <= ratio)%Q) ∧
  (status_of rate = "unreliable"
   ↔ (0 < ratio)%Q ∧ (ratio < 666 # 1000)%Q) ∧
  (status_of rate = "dead" ↔ (ratio == 0)%Q).
Proof.
  intros Ht. cbv zeta.
  rewrite status_of_active, status_of_unreliable, status_of_dead.
  unfold threshold.
  pose proof (rate_above_threshold t) as Ha.
  pose proof (rate_positive t) as Hp.
  assert (inject_Z t / 1000 == inject_Z t * (1 # 1000))%Q as ->
    by reflexivity.
  assert (666 ≤ t ↔ (666 <= inject_Z t)%Q) as Ha'
    by (change 666%Q with (inject_Z 666); by rewrite <- Zle_Qle).
  assert (0 < t ↔ (0 < inject_Z t)%Q) as Hp'
    by (change 0%Q with (inject_Z 0); by rewrite <- Zlt_Qlt).
  rewrite Zle_Qle in Ht. change (inject_Z 0) with 0%Q in Ht.
  set (rate := b64 (inject_Z t / 10)) in *.
  set (th := b64 (666 # 10)) in *.
  split; [split|split; [split|split]].
  - intros H. apply Ha, Ha' in H. lra.
  - intros H. apply Ha, Ha'. lra.
  - intros [H1 H2]. apply Hp, Hp' in H1. split; [lra|].
    apply Qnot_le_lt. intros Hc.
    assert (666 <= inject_Z t)%Q as Hc' by lra.
    apply Ha', Ha in Hc'. lra.
  - intros [H1 H2]. split.
    + apply Hp, Hp'. lra.
    + apply Qnot_le_lt. intros Hc. apply Ha, Ha' in Hc. lra.
  - intros H0. destruct (Qlt_le_dec 0 (inject_Z t)) as [Hc|Hc]; [|lra].
    apply Hp', Hp in Hc. lra.
  - intros H0. apply Qnot_lt_le. intros Hc. apply Hp, Hp' in Hc. lra.
Qed.

(** The tenths of the rate are the nearest ones to the exact percentage,
    up to the rounding error of two float operations. *)
Lemma tenths_of_near (k n : Z) :
  0 ≤ k ≤ n → 0 < n →
  (Qabs (inject_Z (tenths_of k n) / 10 - inject_Z k / inject_Z n * 100)
   <= (1 # 20) + (1 # 35184372088832))%Q.
Proof.
  intros Hk Hn. destruct (percent_error k n Hk Hn) as (_ & _ & Herr).
  cbv zeta in Herr. unfold tenths_of.
  set (p := b64 (b64 (inject_Z k / inject_Z n) * 100)) in *.
  set (x := (inject_Z k / inject_Z n * 100)%Q) in *.
  destruct (round_half_even_near (p * 10)) as [H1 H2].
  set (t := inject_Z (round_half_even (p * 10))) in *.
  assert (t / 10 == t * (1 # 10))%Q as -> by reflexivity.
  apply Qabs_Qle_condition in Herr. apply Qabs_Qle_condition. split; lra.
Qed.

(** With at most [2^40] targets they are the nearest tenths exactly. *)
Lemma tenths_of_nearest (k n : Z) :
  0 ≤ k ≤ n → 0 < n → n ≤ 2 ^ 40 →
  (Qabs (inject_Z (tenths_of k n) / 10 - inject_Z k / inject_Z n * 100)
   <= 1 # 20)%Q.
Proof.
  intros Hk Hn Hmax. set (t := tenths_of k n).
  destruct (tenths_of_exact k n (t + 1) Hk Hn Hmax) as [Hup _].
  destruct (tenths_of_exact k n (t - 1) Hk Hn Hmax) as [_ Hdown].
  fold t in Hup, Hdown.
  assert (2000 * k ≤ (2 * t + 1) * n) as H1 by lia.
  assert ((2 * t - 1) * n ≤ 2000 * k) as H2 by lia.
  pose proof (inject_Z_pos n Hn) as HnQ.
  assert (inject_Z k / inject_Z n * 100 * inject_Z n == 100 * inject_Z k)%Q
    as Hx by (field; lra).
  set (x := (inject_Z k / inject_Z n * 100)%Q) in *.
  assert (inject_Z (2000 * k) <= inject_Z ((2 * t + 1) * n))%Q as H1'
    by (by rewrite <- Zle_Qle).
  assert (inject_Z ((2 * t + - (1)) * n) <= inject_Z (2000 * k))%Q as H2'
    by (rewrite <- Zle_Qle; lia).
  repeat rewrite ?inject_Z_plus, ?inject_Z_mult, ?inject_Z_opp in H1', H2'.
  change (inject_Z 1) with 1%Q in H1', H2'.
  change (inject_Z 2) with 2%Q in H1', H2'.
  change (inject_Z 2000) with 2000%Q in H1', H2'.
  change (inject_Z (Z.opp 1)) with (- (1))%Q in H2'.
  assert (inject_Z t / 10 == inject_Z t * (1 # 10))%Q as -> by reflexivity.
  clearbody x t. apply Qabs_Qle_condition. split.
  - apply (Qmult_le_r _ _ (inject_Z n) HnQ). nra.
  - apply (Qmult_le_r _ _ (inject_Z n) HnQ). nra.
Qed.

(** ** Scoring *)

Section Scoring.
Context {World : Type} (env : Env World).
Implicit Types (self : ProxyValidator) (s : St World) (proxy r : Dict).

(** Everything a returned result is made of. *)
Lemma test_proxy_result self proxy s r s' :
  test_proxy env self proxy s = (inl r, s') →
  ∃ ip port now,
    proxy !! "ip" = Some ip ∧ proxy !! "port" = Some port ∧
    test_urls self ≠ [] ∧
    let rs := probe_results env self proxy s in
    let acc := fold_outcomes acc0 (zip (test_urls self) rs) in
    length rs = length (test_urls self) ∧
    r = result_dict env proxy acc
          (success_rate_of (success_count acc)
             (Z.of_nat (length (test_urls self)))) now ∧
    requests_log s'
    = requests_log s
      ++ (request_for self (proxy_url env ip port) <$> test_urls self).
Proof.
  intros Hrun. apply test_proxy_returns in Hrun.
  destruct Hrun as (ip & port & Hip & Hport & Hurls & Hr & Hs).
  exists ip, port. eexists. unfold probe_results. rewrite Hip, Hport.
  do 3 (split; [done|]). cbv zeta.
  split; [apply run_probes_length|].
  split; [exact Hr|].
  subst s'. cbn [requests_log]. apply run_probes_log.
Qed.

Lemma results_of_fold (urls : list string) (rs : list ProbeResult) :
  length rs = length urls →
  let acc := fold_outcomes acc0 (zip urls rs) in
  length (results acc) = length urls ∧
  url <$> results acc = urls ∧
  success_count acc = Z.of_nat (length (omap elapsed_ok rs)) ∧
  success_count acc = count_success (results acc) ∧
  total_time acc = fsum (omap elapsed_ok rs).
Proof.
  intros Hlen acc.
  assert (results acc
          = (λ ur, outcome_dict (fst ur) (classify (snd ur)))
            <$> zip urls rs) as Hres.
  { subst acc. by rewrite fold_outcomes_results. }
  assert (success_count acc = Z.of_nat (length (omap elapsed_ok rs)))
    as Hcount.
  { subst acc. rewrite fold_outcomes_count, snd_zip by lia. cbn. lia. }
  split; [by rewrite Hres, length_fmap, length_zip, Hlen, Nat.min_id|].
  split.
  { rewrite Hres, <- list_fmap_compose.
    rewrite <- (fst_zip urls rs) at 2 by lia.
    apply list_fmap_ext. intros _ [u p] _. cbn.
    by destruct (classify p). }
  split; [exact Hcount|].
  split.
  { rewrite Hcount, Hres, count_success_outcomes, snd_zip by lia. done. }
  subst acc. rewrite fold_outcomes_total, snd_zip by lia. reflexivity.
Qed.
End Scoring.

(** ** The example runs *)

Lemma example_proxy_ip : example_proxy !! "ip" = Some (VStr "10.0.0.1").
Proof. unfold example_proxy, candidate. apply lookup_insert_eq. Qed.

Lemma example_proxy_port : example_proxy !! "port" = Some (VStr "8080").
Proof.
  unfold example_proxy, candidate.
  rewrite lookup_insert_ne by done. apply lookup_insert_eq.
Qed.

Lemma example_run_returns (l : list ProbeResult) :
  test_proxy scripted default_validator example_proxy (script l)
  = (inl (returned (example_run l)), snd (example_run l)).
Proof.
  destruct (test_proxy_total scripted default_validator example_proxy
              (script l)) as (r & s' & Hrun).
  - rewrite example_proxy_ip. by eexists.
  - rewrite example_proxy_port. by eexists.
  - done.
  - unfold returned, example_run. rewrite Hrun. reflexivity.
Qed.

(** The dict an example run returns, on the probe results it met. *)
Lemma example_run_result (l : list ProbeResult) :
  let rs := fst (run_probes scripted default_validator
                   (proxy_url scripted (VStr "10.0.0.1") (VStr "8080"))
                   default_test_urls (script l)) in
  let acc := fold_outcomes acc0 (zip default_test_urls rs) in
  probe_results scripted default_validator example_proxy (script l) = rs ∧
  returned (example_run l)
  = result_dict scripted example_proxy acc
      (success_rate_of (success_count acc) 3) "2025-05-09 12:00:00".
Proof.
  cbv zeta. split.
  - unfold probe_results. by rewrite example_proxy_ip, example_proxy_port.
  - pose proof (example_run_returns l) as Hrun.
    apply test_proxy_returns in Hrun.
    destruct Hrun as (ip & port & Hip & Hport & _ & Hr & _).
    rewrite example_proxy_ip in Hip. rewrite example_proxy_port in Hport.
    injection Hip as <-. injection Hport as <-. exact Hr.
Qed.

(** ** Status and success ratio *)

(** Claim C1.  In every result of [test_proxy] the status is a function of
    the success rate alone.  The rate is a float with one decimal,
    [tenths / 10]; on the ratio it stands for, [tenths / 1000], the status
    is 'active' exactly when the ratio is at least 0.666, 'unreliable'
    exactly when the ratio is strictly between 0 and 0.666, and 'dead'
    exactly when the ratio is 0; the boundary (the float 66.6) and the
    two-of-three ratio are both 'active'. *)
Theorem status_function_of_success_ratio {World : Type} (env : Env World)
    (self : ProxyValidator) (proxy r : Dict) (s s' : St World) :
  test_proxy env self proxy s = (inl r, s') →
  ∃ (rate : Q) (tenths : Z),
    r !! "success_rate" = Some (VNum (PyFloat rate)) ∧
    r !! "status" = Some (VStr (status_of rate)) ∧
    rate = b64 (inject_Z tenths / 10) ∧
    let ratio := (inject_Z tenths / 1000)%Q in
    (status_of rate = "active" ↔ (666 # 1000 <= ratio)%Q) ∧
    (status_of rate = "unreliable"
     ↔ (0 < ratio)%Q ∧ (ratio < 666 # 1000)%Q) ∧
    (status_of rate = "dead" ↔ (ratio == 0)%Q) ∧
    status_of (b64 (666 # 10)) = "active" ∧
    status_of (success_rate_of 2 3) = "active".
Proof.
  intros Hrun.
  destruct (test_proxy_result env self proxy s r s' Hrun)
    as (ip & port & now & _ & _ & Hurls & Hlen & -> & _).
  set (rs := probe_results env self proxy s) in *.
  destruct (results_of_fold (test_urls self) rs Hlen)
    as (_ & _ & Hcount & _ & _).
  set (acc := fold_outcomes acc0 (zip (test_urls self) rs)) in *.
  set (n := Z.of_nat (length (test_urls self))).
  exists (success_rate_of (success_count acc) n),
    (tenths_of (success_count acc) n).
  destruct (result_dict_written env proxy acc
              (success_rate_of (success_count acc) n) now)
    as (_ & _ & Hrate & _ & _ & Hstatus).
  split; [exact Hrate|]. split; [exact Hstatus|].
  split; [apply success_rate_tenths|].
  assert (0 ≤ tenths_of (success_count acc) n) as Hpos.
  { apply tenths_of_range.
    - rewrite Hcount. subst n. rewrite <- Hlen.
      pose proof (length_omap_elapsed rs). lia.
    - subst n. destruct (test_urls self); [done|cbn [length]; lia]. }
  rewrite success_rate_tenths.
  destruct (status_of_ratio _ Hpos) as (Ha & Hu & Hd).
  cbv zeta. split; [exact Ha|]. split; [exact Hu|]. split; [exact Hd|].
  split.
  - apply status_of_active. apply Qle_refl.
  - vm_compute. reflexivity.
Qed.

Lemma status_function_of_success_ratio_witness :
  ∃ (rate : Q) (tenths : Z),
    returned (example_run probes_two_ok) !! "success_rate"
    = Some (VNum (PyFloat rate)) ∧
    returned (example_run probes_two_ok) !! "status"
    = Some (VStr (status_of rate)) ∧
    rate = b64 (inject_Z tenths / 10) ∧
    let ratio := (inject_Z tenths / 1000)%Q in
    (status_of rate = "active" ↔ (666 # 1000 <= ratio)%Q) ∧
    (status_of rate = "unreliable"
     ↔ (0 < ratio)%Q ∧ (ratio < 666 # 1000)%Q) ∧
    (status_of rate = "dead" ↔ (ratio == 0)%Q) ∧
    status_of (b64 (666 # 10)) = "active" ∧
    status_of (success_rate_of 2 3) = "active".
Proof.
  apply (status_function_of_success_ratio scripted default_validator
           example_proxy (returned (example_run probes_two_ok))
           (script probes_two_ok) (snd (example_run probes_two_ok))).
  apply example_run_returns.
Defined.

(** The percentages on which exact rounding and the rounding of the
    doubles part: 23 of 80 is 28.75 percent and reads 28.7, 49 of 80 is
    61.25 percent and reads 61.3. *)
Lemma success_rate_of_ties :
  success_rate_of 23 80 = b64 (287 # 10) ∧
  success_rate_of 49 80 = b64 (613 # 10).
Proof. split; vm_compute; reflexivity. Qed.

(** Claim C2.  In every result of [test_proxy] (the list of targets is then
    non-empty) the success rate is [round(k / n * 100, 1)] for the number
    [k] of 'success' outcomes and the number [n] of targets probed: the
    float written with one decimal, [tenths / 10], with the ratio
    [success_rate / 100] in [0,1].  That decimal is at most 0.05, and the
    rounding error [2^-45] of the two float operations, away from the exact
    percentage; with at most [2^40] targets it is at most 0.05 away: a
    nearest decimal to the exact percentage. *)
Theorem success_ratio_is_rounded_fraction {World : Type} (env : Env World)
    (self : ProxyValidator) (proxy r : Dict) (s s' : St World) :
  test_proxy env self proxy s = (inl r, s') →
  ∃ (rate : Q) (details : list TestOutcome) (tenths : Z),
    r !! "success_rate" = Some (VNum (PyFloat rate)) ∧
    r !! "test_details" = Some (VDetails details) ∧
    length details = length (test_urls self) ∧
    (0 < length details)%nat ∧
    let k := inject_Z (count_success details) in
    let n := inject_Z (Z.of_nat (length details)) in
    (0 <= rate / 100)%Q ∧ (rate / 100 <= 1)%Q ∧
    rate = py_round (b64 (b64 (k / n) * 100)) 1 ∧
    rate = b64 (inject_Z tenths / 10) ∧
    0 ≤ tenths ≤ 1000 ∧
    (Qabs (inject_Z tenths / 10 - k / n * 100)
     <= (1 # 20) + (1 # 35184372088832))%Q ∧
    (Z.of_nat (length details) ≤ 2 ^ 40 →
     (Qabs (inject_Z tenths / 10 - k / n * 100) <= 1 # 20)%Q).
Proof.
  intros Hrun.
  destruct (test_proxy_result env self proxy s r s' Hrun)
    as (ip & port & now & _ & _ & Hurls & Hlen & -> & _).
  set (rs := probe_results env self proxy s) in *.
  destruct (results_of_fold (test_urls self) rs Hlen)
    as (Hrlen & _ & Hcount & Hcs & _).
  set (acc := fold_outcomes acc0 (zip (test_urls self) rs)) in *.
  set (n := Z.of_nat (length (test_urls self))).
  exists (success_rate_of (success_count acc) n), (results acc),
    (tenths_of (success_count acc) n).
  destruct (result_dict_written env proxy acc
              (success_rate_of (success_count acc) n) now)
    as (Hdet & _ & Hrate & _).
  split; [exact Hrate|]. split; [exact Hdet|]. split; [exact Hrlen|].
  assert (0 < n) as Hn.
  { subst n. destruct (test_urls self); [done|cbn [length]; lia]. }
  split; [rewrite Hrlen; lia|].
  assert (0 ≤ success_count acc ≤ n) as Hk.
  { rewrite Hcount. subst n. rewrite <- Hlen.
    pose proof (length_omap_elapsed rs). lia. }
  destruct (success_rate_of_range (success_count acc) n Hk Hn) as [H0 H1].
  cbv zeta. rewrite Hrlen, <- Hcs. fold n.
  assert (∀ x : Q, x / 100 == x * (1 # 100))%Q as Hdiv
    by (intros; reflexivity).
  split; [rewrite Hdiv; lra|]. split; [rewrite Hdiv; lra|].
  split; [reflexivity|].
  split; [apply success_rate_tenths|].
  split; [by apply tenths_of_range|].
  split; [by apply tenths_of_near|].
  intros Hmax. by apply tenths_of_nearest.
Qed.

Lemma success_ratio_is_rounded_fraction_witness :
  ∃ (rate : Q) (details : list TestOutcome) (tenths : Z),
    returned (example_run probes_two_ok) !! "success_rate"
    = Some (VNum (PyFloat rate)) ∧
    returned (example_run probes_two_ok) !! "test_details"
    = Some (VDetails details) ∧
    length details = length (test_urls default_validator) ∧
    (0 < length details)%nat ∧
    let k := inject_Z (count_success details) in
    let n := inject_Z (Z.of_nat (length details)) in
    (0 <= rate / 100)%Q ∧ (rate / 100 <= 1)%Q ∧
    rate = py_round (b64 (b64 (k / n) * 100)) 1 ∧
    rate = b64 (inject_Z tenths / 10) ∧
    0 ≤ tenths ≤ 1000 ∧
    (Qabs (inject_Z tenths / 10 - k / n * 100)
     <= (1 # 20) + (1 # 35184372088832))%Q ∧
    (Z.of_nat (length details) ≤ 2 ^ 40 →
     (Qabs (inject_Z tenths / 10 - k / n * 100) <= 1 # 20)%Q).
Proof.
  apply (success_ratio_is_rounded_fraction scripted default_validator
           example_proxy (returned (example_run probes_two_ok))
           (script probes_two_ok) (snd (example_run probes_two_ok))).
  apply example_run_returns.
Defined.

(** ** Frame *)

(** Claim C10.  The result of [test_proxy] agrees with the input record on
    every key that is not one of the seven result fields; in particular
    ['ip'] and ['port'] are present in it, and ['ip'], ['port'],
    ['country'], ['anonymity'] and ['source'] keep the value the input
    gives them. *)
Theorem test_proxy_preserves_input_fields {World : Type} (env : Env World)
    (self : ProxyValidator) (proxy r : Dict) (s s' : St World) :
  test_proxy env self proxy s = (inl r, s') →
  (∀ k : string, k ∉ test_result_fields → r !! k = proxy !! k) ∧
  is_Some (r !! "ip") ∧ is_Some (r !! "port") ∧
  (∀ k : string, k ∈ ["ip"; "port"; "country"; "anonymity"; "source"] →
     ∀ v : value, proxy !! k = Some v → r !! k = Some v).
Proof.
  intros Hrun.
  destruct (test_proxy_result env self proxy s r s' Hrun)
    as (ip & port & now & Hip & Hport & _ & _ & -> & _).
  assert (∀ k : string, k ∉ test_result_fields →
            result_dict env proxy
              (fold_outcomes acc0
                 (zip (test_urls self) (probe_results env self proxy s)))
              (success_rate_of
                 (success_count
                    (fold_outcomes acc0
                       (zip (test_urls self)
                          (probe_results env self proxy s))))
                 (Z.of_nat (length (test_urls self)))) now !! k
            = proxy !! k) as Hframe.
  { intros k Hk. by apply result_dict_frame. }
  split; [exact Hframe|].
  split; [rewrite Hframe; [by eexists|]; unfold test_result_fields;
          rewrite !not_elem_of_cons; repeat split; try done;
          apply not_elem_of_nil|].
  split; [rewrite Hframe; [by eexists|]; unfold test_result_fields;
          rewrite !not_elem_of_cons; repeat split; try done;
          apply not_elem_of_nil|].
  intros k Hk v Hv. rewrite Hframe; [exact Hv|].
  rewrite !elem_of_cons in Hk. unfold test_result_fields.
  rewrite !not_elem_of_cons.
  destruct Hk as [->|[->|[->|[->|[->|Hk]]]]];
    try (by apply elem_of_nil in Hk);
    repeat split; try done; apply not_elem_of_nil.
Qed.

Lemma test_proxy_preserves_input_fields_witness :
  (∀ k : string, k ∉ test_result_fields →
     returned (example_run probes_mixed) !! k = example_proxy !! k) ∧
  is_Some (returned (example_run probes_mixed) !! "ip") ∧
  is_Some (returned (example_run probes_mixed) !! "port") ∧
  (∀ k : string, k ∈ ["ip"; "port"; "country"; "anonymity"; "source"] →
     ∀ v : value, example_proxy !! k = Some v →
       returned (example_run probes_mixed) !! k = Some v).
Proof.
  apply (test_proxy_preserves_input_fields scripted default_validator
           example_proxy (returned (example_run probes_mixed))
           (script probes_mixed) (snd (example_run probes_mixed))).
  apply example_run_returns.
Defined.

(** ** One outcome per target *)

Lemma outcomes_zip_with (urls : list string) (rs : list ProbeResult) :
  (λ ur, outcome_dict (fst ur) (classify (snd ur))) <$> zip urls rs
  = zip_with (λ u p, outcome_dict u (classify p)) urls rs.
Proof.
  revert rs. induction urls as [|u urls IH]; intros [|p rs];
    try reflexivity.
  cbn [zip_with]. rewrite fmap_cons. cbn [fst snd]. f_equal. apply IH.
Qed.

(** Claim C7.  For a record with ['ip'] and ['port'] and any list of
    targets, the probe loop returns with exactly one outcome per target, in
    the order of the list, having issued exactly one request per target in
    that order, each in the world the previous one left; when the list is
    not empty [test_proxy] returns these outcomes as ['test_details']. *)
Theorem one_outcome_per_target_in_order {World : Type} (env : Env World)
    (self : ProxyValidator) (proxy : Dict) (s : St World) (ip port : value) :
  proxy !! "ip" = Some ip → proxy !! "port" = Some port →
  ∃ (acc : Acc) (s1 : St World),
    for_each (probe_step env self (proxy_url env ip port)) acc0
      (test_urls self) s = (inl acc, s1) ∧
    length (results acc) = length (test_urls self) ∧
    url <$> results acc = test_urls self ∧
    results acc
    = zip_with (λ u p, outcome_dict u (classify p)) (test_urls self)
        (probe_results env self proxy s) ∧
    requests_log s1
    = requests_log s
      ++ (request_for self (proxy_url env ip port) <$> test_urls self) ∧
    (test_urls self ≠ [] →
     ∃ (r : Dict) (s' : St World),
       test_proxy env self proxy s = (inl r, s') ∧
       r !! "test_details" = Some (VDetails (results acc)) ∧
       requests_log s' = requests_log s1).
Proof.
  intros Hip Hport. rewrite for_each_probe_step.
  eexists _, _. split; [reflexivity|].
  pose proof (run_probes_length env self (proxy_url env ip port)
                (test_urls self) s) as Hlen.
  assert (probe_results env self proxy s
          = fst (run_probes env self (proxy_url env ip port)
                   (test_urls self) s)) as Hrs.
  { unfold probe_results. by rewrite Hip, Hport. }
  rewrite <- Hrs in *.
  destruct (results_of_fold (test_urls self)
              (probe_results env self proxy s) Hlen)
    as (Hrlen & Hurl & _).
  split; [exact Hrlen|]. split; [exact Hurl|].
  split.
  { rewrite fold_outcomes_results. cbn [acc0 results app].
    apply outcomes_zip_with. }
  split; [cbn [snd]; apply run_probes_log|].
  intros Hurls.
  destruct (test_proxy_total env self proxy s) as (r & s' & Hrun);
    [by eexists..|done|].
  exists r, s'. split; [exact Hrun|].
  apply test_proxy_returns in Hrun.
  destruct Hrun as (ip' & port' & Hip' & Hport' & _ & -> & ->).
  assert (ip' = ip) as -> by congruence.
  assert (port' = port) as -> by congruence.
  rewrite <- Hrs. split; [|done].
  by destruct (result_dict_written env proxy
       (fold_outcomes acc0
          (zip (test_urls self) (probe_results env self proxy s)))
       (success_rate_of
          (success_count
             (fold_outcomes acc0
                (zip (test_urls self) (probe_results env self proxy s))))
          (Z.of_nat (length (test_urls self))))
       (fst (datetime_now env
          (world (snd (run_probes env self (proxy_url env ip port)
                         (test_urls self) s)))))) as (? & _).
Qed.

Lemma one_outcome_per_target_in_order_witness :
  ∃ (acc : Acc) (s1 : St ScriptWorld),
    for_each (probe_step scripted default_validator
                (proxy_url scripted (VStr "10.0.0.1") (VStr "8080"))) acc0
      (test_urls default_validator) (script probes_mixed) = (inl acc, s1) ∧
    length (results acc) = length (test_urls default_validator) ∧
    url <$> results acc = test_urls default_validator ∧
    results acc
    = zip_with (λ u p, outcome_dict u (classify p))
        (test_urls default_validator)
        (probe_results scripted default_validator example_proxy
           (script probes_mixed)) ∧
    requests_log s1
    = requests_log (script probes_mixed)
      ++ (request_for default_validator
            (proxy_url scripted (VStr "10.0.0.1") (VStr "8080"))
          <$> test_urls default_validator) ∧
    (test_urls default_validator ≠ [] →
     ∃ (r : Dict) (s' : St ScriptWorld),
       test_proxy scripted default_validator example_proxy
         (script probes_mixed) = (inl r, s') ∧
       r !! "test_details" = Some (VDetails (results acc)) ∧
       requests_log s' = requests_log s1).
Proof.
  apply (one_outcome_per_target_in_order scripted default_validator
           example_proxy (script probes_mixed) (VStr "10.0.0.1")
           (VStr "8080")); [apply example_proxy_ip|apply example_proxy_port].
Defined.

(** ** Classification of a probe *)

(** Claim C5, as stated, fails: a 204 response carries a successful status
    code and is classified 'http_error', and a read timeout is no response
    within the window and is classified 'other'. *)
Lemma classification_differs_from_spec :
  class_of (classify (Responded 204 (2 # 10))) = spec_http_error 204 ∧
  spec_classify (Responded 204 (2 # 10)) = spec_success ∧
  class_of (classify (Failed (exc ReadTimeout "Read timed out")))
  = spec_other "Read timed out" ∧
  spec_classify (Failed (exc ReadTimeout "Read timed out")) = spec_timeout ∧
  ¬ (∀ r : ProbeResult, class_of (classify r) = spec_classify r).
Proof.
  repeat split; try reflexivity.
  intros H. specialize (H (Responded 204 (2 # 10))). discriminate H.
Qed.

Ltac classify_cases :=
  repeat split; intros;
  repeat match goal with
         | H : _ ∧ _ |- _ => destruct H
         | H : ∃ _, _ |- _ => destruct H
         end;
  simplify_eq; try done; eauto 10.

(** Claim C5, amended.  Every probe result falls in exactly one of the six
    classes: 'success' exactly for a response with status code 200;
    'http_error', with the code recorded, exactly for a response with any
    other code; 'proxy_error' exactly for a [ProxyError]; 'timeout' exactly
    for a [ConnectTimeout]; 'tls_error' exactly for an [SSLError]; 'other',
    with the message recorded, exactly for any other exception, a read
    timeout among them. *)
Theorem probe_classification (r : ProbeResult) :
  (∀ code elapsed,
     classify r = Success code elapsed
     ↔ r = Responded code elapsed ∧ code = 200) ∧
  (∀ code,
     classify r = HttpError code
     ↔ (∃ elapsed, r = Responded code elapsed) ∧ code ≠ 200) ∧
  (classify r = ProxyErr ↔ ∃ e, r = Failed e ∧ exc_class e = ProxyError) ∧
  (classify r = Timeout ↔ ∃ e, r = Failed e ∧ exc_class e = ConnectTimeout) ∧
  (classify r = TlsError ↔ ∃ e, r = Failed e ∧ exc_class e = SSLError) ∧
  (∀ msg,
     classify r = Other msg
     ↔ ∃ e, r = Failed e ∧ exc_str e = msg ∧
            exc_class e ≠ ProxyError ∧ exc_class e ≠ ConnectTimeout ∧
            exc_class e ≠ SSLError) ∧
  (∀ u, success (outcome_dict u (classify r)) = true
        ↔ ∃ elapsed, r = Responded 200 elapsed) ∧
  (∀ u code, status_code (outcome_dict u (HttpError code)) = Some code) ∧
  (∀ u msg, error (outcome_dict u (Other msg)) = Some msg).
Proof.
  destruct r as [code elapsed|[c msg]];
    cbn [classify exc_class exc_str].
  - destruct (Z.eqb_spec code 200) as [->|Hne];
      cbn [outcome_dict success status_code error]; classify_cases.
  - destruct c; cbn [outcome_dict success status_code error];
      classify_cases.
Qed.

(** ** Mean latency *)

(** Claim C6, as stated, fails: with one success after 0.1875 seconds the
    mean of the successful elapsed times is 0.1875 and the reported mean
    latency is the float 0.19. *)
Lemma mean_latency_is_not_the_exact_mean :
  example_run probes_mixed
  = (inl (returned (example_run probes_mixed)),
     snd (example_run probes_mixed)) ∧
  omap elapsed_ok
    (probe_results scripted default_validator example_proxy
       (script probes_mixed)) = [3 # 16] ∧
  returned (example_run probes_mixed) !! "response_time"
  = Some (VNum (PyFloat (b64 (19 # 100)))) ∧
  ¬ (b64 (19 # 100) == mean [3 # 16])%Q.
Proof.
  destruct (example_run_result probes_mixed) as [Hrs Hr].
  split; [apply example_run_returns|].
  split; [rewrite Hrs; vm_compute; reflexivity|].
  split; [|vm_compute; discriminate].
  rewrite Hr.
  match goal with
  | |- result_dict _ ?p ?acc ?rate ?now !! _ = _ =>
      destruct (result_dict_written scripted p acc rate now)
        as (_ & _ & _ & -> & _)
  end.
  vm_compute. reflexivity.
Qed.

(** The mean of line 313 on five successes after 1/32, 1/32, 1/32, 1/64
    and 1/64 seconds: their sum 0.125 divided by 5 is a double just above
    0.025, and the mean latency reads 0.03. *)
Lemma fmean_example :
  py_round (fmean [1 # 32; 1 # 32; 1 # 32; 1 # 64; 1 # 64]) 2
  = b64 (3 # 100).
Proof. vm_compute. reflexivity. Qed.

(** Claim C6, amended.  When at least one probe took the success branch,
    the mean latency of the result is [round(m, 2)] for the mean [m] of the
    elapsed times of those probes only, as line 313 computes it in floats:
    the times added from left to right and the sum divided by their
    number.  The decimal it is written with is at most 0.005 away from [m].
    When no probe took the success branch it is the integer -1. *)
Theorem mean_latency_is_rounded_mean {World : Type} (env : Env World)
    (self : ProxyValidator) (proxy r : Dict) (s s' : St World) :
  test_proxy env self proxy s = (inl r, s') →
  let ok := omap elapsed_ok (probe_results env self proxy s) in
  (ok = [] → r !! "response_time" = Some (VNum (PyInt (-1)))) ∧
  (ok ≠ [] →
   r !! "response_time" = Some (VNum (PyFloat (py_round (fmean ok) 2))) ∧
   py_round (fmean ok) 2 = b64 (round_decimal (fmean ok) 2) ∧
   (Qabs (round_decimal (fmean ok) 2 - fmean ok) <= 1 # 200)%Q).
Proof.
  intros Hrun.
  destruct (test_proxy_result env self proxy s r s' Hrun)
    as (ip & port & now & _ & _ & Hurls & Hlen & -> & _).
  set (rs := probe_results env self proxy s) in *.
  destruct (results_of_fold (test_urls self) rs Hlen)
    as (_ & _ & Hcount & _ & Htotal).
  set (acc := fold_outcomes acc0 (zip (test_urls self) rs)) in *.
  destruct (result_dict_written env proxy acc
              (success_rate_of (success_count acc)
                 (Z.of_nat (length (test_urls self)))) now)
    as (_ & _ & _ & Htime & _).
  cbv zeta. rewrite Htime. unfold avg_time_of. rewrite Hcount, Htotal.
  split.
  - intros ->. reflexivity.
  - intros Hok.
    assert (0 < Z.of_nat (length (omap elapsed_ok rs))) as Hpos.
    { destruct (omap elapsed_ok rs); [done|cbn [length]; lia]. }
    replace (0 <? Z.of_nat (length (omap elapsed_ok rs))) with true
      by (symmetry; by apply Z.ltb_lt).
    rewrite Z.max_r by lia.
    split; [reflexivity|]. split; [reflexivity|].
    apply (round_decimal_near (fmean (omap elapsed_ok rs)) 2).
Qed.

Lemma mean_latency_is_rounded_mean_witness :
  let ok := omap elapsed_ok
              (probe_results scripted default_validator example_proxy
                 (script probes_all_ok)) in
  (ok = [] →
   returned (example_run probes_all_ok) !! "response_time"
   = Some (VNum (PyInt (-1)))) ∧
  (ok ≠ [] →
   returned (example_run probes_all_ok) !! "response_time"
   = Some (VNum (PyFloat (py_round (fmean ok) 2))) ∧
   py_round (fmean ok) 2 = b64 (round_decimal (fmean ok) 2) ∧
   (Qabs (round_decimal (fmean ok) 2 - fmean ok) <= 1 # 200)%Q).
Proof.
  apply (mean_latency_is_rounded_mean scripted default_validator
           example_proxy (returned (example_run probes_all_ok))
           (script probes_all_ok) (snd (example_run probes_all_ok))).
  apply example_run_returns.
Defined.

(** ** Sorting *)

Section SortFacts.
Context {K A : Type} (lt : K → K → bool).
Hypothesis lt_asym : ∀ a b, lt a b = true → lt b a = false.
Hypothesis not_lt_trans :
  ∀ a b c, lt b a = false → lt c b = false → lt c a = false.

Lemma insert_by_perm (x : K * A) (l : list (K * A)) :
  insert_by lt x l ≡ₚ x :: l.
Proof.
  induction l as [|y l IH]; cbn; [done|].
  destruct (lt (fst y) (fst x)); [|done].
  rewrite IH. apply Permutation_swap.
Qed.

Lemma sort_by_perm (l : list (K * A)) : sort_by lt l ≡ₚ l.
Proof.
  induction l as [|x l IH]; cbn; [done|].
  by rewrite insert_by_perm, IH.
Qed.

Lemma insert_by_sorted (x : K * A) (l : list (K * A)) :
  Sorted (not_after lt) l → Sorted (not_after lt) (insert_by lt x l).
Proof.
  induction l as [|y l IH]; cbn; intros Hs.
  - by repeat constructor.
  - destruct (lt (fst y) (fst x)) eqn:Hyx.
    + inversion_clear Hs as [|? ? Hl Hhd].
      constructor; [by apply IH|].
      destruct l as [|z l]; cbn.
      * constructor. by apply lt_asym.
      * destruct (lt (fst z) (fst x)).
        -- inversion_clear Hhd. by constructor.
        -- constructor. by apply lt_asym.
    + constructor; [done|]. by constructor.
Qed.

Lemma sort_by_sorted (l : list (K * A)) : Sorted (not_after lt) (sort_by lt l).
Proof.
  induction l as [|x l IH]; cbn; [constructor|].
  by apply insert_by_sorted.
Qed.

Lemma sort_by_strongly_sorted (l : list (K * A)) :
  StronglySorted (not_after lt) (sort_by lt l).
Proof.
  apply Sorted_StronglySorted; [|apply sort_by_sorted].
  intros x y z Hxy Hyz. unfold not_after in *. by eapply not_lt_trans.
Qed.

(** A list already in order is left as it is. *)
Lemma sort_by_sorted_id (l : list (K * A)) :
  Sorted (not_after lt) l → sort_by lt l = l.
Proof.
  induction l as [|x l IH]; cbn; [done|]. intros Hs.
  inversion_clear Hs as [|? ? Hl Hhd]. fold (sort_by lt l).
  rewrite IH by done.
  destruct Hhd as [|y l Hxy]; cbn; [done|].
  unfold not_after in Hxy. by rewrite Hxy.
Qed.

Lemma sort_by_idem (l : list (K * A)) :
  sort_by lt (sort_by lt l) = sort_by lt l.
Proof. apply sort_by_sorted_id, sort_by_sorted. Qed.

(** Stability: the items of one key class keep their order. *)
Lemma insert_by_same_key (k : K) (x : K * A) (l : list (K * A)) :
  filter (λ y, same_key lt k y = true) (insert_by lt x l)
  = filter (λ y, same_key lt k y = true) (x :: l).
Proof.
  induction l as [|y l IH]; cbn; [done|].
  destruct (lt (fst y) (fst x)) eqn:Hyx; [|done].
  rewrite (filter_cons _ y), IH, !filter_cons.
  destruct (decide (same_key lt k y = true)) as [Hy|]; [|done].
  destruct (decide (same_key lt k x = true)) as [Hx|]; [|done].
  unfold same_key in Hx, Hy.
  apply andb_true_iff in Hx as [Hx1 Hx2], Hy as [Hy1 Hy2].
  apply negb_true_iff in Hx1, Hx2, Hy1, Hy2.
  rewrite (not_lt_trans _ _ _ Hx1 Hy2) in Hyx. done.
Qed.

Lemma sort_by_same_key (k : K) (l : list (K * A)) :
  filter (λ y, same_key lt k y = true) (sort_by lt l)
  = filter (λ y, same_key lt k y = true) l.
Proof.
  induction l as [|x l IH]; cbn; [done|]. fold (sort_by lt l).
  by rewrite insert_by_same_key, !filter_cons, IH.
Qed.
End SortFacts.

(** Two orders that agree through a map of the keys sort alike. *)
Lemma insert_by_fmap {K1 K2 A : Type} (lt1 : K1 → K1 → bool)
    (lt2 : K2 → K2 → bool) (g : K1 → K2) (x : K1 * A) (l : list (K1 * A)) :
  Forall (λ y, lt1 (fst y) (fst x) = lt2 (g (fst y)) (g (fst x))) l →
  prod_map g id <$> insert_by lt1 x l
  = insert_by lt2 (prod_map g id x) (prod_map g id <$> l).
Proof.
  induction 1 as [|y l Hy _ IH]; [done|].
  cbn [insert_by fmap list_fmap].
  change (fst (prod_map g id y)) with (g (fst y)).
  change (fst (prod_map g id x)) with (g (fst x)). rewrite <- Hy.
  destruct (lt1 (fst y) (fst x)); [|done].
  rewrite fmap_cons. f_equal. exact IH.
Qed.

Lemma sort_by_fmap {K1 K2 A : Type} (lt1 : K1 → K1 → bool)
    (lt2 : K2 → K2 → bool) (g : K1 → K2) (l : list (K1 * A)) :
  (∀ x y, x ∈ l → y ∈ l → lt1 (fst y) (fst x) = lt2 (g (fst y)) (g (fst x))) →
  prod_map g id <$> sort_by lt1 l = sort_by lt2 (prod_map g id <$> l).
Proof.
  induction l as [|x l IH]; [done|]. intros Hl.
  cbn [sort_by foldr fmap list_fmap].
  fold (sort_by lt1 l). fold (sort_by lt2 (prod_map g id <$> l)).
  rewrite <- IH by (intros; apply Hl; by right).
  apply insert_by_fmap, Forall_forall. intros y Hy.
  apply Hl; [by left|]. right. by rewrite <- (sort_by_perm lt1 l).
Qed.

Lemma snd_prod_map {K1 K2 A : Type} (g : K1 → K2) (l : list (K1 * A)) :
  snd <$> (prod_map g id <$> l) = snd <$> l.
Proof. rewrite <- list_fmap_compose. by apply list_fmap_ext. Qed.

Lemma Qlt_bool_iff (x y : Q) : Qlt_bool x y = true ↔ (x < y)%Q.
Proof.
  unfold Qlt_bool. rewrite negb_true_iff. split.
  - intros H. apply Qnot_le_lt. intros Hle.
    apply Qle_bool_iff in Hle. congruence.
  - intros H. destruct (Qle_bool y x) eqn:E; [|done].
    apply Qle_bool_iff in E. lra.
Qed.

Lemma key_lt_iff (a b : Q * Q) :
  key_lt a b = true
  ↔ (fst a < fst b)%Q ∨ ((fst a == fst b)%Q ∧ (snd a < snd b)%Q).
Proof.
  unfold key_lt. destruct (Qeq_bool (fst a) (fst b)) eqn:E.
  - apply Qeq_bool_iff in E. rewrite Qlt_bool_iff. split; [auto|].
    intros [H|[_ H]]; [lra|done].
  - apply Qeq_bool_neq in E. rewrite Qlt_bool_iff. split; [auto|].
    intros [H|[H _]]; done.
Qed.

Lemma key_lt_false_iff (a b : Q * Q) :
  key_lt b a = false
  ↔ (fst a < fst b)%Q ∨ ((fst a == fst b)%Q ∧ (snd a <= snd b)%Q).
Proof.
  destruct (key_lt b a) eqn:E.
  - apply key_lt_iff in E. split; [done|]. lra.
  - split; [intros _|done].
    assert (¬ ((fst b < fst a)%Q
               ∨ ((fst b == fst a)%Q ∧ (snd b < snd a)%Q))) as H.
    { intros H. apply key_lt_iff in H. congruence. }
    destruct (Qlt_le_dec (fst a) (fst b)) as [|H1]; [by left|].
    destruct (Qlt_le_dec (fst b) (fst a)) as [|H2]; [tauto|].
    right. split; [lra|].
    destruct (Qlt_le_dec (snd b) (snd a)) as [H3|]; [|done].
    exfalso. apply H. right. split; [lra|done].
Qed.

Lemma key_lt_asym (a b : Q * Q) : key_lt a b = true → key_lt b a = false.
Proof. rewrite key_lt_iff, key_lt_false_iff. lra. Qed.

Lemma key_lt_not_trans (a b c : Q * Q) :
  key_lt b a = false → key_lt c b = false → key_lt c a = false.
Proof. rewrite !key_lt_false_iff. lra. Qed.

(** ** Sorting the active set *)

(** The key of a scored record: its rate negated and its latency as the
    record holds it. *)
Lemma sort_key_scored (d : Dict) :
  scored d →
  ∃ v, sort_key d = inl ((- rate_of d)%Q, v) ∧
       num_of v = Some (latency_of d).
Proof.
  unfold scored, rate_of, latency_of, field_num, sort_key, lookup_exc,
    as_number.
  intros [[r Hr] [t Ht]].
  destruct (d !! "success_rate") as [[| |n|]|]; try done;
    destruct (d !! "response_time") as [[| |m|]|]; try done;
    by eexists.
Qed.

Lemma map_exc_sort_key (l : list Dict) :
  Forall scored l →
  ∃ keys, map_exc sort_key l = inl keys ∧
          prod_map numeric id <$> zip keys l = decorate l ∧
          Forall (λ k, is_Some (num_of (snd k))) keys.
Proof.
  induction 1 as [|d l Hd _ (keys & IH & Hdec & Hnum)]; [by exists []|].
  destruct (sort_key_scored d Hd) as (v & Hk & Hv).
  exists (((- rate_of d)%Q, v) :: keys). cbn [map_exc]. rewrite Hk, IH.
  split; [reflexivity|]. split.
  - cbn [zip zip_with fmap list_fmap]. rewrite Hdec.
    unfold decorate. rewrite fmap_cons. f_equal.
    unfold prod_map, numeric, number_of, key_of. cbn [fst snd].
    by rewrite Hv.
  - constructor; [cbn [snd]; by rewrite Hv|exact Hnum].
Qed.

Lemma tuple_lt_numeric (a b : Q * value) :
  is_Some (num_of (snd a)) → is_Some (num_of (snd b)) →
  tuple_lt a b = inl (key_lt (numeric a) (numeric b)).
Proof.
  intros [x Hx] [y Hy]. unfold tuple_lt, key_lt, numeric, number_of, value_lt.
  cbn [fst snd]. rewrite Hx, Hy. cbn [default].
  by destruct (Qeq_bool (fst a) (fst b)).
Qed.

Lemma comparable_numeric (keys : list (Q * value)) :
  Forall (λ k, is_Some (num_of (snd k))) keys →
  comparable tuple_lt keys = true.
Proof.
  intros Hnum. unfold comparable.
  apply forallb_forall. intros a Ha. apply forallb_forall. intros b Hb.
  rewrite Forall_forall in Hnum.
  rewrite tuple_lt_numeric; [done| |]; apply Hnum; by apply list_elem_of_In.
Qed.

Lemma zip_key_of (l : list Dict) : zip (key_of <$> l) l = decorate l.
Proof. unfold decorate. induction l as [|d l IH]; [done|]. cbn. by f_equal. Qed.

Lemma snd_decorate (l : list Dict) : snd <$> decorate l = l.
Proof.
  unfold decorate. rewrite <- list_fmap_compose.
  induction l as [|d l IH]; [done|]. cbn. by f_equal.
Qed.

(** Sorting decorated records gives decorated records. *)
Lemma insert_by_decorate (x : Dict) (l : list Dict) :
  ∃ l', insert_by key_lt (key_of x, x) (decorate l) = decorate l'.
Proof.
  induction l as [|y l [l' IH]]; cbn.
  - by exists [x].
  - destruct (key_lt (key_of y) (key_of x)).
    + exists (y :: l'). fold (decorate l). rewrite IH. done.
    + by exists (x :: y :: l).
Qed.

Lemma sort_by_decorate (l : list Dict) :
  sort_by key_lt (decorate l)
  = decorate (snd <$> sort_by key_lt (decorate l)).
Proof.
  assert (∃ l', sort_by key_lt (decorate l) = decorate l') as [l' Hl'].
  { induction l as [|x l [l' IH]]; [by exists []|].
    cbn. fold (decorate l). fold (sort_by key_lt (decorate l)).
    rewrite IH. apply insert_by_decorate. }
  by rewrite Hl', snd_decorate.
Qed.

Lemma sort_active_scored (fault : SortFault) (l : list Dict) :
  Forall scored l →
  sort_active fault l = inl (snd <$> sort_by key_lt (decorate l)).
Proof.
  intros Hl. unfold sort_active, sort_keyed.
  destruct (map_exc_sort_key l Hl) as (keys & -> & Hdec & Hnum).
  cbn. rewrite (comparable_numeric keys Hnum).
  rewrite <- Hdec, <- (sort_by_fmap (decided tuple_lt) key_lt numeric).
  - by rewrite snd_prod_map.
  - intros x y Hx Hy. rewrite Forall_forall in Hnum.
    unfold decided. rewrite tuple_lt_numeric; [done| |];
      apply Hnum; [eapply elem_of_zip_l with (x2 := snd y)
                  |eapply elem_of_zip_l with (x2 := snd x)];
      by rewrite <- surjective_pairing.
Qed.

Lemma length_map_exc {A B : Type} (f : A → Exc B) (l : list A)
    (ys : list B) :
  map_exc f l = inl ys → length ys = length l.
Proof.
  revert ys. induction l as [|x l IH]; intros ys; cbn [map_exc].
  - intros [= <-]. done.
  - destruct (f x); [|done]. cbn.
    destruct (map_exc f l) as [ks|]; [|done]. cbn.
    intros [= <-]. cbn [length]. by rewrite (IH ks eq_refl).
Qed.

Lemma sort_keyed_perm {K A : Type} (lt : K → K → Exc bool) (keys : list K)
    (l sorted : list A) :
  length keys = length l → sort_keyed lt keys l = Some sorted → sorted ≡ₚ l.
Proof.
  unfold sort_keyed. intros Hlen.
  destruct (comparable lt keys); [|done]. intros [= <-].
  rewrite (sort_by_perm (decided lt) (zip keys l)).
  rewrite snd_zip; [done|lia].
Qed.

Lemma sort_active_perm (fault : SortFault) (l sorted : list Dict) :
  sort_active fault l = inl sorted → sorted ≡ₚ l.
Proof.
  unfold sort_active.
  destruct (map_exc sort_key l) as [keys|e] eqn:Hkeys; [|done].
  cbn. destruct (sort_keyed tuple_lt keys l) as [sorted'|] eqn:Hs; [|done].
  intros [= <-]. eapply sort_keyed_perm; [|exact Hs].
  by eapply length_map_exc.
Qed.

Lemma not_after_ranks_before (x y : Dict) :
  not_after key_lt (key_of x, x) (key_of y, y) ↔ ranks_before x y.
Proof.
  unfold not_after, ranks_before. cbn [fst].
  rewrite key_lt_false_iff. unfold key_of. cbn [fst snd].
  split; intros [H|[H1 H2]]; (left; lra) || (right; split; lra).
Qed.

Lemma same_key_same_rank (d y : Dict) :
  same_key key_lt (key_of d) (key_of y, y) = true ↔ same_rank d y = true.
Proof.
  unfold same_key, same_rank. cbn [fst].
  rewrite !andb_true_iff, !negb_true_iff, !key_lt_false_iff,
    !Qeq_bool_iff.
  unfold key_of. cbn [fst snd]. split.
  - intros [[H1|[H1 H2]] [H3|[H3 H4]]]; split; lra.
  - intros [H1 H2]. split; right; split; lra.
Qed.

Lemma StronglySorted_decorate (l : list Dict) :
  StronglySorted (not_after key_lt) (decorate l) →
  StronglySorted ranks_before l.
Proof.
  induction l as [|x l IH]; cbn; [constructor|].
  intros Hs. inversion_clear Hs as [|? ? Hl Hall].
  constructor; [by apply IH|].
  fold (decorate l) in Hall. unfold decorate in Hall.
  rewrite Forall_fmap in Hall.
  eapply Forall_impl; [exact Hall|].
  intros y Hy. by apply not_after_ranks_before.
Qed.

Lemma Sorted_decorate (l : list Dict) :
  Sorted ranks_before l → Sorted (not_after key_lt) (decorate l).
Proof.
  induction 1 as [|x l Hl IH Hhd]; cbn; constructor; [done|].
  destruct Hhd as [|y l Hxy]; cbn; constructor.
  by apply not_after_ranks_before.
Qed.

Lemma filter_same_rank_decorate (d : Dict) (l : list Dict) :
  snd <$> filter (λ y, same_key key_lt (key_of d) y = true) (decorate l)
  = filter (λ y, same_rank d y = true) l.
Proof.
  induction l as [|x l IH]; [done|].
  cbn [decorate fmap list_fmap]. fold (decorate l).
  rewrite !filter_cons.
  destruct (decide (same_key key_lt (key_of d) (key_of x, x) = true)) as [H|H];
    destruct (decide (same_rank d x = true)) as [H'|H'].
  - rewrite fmap_cons. cbn [snd]. by rewrite IH.
  - by apply same_key_same_rank in H.
  - by apply same_key_same_rank in H'.
  - exact IH.
Qed.

(** A sorted active set, sorted again, is itself. *)
Lemma sort_active_sorted_id (fault : SortFault) (l : list Dict) :
  Forall scored l → Sorted ranks_before l → sort_active fault l = inl l.
Proof.
  intros Hl Hs. rewrite (sort_active_scored fault l Hl).
  rewrite (sort_by_sorted_id key_lt (decorate l)) by by apply Sorted_decorate.
  by rewrite snd_decorate.
Qed.

Lemma sort_key_of_zip (l : list Dict) (keys : list (Q * value)) :
  map_exc sort_key l = inl keys →
  Forall (λ p, sort_key (snd p) = inl (fst p)) (zip keys l).
Proof.
  revert keys. induction l as [|d l IH]; intros keys; cbn [map_exc].
  - intros [= <-]. constructor.
  - destruct (sort_key d) as [k|] eqn:Hk; [|done]. cbn.
    destruct (map_exc sort_key l) as [ks|]; [|done]. cbn.
    intros [= <-]. cbn. constructor; [done|]. by apply IH.
Qed.

Lemma map_exc_sort_key_pairs (ps : list ((Q * value) * Dict)) :
  Forall (λ p, sort_key (snd p) = inl (fst p)) ps →
  map_exc sort_key (snd <$> ps) = inl (fst <$> ps).
Proof.
  induction 1 as [|p ps Hp _ IH]; [done|].
  rewrite !fmap_cons. cbn [map_exc]. rewrite Hp, IH. reflexivity.
Qed.

(** ** The comparisons of Python *)

Lemma Qlt_bool_asym (x y : Q) : Qlt_bool x y = true → Qlt_bool y x = false.
Proof.
  intros H. apply Qlt_bool_iff in H.
  destruct (Qlt_bool y x) eqn:E; [|done]. apply Qlt_bool_iff in E. lra.
Qed.

Lemma string_ltb_asym (a b : string) :
  String.ltb a b = true → String.ltb b a = false.
Proof.
  unfold String.ltb. rewrite (String.compare_antisym b a).
  by destruct (String.compare a b).
Qed.

Lemma option_eqb_sym {A : Type} (eqb : A → A → bool) (a b : option A) :
  (∀ x y, eqb x y = eqb y x) → option_eqb eqb a b = option_eqb eqb b a.
Proof. intros H. destruct a, b; cbn; auto. Qed.

Lemma Qeq_bool_sym (x y : Q) : Qeq_bool x y = Qeq_bool y x.
Proof.
  apply eq_true_iff_eq. rewrite !Qeq_bool_iff. split; intros H; by symmetry.
Qed.

Lemma outcome_eqb_sym (a b : TestOutcome) : outcome_eqb a b = outcome_eqb b a.
Proof.
  unfold outcome_eqb.
  rewrite (String.eqb_sym (url a)), (Qeq_bool_sym (num_val (response_time a))),
    (option_eqb_sym Z.eqb (status_code a)) by apply Z.eqb_sym.
  rewrite (option_eqb_sym String.eqb (error a)) by apply String.eqb_sym.
  by destruct (success a), (success b).
Qed.

Lemma details_lt_asym (a b : list TestOutcome) :
  details_lt a b = inl true → decided details_lt b a = false.
Proof.
  unfold decided. revert b. induction a as [|x a IH]; intros [|y b];
    cbn [details_lt]; try done.
  rewrite (outcome_eqb_sym y x).
  destruct (outcome_eqb x y); [apply IH|done].
Qed.

Lemma value_lt_asym (a b : value) :
  value_lt a b = inl true → decided value_lt b a = false.
Proof.
  unfold decided, value_lt.
  destruct a as [x|x|x|x], b as [y|y|y|y]; cbn [num_of]; try done;
    try (intros [= H]; by rewrite (Qlt_bool_asym _ _ H)).
  - intros [= H]. by rewrite (string_ltb_asym _ _ H).
  - apply details_lt_asym.
Qed.

Lemma tuple_lt_asym (a b : Q * value) :
  decided tuple_lt a b = true → decided tuple_lt b a = false.
Proof.
  unfold decided at 1. unfold tuple_lt at 1.
  destruct (Qeq_bool (fst a) (fst b)) eqn:E.
  - destruct (value_lt (snd a) (snd b)) as [[|]|] eqn:Hv; try done.
    intros _. unfold decided, tuple_lt. rewrite Qeq_bool_sym, E.
    by apply value_lt_asym.
  - intros H. unfold decided, tuple_lt. rewrite Qeq_bool_sym, E.
    by apply Qlt_bool_asym.
Qed.

Lemma comparable_spec {K : Type} (lt : K → K → Exc bool) (keys : list K) :
  comparable lt keys = true
  ↔ ∀ a b, a ∈ keys → b ∈ keys → ∃ c, lt a b = inl c.
Proof.
  unfold comparable. split.
  - intros H a b Ha Hb.
    rewrite forallb_forall in H. apply list_elem_of_In in Ha, Hb.
    specialize (H a Ha). rewrite forallb_forall in H. specialize (H b Hb).
    destruct (lt a b); [by eexists|done].
  - intros H. apply forallb_forall. intros a Ha.
    apply forallb_forall. intros b Hb. apply list_elem_of_In in Ha, Hb.
    by destruct (H a b Ha Hb) as [c ->].
Qed.

Lemma comparable_perm {K : Type} (lt : K → K → Exc bool) (k1 k2 : list K) :
  k1 ≡ₚ k2 → comparable lt k1 = comparable lt k2.
Proof.
  intros Hp. apply eq_true_iff_eq. rewrite !comparable_spec.
  split; intros H a b Ha Hb; apply H; first [by rewrite Hp|by rewrite <- Hp].
Qed.

(** Claim C9.  Sorting the active set by the selection key is idempotent:
    sorting the result of a sort gives the same sequence (and the same
    exception when the first sort raises), and an active set of scored
    records already in ranking order is returned as it is. *)
Theorem sort_active_idempotent (fault : SortFault) (l : list Dict) :
  (sort_active fault l ≫= sort_active fault) = sort_active fault l ∧
  (Forall scored l → Sorted ranks_before l → sort_active fault l = inl l).
Proof.
  split; [|apply sort_active_sorted_id].
  assert (∀ sorted, sort_active fault l = inl sorted
                    → sort_active fault sorted = inl sorted) as Hsorted.
  { intros sorted. unfold sort_active.
    destruct (map_exc sort_key l) as [keys|e] eqn:Hkeys; [|done].
    cbn. unfold sort_keyed.
    destruct (comparable tuple_lt keys) eqn:Hcmp; [|done].
    intros [= <-].
    pose proof (sort_key_of_zip l keys Hkeys) as Hinv.
    pose proof (length_map_exc _ _ _ Hkeys) as Hlen.
    set (lt := decided tuple_lt) in *.
    rewrite <- (sort_by_perm lt (zip keys l)) in Hinv.
    rewrite (map_exc_sort_key_pairs _ Hinv). cbn.
    rewrite (comparable_perm tuple_lt _ keys); cycle 1.
    { rewrite (sort_by_perm lt (zip keys l)), fst_zip; [done|lia]. }
    rewrite Hcmp, zip_fst_snd.
    by rewrite sort_by_idem by apply tuple_lt_asym. }
  destruct (sort_active fault l) as [sorted|e] eqn:Hsort; [|done].
  cbn. by apply Hsorted.
Qed.

(** ** Selection *)

Lemma lookup_exc_Some (d : Dict) (k : string) :
  is_Some (d !! k) → ∃ v, lookup_exc d k = inl v.
Proof. intros [v Hv]. exists v. unfold lookup_exc. by rewrite Hv. Qed.

Lemma field_num_lookup (d : Dict) (k : string) :
  is_Some (field_num d k) → is_Some (d !! k).
Proof. unfold field_num. destruct (d !! k); [by eexists|by intros [? ?]]. Qed.

(** What the sort does to an active set of scored records. *)
Lemma sort_active_ranks (fault : SortFault) (l : list Dict) :
  Forall scored l →
  ∃ sorted,
    sort_active fault l = inl sorted ∧
    sorted ≡ₚ l ∧
    StronglySorted ranks_before sorted ∧
    (∀ d, filter (λ y, same_rank d y = true) sorted
          = filter (λ y, same_rank d y = true) l).
Proof.
  intros Hl. eexists. split; [by apply sort_active_scored|].
  split; [by apply (sort_active_perm fault), sort_active_scored|].
  split.
  - apply StronglySorted_decorate. rewrite <- sort_by_decorate.
    apply sort_by_strongly_sorted;
      eauto using key_lt_asym, key_lt_not_trans.
  - intros d.
    rewrite <- !filter_same_rank_decorate, <- sort_by_decorate.
    by rewrite sort_by_same_key by eauto using key_lt_not_trans.
Qed.

Lemma best_line_scored (best : Dict) :
  has_endpoint best → scored best → ∃ o, best_line best = inl o.
Proof.
  intros [Hip Hport] [Hrate%field_num_lookup Htime%field_num_lookup].
  unfold best_line.
  destruct (lookup_exc_Some best "ip" Hip) as [ip ->].
  destruct (lookup_exc_Some best "port" Hport) as [port ->].
  destruct (lookup_exc_Some best "response_time" Htime) as [time ->].
  destruct (lookup_exc_Some best "success_rate" Hrate) as [rate ->].
  by eexists.
Qed.

(** The state after a selection whose sort gave [best :: rest]. *)
Lemma select_best_proxy_sorted (s : Sys) (best : Dict) (rest : list Dict) :
  active_proxies (master s) ≠ [] →
  sort_active (sort_fault s) (active_proxies (master s))
  = inl (best :: rest) →
  has_endpoint best → scored best →
  ∃ o, select_best_proxy s
       = (None, print o (set_current (Some best)
                           (set_active (best :: rest) s))).
Proof.
  intros Hne Hsort Hend Hscored. unfold select_best_proxy.
  destruct (active_proxies (master s)) as [|first others]; [done|].
  rewrite Hsort. cbn [head].
  destruct (best_line_scored best Hend Hscored) as [o ->]. by exists o.
Qed.

(** Claim C4, amended.  On an active set of scored records that name their
    endpoint, [select_best_proxy] sorts by a stable sort on success rate
    descending, then mean latency ascending: the sorted list is a
    permutation of the active set, every record ranks before all later
    ones (a higher rate, or the same rate and a latency not higher), and
    records that tie on both keys keep their order; the selected endpoint
    is the head of the sorted list.  On an empty active set no exception is
    raised and nothing is changed but a line on the console: the selection
    stays what it was, absent on a fresh object and the earlier selection
    after an earlier cycle. *)
Theorem select_best_proxy_ranks (s : Sys) :
  Forall scored (active_proxies (master s)) →
  Forall has_endpoint (active_proxies (master s)) →
  match active_proxies (master s) with
  | [] =>
      select_best_proxy s = (None, print OutNoActive s) ∧
      current_proxy (master (snd (select_best_proxy s)))
      = current_proxy (master s)
  | _ :: _ =>
      ∃ (sorted : list Dict) (best : Dict),
        sort_active (sort_fault s) (active_proxies (master s)) = inl sorted ∧
        sorted ≡ₚ active_proxies (master s) ∧
        StronglySorted ranks_before sorted ∧
        (∀ d, filter (λ y, same_rank d y = true) sorted
              = filter (λ y, same_rank d y = true)
                  (active_proxies (master s))) ∧
        head sorted = Some best ∧
        fst (select_best_proxy s) = None ∧
        active_proxies (master (snd (select_best_proxy s))) = sorted ∧
        current_proxy (master (snd (select_best_proxy s))) = Some best ∧
        proxy_data (master (snd (select_best_proxy s)))
        = proxy_data (master s)
  end.
Proof.
  intros Hscored Hend.
  destruct (active_proxies (master s)) as [|first rest] eqn:Hact.
  { unfold select_best_proxy. by rewrite Hact. }
  destruct (sort_active_ranks (sort_fault s) (first :: rest) Hscored)
    as (sorted & Hsort & Hperm & Hss & Hstable).
  destruct sorted as [|best sorted'].
  { apply Permutation_nil_l in Hperm. done. }
  exists (best :: sorted'), best.
  do 5 (split; [done|]).
  assert (best ∈ first :: rest) as Hin by (rewrite <- Hperm; left).
  rewrite Forall_forall in Hscored, Hend.
  destruct (select_best_proxy_sorted s best sorted') as [o ->];
    rewrite ?Hact; auto.
Qed.

(** A result of [test_proxy] is scored and names its endpoint. *)
Lemma test_proxy_scored {World : Type} (env : Env World)
    (self : ProxyValidator) (proxy r : Dict) (s s' : St World) :
  test_proxy env self proxy s = (inl r, s') →
  scored r ∧ has_endpoint r.
Proof.
  intros Hrun.
  destruct (test_proxy_result env self proxy s r s' Hrun)
    as (ip & port & now & Hip & Hport & _ & _ & -> & _).
  match goal with
  | |- scored (result_dict _ ?p ?acc ?rate ?now) ∧ _ =>
      destruct (result_dict_written env p acc rate now)
        as (_ & _ & Hrate & Htime & _);
      pose proof (result_dict_frame env p acc rate now) as Hframe
  end.
  unfold scored, has_endpoint, field_num.
  rewrite Hrate, Htime, !Hframe, Hip, Hport;
    try (unfold test_result_fields; rewrite !not_elem_of_cons;
         repeat split; try done; apply not_elem_of_nil).
  repeat split; by eexists.
Qed.

Lemma example_run_scored (l : list ProbeResult) :
  scored (returned (example_run l)) ∧ has_endpoint (returned (example_run l)).
Proof. eapply test_proxy_scored, example_run_returns. Qed.

(** The two ranking keys of an example result. *)
Lemma example_run_keys (l : list ProbeResult) :
  let rs := fst (run_probes scripted default_validator
                   (proxy_url scripted (VStr "10.0.0.1") (VStr "8080"))
                   default_test_urls (script l)) in
  let acc := fold_outcomes acc0 (zip default_test_urls rs) in
  rate_of (returned (example_run l)) = success_rate_of (success_count acc) 3 ∧
  latency_of (returned (example_run l)) = num_val (avg_time_of acc).
Proof.
  cbv zeta. destruct (example_run_result l) as [_ ->].
  match goal with
  | |- rate_of (result_dict _ ?p ?acc ?rate ?now) = _ ∧ _ =>
      destruct (result_dict_written scripted p acc rate now)
        as (_ & _ & Hrate & Htime & _)
  end.
  unfold rate_of, latency_of, field_num. by rewrite Hrate, Htime.
Qed.

Lemma example_active_scored :
  Forall scored example_active ∧ Forall has_endpoint example_active.
Proof.
  unfold example_active.
  split; (constructor; [apply example_run_scored|]);
    (constructor; [apply example_run_scored|constructor]).
Qed.

Lemma select_best_proxy_ranks_witness :
  ∃ (sorted : list Dict) (best : Dict),
    sort_active (sort_fault example_sys)
      (active_proxies (master example_sys)) = inl sorted ∧
    sorted ≡ₚ active_proxies (master example_sys) ∧
    StronglySorted ranks_before sorted ∧
    (∀ d, filter (λ y, same_rank d y = true) sorted
          = filter (λ y, same_rank d y = true)
              (active_proxies (master example_sys))) ∧
    head sorted = Some best ∧
    fst (select_best_proxy example_sys) = None ∧
    active_proxies (master (snd (select_best_proxy example_sys))) = sorted ∧
    current_proxy (master (snd (select_best_proxy example_sys))) = Some best ∧
    proxy_data (master (snd (select_best_proxy example_sys)))
    = proxy_data (master example_sys).
Proof.
  apply (select_best_proxy_ranks example_sys); apply example_active_scored.
Defined.

Lemma sort_active_idempotent_witness :
  (sort_active example_fault (reverse example_active)
   ≫= sort_active example_fault)
  = sort_active example_fault (reverse example_active) ∧
  sort_active example_fault (reverse example_active)
  = inl (reverse example_active).
Proof.
  destruct (sort_active_idempotent example_fault (reverse example_active))
    as [Hidem Hid].
  split; [exact Hidem|]. apply Hid.
  - unfold example_active. cbn [reverse rev_append].
    constructor; [apply example_run_scored|].
    constructor; [apply example_run_scored|constructor].
  - unfold example_active. cbn [reverse rev_append].
    apply Sorted_cons;
      [apply Sorted_cons; [apply Sorted_nil|apply HdRel_nil]|].
    apply HdRel_cons. unfold ranks_before.
    destruct (example_run_keys probes_all_ok) as [-> _].
    destruct (example_run_keys probes_two_ok) as [-> _].
    left. vm_compute. reflexivity.
Defined.

(** ** The loop over the completed futures *)

Lemma field_num_as_number (d : Dict) (k : string) (msg : string → string) :
  is_Some (field_num d k) →
  ∃ v q, d !! k = Some v ∧ lookup_exc d k = inl v ∧ as_number msg v = inl q.
Proof.
  unfold field_num, lookup_exc, as_number. intros [q Hq].
  destruct (d !! k) as [[| |n|]|]; try done; by eexists _, _.
Qed.

Lemma try_block_returned (active : list Dict) (proxy r : Dict) :
  has_endpoint proxy → well_scored r →
  ∃ o, try_block active proxy (inl r)
       = (if flagged r then active ++ [r] else active, inl o) ∧
       reports (proxy, inl r) o.
Proof.
  intros [[ip Hip] [port Hport]] ([Hrate _] & _ & [ok Hok] & [st Hst]).
  destruct (field_num_as_number r "success_rate" greater_than_int Hrate)
    as (rate & q & Hr & Hlr & Hq).
  unfold try_block, flagged, reports. rewrite Hok, Hlr. cbn [fst snd].
  assert (lookup_exc proxy "ip" = inl ip) as ->
    by (unfold lookup_exc; by rewrite Hip).
  assert (lookup_exc proxy "port" = inl port) as ->
    by (unfold lookup_exc; by rewrite Hport).
  assert (lookup_exc r "status" = inl st) as ->
    by (unfold lookup_exc; by rewrite Hst).
  destruct (truthy ok); cbn; [|rewrite Hq; cbn];
    (eexists; split; [reflexivity|]); exists ip, port;
    (do 2 (split; [done|])); by eexists _, st, rate.
Qed.

Lemma except_clause_reports (proxy : Dict) (e : PyExc) :
  has_endpoint proxy →
  ∃ o, except_clause proxy e = inl o ∧ reports (proxy, inr e) o.
Proof.
  intros [[ip Hip] [port Hport]].
  unfold except_clause, lookup_exc, reports. rewrite Hip, Hport. cbn.
  eexists. split; [reflexivity|]. by exists ip, port.
Qed.

(** On orderly futures the loop never aborts: it prints one line per future,
    appends the flagged results in completion order, and leaves the rest of
    the state alone. *)
Lemma completed_loop_orderly (completed : list (Dict * Exc Dict)) (s : Sys) :
  Forall orderly completed →
  ∃ (s' : Sys) (lines : list Output),
    completed_loop completed s = (None, s') ∧
    active_proxies (master s')
    = active_proxies (master s)
      ++ filter (λ r, flagged r = true) (returned_results completed) ∧
    proxy_data (master s') = proxy_data (master s) ∧
    current_proxy (master s') = current_proxy (master s) ∧
    validator (master s') = validator (master s) ∧
    saved s' = saved s ∧
    console s' = console s ++ lines ∧
    Forall2 reports completed lines.
Proof.
  intros Hall. revert s.
  induction Hall as [|[proxy outcome] completed [Hend Hout] _ IH]; intros s.
  - exists s, []. cbn. rewrite !app_nil_r. repeat split; constructor.
  - cbn [completed_loop]. cbn [fst snd] in Hend, Hout.
    destruct outcome as [r|e].
    + destruct (try_block_returned (active_proxies (master s)) proxy r
                  Hend Hout) as (o & -> & Hrep).
      destruct (IH (print o (set_active
                      (if flagged r then active_proxies (master s) ++ [r]
                       else active_proxies (master s)) s)))
        as (s' & lines & -> & Hact & Hdata & Hcur & Hval & Hsaved & Hcon & Hrest).
      exists s', (o :: lines).
      split; [done|]. cbn in Hact, Hdata, Hcur, Hval, Hsaved, Hcon.
      split.
      { rewrite Hact. unfold returned_results. cbn [omap list_omap snd].
        rewrite filter_cons. fold (returned_results completed).
        destruct (flagged r) eqn:Hf.
        - rewrite decide_True by done. by rewrite <- app_assoc.
        - rewrite decide_False by done. done. }
      do 4 (split; [done|]).
      split; [by rewrite Hcon, <- app_assoc|].
      by constructor.
    + cbn [try_block].
      destruct (except_clause_reports proxy e Hend) as (o & -> & Hrep).
      destruct (IH (print o (set_active (active_proxies (master s)) s)))
        as (s' & lines & -> & Hact & Hdata & Hcur & Hval & Hsaved & Hcon & Hrest).
      exists s', (o :: lines).
      split; [done|]. cbn in Hact, Hdata, Hcur, Hval, Hsaved, Hcon.
      split; [exact Hact|].
      do 4 (split; [done|]).
      split; [by rewrite Hcon, <- app_assoc|].
      by constructor.
Qed.

(** ** A test cycle *)

Lemma returned_results_elem (completed : list (Dict * Exc Dict)) (r : Dict) :
  r ∈ returned_results completed ↔ ∃ proxy, (proxy, inl r) ∈ completed.
Proof.
  unfold returned_results. rewrite list_elem_of_omap. split.
  - intros ([proxy [r'|e]] & Hin & Hr); [|done].
    injection Hr as ->. by exists proxy.
  - intros [proxy Hin]. by exists (proxy, inl r).
Qed.

Lemma orderly_returned (completed : list (Dict * Exc Dict)) :
  Forall orderly completed → Forall well_scored (returned_results completed).
Proof.
  intros Hall. apply Forall_forall. intros r Hr.
  apply returned_results_elem in Hr as [proxy Hin].
  rewrite Forall_forall in Hall. by destruct (Hall _ Hin) as [_ ?].
Qed.

Lemma completed_loop_sort_fault (completed : list (Dict * Exc Dict))
    (s : Sys) :
  sort_fault (snd (completed_loop completed s)) = sort_fault s.
Proof.
  revert s. induction completed as [|[proxy outcome] completed IH];
    intros s; [done|].
  cbn [completed_loop].
  destruct (try_block (active_proxies (master s)) proxy outcome)
    as [active [o|e]].
  - by rewrite IH.
  - destruct (except_clause proxy e) as [o|e']; [by rewrite IH|done].
Qed.

(** A cycle over orderly futures: what [test_proxies] leaves behind. *)
Lemma test_proxies_orderly (completed : list (Dict * Exc Dict))
    (timestamp : string) (s : Sys) :
  proxy_data (master s) ≠ [] → Forall orderly completed →
  let act := filter (λ r, flagged r = true) (returned_results completed) in
  ∃ (s' : Sys) (lines : list Output),
    test_proxies completed timestamp s = (None, s') ∧
    Forall2 reports completed lines ∧
    (∃ post, console s' = console s ++ OutTestingHeader :: lines ++ post) ∧
    proxy_data (master s') = proxy_data (master s) ∧
    sort_active (sort_fault s) act = inl (active_proxies (master s')) ∧
    active_proxies (master s') ≡ₚ act ∧
    current_proxy (master s')
    = match act with
      | [] => current_proxy (master s)
      | _ => head (active_proxies (master s'))
      end ∧
    ∃ file, saved s'
            = saved s
              ++ [{| snap_file := file;
                     snap_proxies := proxy_data (master s);
                     snap_active_proxies := act;
                     snap_current_proxy := current_proxy (master s) |}].
Proof.
  intros Hdata Hall act. unfold test_proxies.
  destruct (proxy_data (master s)) as [|p0 data] eqn:Hpd; [done|].
  destruct (completed_loop_orderly completed
              (set_active [] (print OutTestingHeader s)) Hall)
    as (s2 & lines & Hloop & Hact & Hdata2 & Hcur2 & Hval2 & Hsaved2 & Hcon2
        & Hrep).
  rewrite Hloop.
  cbn in Hact, Hdata2, Hcur2, Hval2, Hsaved2, Hcon2. fold act in Hact.
  unfold save_results.
  set (file := "proxy_results/proxy_test_" +:+ timestamp +:+ ".json").
  set (s3 := print (OutSaved file) _).
  assert (active_proxies (master s3) = act) as Hact3 by done.
  assert (sort_fault s3 = sort_fault s) as Hfault.
  { pose proof (completed_loop_sort_fault completed
                  (set_active [] (print OutTestingHeader s))) as Hf.
    rewrite Hloop in Hf. exact Hf. }
  rewrite <- Hfault.
  assert (Forall well_scored act) as Hws.
  { apply Forall_forall. intros r Hr. subst act.
    apply list_elem_of_filter in Hr as [_ Hr].
    pose proof (orderly_returned completed Hall) as Hret.
    rewrite Forall_forall in Hret. by apply Hret. }
  destruct act as [|first rest] eqn:Heq.
  - exists (print OutNoActive s3), lines.
    unfold select_best_proxy. rewrite Hact3.
    split; [done|]. split; [done|]. cbn.
    rewrite Hdata2, Hpd, Hact, Hcur2, Hsaved2, Hcon2.
    split; [eexists; by rewrite <- !app_assoc|].
    repeat split; try done. by exists file.
  - destruct (sort_active_ranks (sort_fault s3) (first :: rest))
      as (sorted & Hsort & Hperm & _).
    { eapply Forall_impl; [exact Hws|]. by intros r [? _]. }
    destruct sorted as [|best sorted'].
    { by apply Permutation_nil_l in Hperm. }
    assert (well_scored best) as (Hsc & Hend & _).
    { rewrite Forall_forall in Hws. apply Hws. rewrite <- Hperm. left. }
    destruct (select_best_proxy_sorted s3 best sorted') as [o ->];
      rewrite ?Hact3; try done.
    eexists _, lines. split; [reflexivity|]. split; [done|]. cbn.
    rewrite Hdata2, Hpd, Hact, Hcur2, Hsaved2, Hcon2.
    split; [eexists; by rewrite <- !app_assoc|].
    repeat split; try done. by exists file.
Qed.

(** The flag and the status of a result of [test_proxy]. *)
Lemma test_proxy_flag {World : Type} (env : Env World)
    (self : ProxyValidator) (proxy r : Dict) (s s' : St World) :
  test_proxy env self proxy s = (inl r, s') →
  well_scored r ∧
  ∃ (b : bool) (st : string),
    r !! "success" = Some (VBool b) ∧ r !! "status" = Some (VStr st) ∧
    (b = true ↔ st = "active") ∧ flagged r = b ∧ is_active r = b.
Proof.
  intros Hrun.
  destruct (test_proxy_scored env self proxy r s s' Hrun) as [Hsc Hend].
  destruct (test_proxy_result env self proxy s r s' Hrun)
    as (ip & port & now & _ & _ & _ & _ & -> & _).
  match goal with
  | |- well_scored (result_dict _ ?p ?acc ?rate ?now) ∧ _ =>
      destruct (result_dict_written env p acc rate now)
        as (_ & Hflag & _ & _ & _ & Hstatus);
      set (r := result_dict env p acc rate now) in *;
      set (q := rate) in *
  end.
  split; [repeat split; try apply Hsc; try apply Hend; by eexists|].
  exists (Qle_bool threshold q), (status_of q).
  unfold flagged, is_active. rewrite Hflag, Hstatus. cbn [truthy].
  clearbody q. unfold status_of. generalize threshold. intros th.
  repeat split; try done;
    destruct (Qle_bool th q); try done;
    destruct (negb (Qle_bool q 0)); done.
Qed.

Lemma executor_run_orderly {World : Type} (env : Env World)
    (m : ProxyMaster) (completed : list (Dict * Exc Dict)) :
  Forall has_endpoint (proxy_data m) → executor_run env m completed →
  Forall orderly completed ∧
  Forall (λ r, ∃ (b : bool) (st : string),
            r !! "success" = Some (VBool b) ∧
            r !! "status" = Some (VStr st) ∧
            (b = true ↔ st = "active") ∧ flagged r = b ∧ is_active r = b)
         (returned_results completed).
Proof.
  intros Hend [Hperm Hrun].
  rewrite <- Hperm, Forall_fmap in Hend.
  rewrite Forall_forall in Hend, Hrun.
  split; apply Forall_forall.
  - intros [proxy outcome] Hin. split; [exact (Hend _ Hin)|].
    destruct (Hrun _ Hin) as [w Hw]. cbn [fst snd] in *.
    destruct outcome as [r|e]; [|done].
    unfold run_test_proxy in Hw.
    eapply (test_proxy_flag env (validator m) proxy r).
    rewrite (surjective_pairing (test_proxy _ _ _ _)), <- Hw. reflexivity.
  - intros r Hr. apply returned_results_elem in Hr as [proxy Hin].
    destruct (Hrun _ Hin) as [w Hw]. cbn [fst snd] in *.
    unfold run_test_proxy in Hw.
    eapply (test_proxy_flag env (validator m) proxy r).
    rewrite (surjective_pairing (test_proxy _ _ _ _)), <- Hw. reflexivity.
Qed.

Lemma filter_Forall_iff {A : Type} (P1 P2 : A → Prop)
    `{!∀ x, Decision (P1 x), !∀ x, Decision (P2 x)} (l : list A) :
  Forall (λ x, P1 x ↔ P2 x) l → filter P1 l = filter P2 l.
Proof.
  induction 1 as [|x l Hx _ IH]; [done|].
  rewrite !filter_cons, IH.
  destruct (decide (P1 x)), (decide (P2 x)); tauto.
Qed.

(** Every record held or written after a cycle over orderly futures was
    held or written before it, or is a result some future returned. *)
Lemma test_proxies_records (completed : list (Dict * Exc Dict))
    (timestamp : string) (s : Sys) (d : Dict) :
  proxy_data (master s) ≠ [] → Forall orderly completed →
  d ∈ recorded (snd (test_proxies completed timestamp s)) →
  d ∈ recorded s ∨ d ∈ returned_results completed.
Proof.
  intros Hdata Hall.
  destruct (test_proxies_orderly completed timestamp s Hdata Hall)
    as (s' & lines & -> & _ & _ & Hpd & _ & Hperm & Hcur & file & Hsaved).
  cbn [snd]. unfold recorded. rewrite Hpd, Hsaved, bind_app.
  cbn [mbind list_bind snapshot_records snap_proxies snap_active_proxies
       snap_current_proxy].
  rewrite app_nil_r, !elem_of_app.
  set (act := filter (λ r, flagged r = true) (returned_results completed))
    in *.
  assert (∀ x, x ∈ act → x ∈ returned_results completed) as Hact.
  { intros x Hx. subst act. by apply list_elem_of_filter in Hx as [_ ?]. }
  intros [H|[H|[H|[H|H]]]].
  - tauto.
  - right. apply Hact. by rewrite <- Hperm.
  - rewrite Hcur in H. destruct act as [|a act'] eqn:Heq; [tauto|].
    right. apply Hact. rewrite <- Hperm.
    destruct (active_proxies (master s')) as [|b l]; [by inversion H|].
    cbn in H. apply list_elem_of_singleton in H as ->. left.
  - tauto.
  - unfold snapshot_records in H.
    cbn [snap_proxies snap_active_proxies snap_current_proxy] in H.
    rewrite !elem_of_app in H. destruct H as [H|[H|H]]; [tauto| |tauto].
    right. by apply Hact.
Qed.

(** Claim C8.  After a test cycle over records that name their endpoint,
    the cycle ends without exception and the active set holds exactly the
    returned results whose status is 'active'; in every returned result the
    success flag is true exactly when the status is 'active', and the loop
    appends a result exactly when that flag is true. *)
Theorem active_set_is_the_active_results {World : Type} (env : Env World)
    (completed : list (Dict * Exc Dict)) (timestamp : string) (s : Sys) :
  proxy_data (master s) ≠ [] →
  Forall has_endpoint (proxy_data (master s)) →
  executor_run env (master s) completed →
  fst (test_proxies completed timestamp s) = None ∧
  active_proxies (master (snd (test_proxies completed timestamp s)))
  ≡ₚ filter (λ r, is_active r = true) (returned_results completed) ∧
  (∀ r, r ∈ returned_results completed →
        ∃ (b : bool) (st : string),
          r !! "success" = Some (VBool b) ∧
          r !! "status" = Some (VStr st) ∧
          (b = true ↔ st = "active")) ∧
  ∃ s1, completed_loop completed (set_active [] (print OutTestingHeader s))
        = (None, s1) ∧
        active_proxies (master s1)
        = filter (λ r, flagged r = true) (returned_results completed).
Proof.
  intros Hdata Hend Hrun.
  destruct (executor_run_orderly env (master s) completed Hend Hrun)
    as [Hall Hflags].
  destruct (test_proxies_orderly completed timestamp s Hdata Hall)
    as (s' & lines & -> & _ & _ & _ & _ & Hperm & _).
  assert (filter (λ r, flagged r = true) (returned_results completed)
          = filter (λ r, is_active r = true) (returned_results completed))
    as Hfilter.
  { apply filter_Forall_iff. eapply Forall_impl; [exact Hflags|].
    intros r (b & st & _ & _ & _ & -> & ->). done. }
  split; [done|]. split; [by rewrite <- Hfilter|].
  split.
  - intros r Hr. rewrite Forall_forall in Hflags.
    destruct (Hflags r Hr) as (b & st & ? & ? & ? & _). by exists b, st.
  - destruct (completed_loop_orderly completed
                (set_active [] (print OutTestingHeader s)) Hall)
      as (s1 & lines1 & -> & Hact & _).
    exists s1. split; [done|]. exact Hact.
Qed.

Lemma ip_not_result_field : "ip" ∉ test_result_fields.
Proof.
  unfold test_result_fields. rewrite !not_elem_of_cons.
  repeat split; try discriminate. apply not_elem_of_nil.
Qed.

Lemma example_proxy2_status :
  example_proxy2 !! "status" = Some (VStr "untested").
Proof.
  unfold example_proxy2, candidate.
  do 12 (rewrite lookup_insert_ne by discriminate).
  apply lookup_insert_eq.
Qed.

Lemma example_proxy_has_endpoint : has_endpoint example_proxy.
Proof.
  split; [rewrite example_proxy_ip|rewrite example_proxy_port]; by eexists.
Qed.

Lemma active_set_is_the_active_results_witness :
  fst (test_proxies example_cycle "20250509_120000" example_cycle_sys) = None ∧
  active_proxies
    (master (snd (test_proxies example_cycle "20250509_120000"
                    example_cycle_sys)))
  ≡ₚ filter (λ r, is_active r = true) (returned_results example_cycle) ∧
  (∀ r, r ∈ returned_results example_cycle →
        ∃ (b : bool) (st : string),
          r !! "success" = Some (VBool b) ∧
          r !! "status" = Some (VStr st) ∧
          (b = true ↔ st = "active")) ∧
  ∃ s1, completed_loop example_cycle
          (set_active [] (print OutTestingHeader example_cycle_sys))
        = (None, s1) ∧
        active_proxies (master s1)
        = filter (λ r, flagged r = true) (returned_results example_cycle).
Proof.
  apply (active_set_is_the_active_results scripted example_cycle
           "20250509_120000" example_cycle_sys).
  - discriminate.
  - constructor; [apply example_proxy_has_endpoint|].
    constructor; [apply example_proxy_has_endpoint|constructor].
  - split; [reflexivity|].
    constructor; [by eexists|]. constructor; [by eexists|constructor].
Defined.

(** ** A cycle in which every endpoint is dead *)

Lemma example_run_flag (l : list ProbeResult) :
  let rs := fst (run_probes scripted default_validator
                   (proxy_url scripted (VStr "10.0.0.1") (VStr "8080"))
                   default_test_urls (script l)) in
  let acc := fold_outcomes acc0 (zip default_test_urls rs) in
  flagged (returned (example_run l))
  = Qle_bool threshold (success_rate_of (success_count acc) 3).
Proof.
  cbv zeta. destruct (example_run_result l) as [_ ->].
  match goal with
  | |- flagged (result_dict _ ?p ?acc ?rate ?now) = _ =>
      destruct (result_dict_written scripted p acc rate now)
        as (_ & Hflag & _)
  end.
  unfold flagged. by rewrite Hflag.
Qed.

Lemma example_worker (l : list ProbeResult) :
  run_test_proxy scripted default_validator example_proxy (l, 0%Q)
  = inl (returned (example_run l)).
Proof.
  unfold run_test_proxy. change {| world := (l, 0%Q); requests_log := [] |}
    with (script l).
  by rewrite example_run_returns.
Qed.

Lemma example_worker_orderly (l : list ProbeResult) :
  orderly (example_proxy,
           run_test_proxy scripted default_validator example_proxy (l, 0%Q)).
Proof.
  rewrite example_worker. split; cbn [fst snd].
  - apply example_proxy_has_endpoint.
  - eapply test_proxy_flag, example_run_returns.
Qed.

(** Claim C4, as stated, fails on an empty active set: the first cycle
    selects the endpoint that reached two targets; in the second cycle no
    endpoint reaches any, the active set is empty, no exception is raised,
    and the selection of the first cycle is still there. *)
Lemma stale_selection_after_dead_cycle :
  let s1 := snd (test_proxies example_cycle "20250509_120000"
                   example_cycle_sys) in
  let s2 := snd (test_proxies example_dead_cycle "20250509_130000" s1) in
  current_proxy (master example_cycle_sys) = None ∧
  current_proxy (master s1) = Some (returned (example_run probes_two_ok)) ∧
  fst (test_proxies example_dead_cycle "20250509_130000" s1) = None ∧
  active_proxies (master s2) = [] ∧
  current_proxy (master s2) = Some (returned (example_run probes_two_ok)).
Proof.
  assert (Forall orderly example_cycle) as Hall1.
  { constructor; [apply example_worker_orderly|].
    constructor; [apply example_worker_orderly|constructor]. }
  assert (Forall orderly example_dead_cycle) as Hall2.
  { constructor; [apply example_worker_orderly|].
    constructor; [apply example_worker_orderly|constructor]. }
  assert (filter (λ r, flagged r = true) (returned_results example_cycle)
          = [returned (example_run probes_two_ok)]) as Hact1.
  { unfold example_cycle, returned_results. rewrite !example_worker.
    cbn [omap list_omap snd]. rewrite !filter_cons, filter_nil.
    rewrite !example_run_flag.
    rewrite decide_True by (vm_compute; reflexivity).
    rewrite decide_False by (vm_compute; discriminate). done. }
  assert (filter (λ r, flagged r = true) (returned_results example_dead_cycle)
          = []) as Hact2.
  { unfold example_dead_cycle, returned_results. rewrite !example_worker.
    cbn [omap list_omap snd]. rewrite !filter_cons, filter_nil.
    rewrite !example_run_flag.
    rewrite !decide_False by (vm_compute; discriminate). done. }
  destruct (test_proxies_orderly example_cycle "20250509_120000"
              example_cycle_sys) as (s1 & l1 & -> & _ & _ & Hd1 & _ & Hp1
                                     & Hc1 & _); [discriminate|done|].
  cbv zeta in Hp1, Hc1. rewrite Hact1 in Hp1, Hc1.
  apply Permutation_singleton_r in Hp1. rewrite Hp1 in Hc1.
  cbn [head] in Hc1. cbn [snd].
  destruct (test_proxies_orderly example_dead_cycle "20250509_130000" s1)
    as (s2 & l2 & -> & _ & _ & _ & _ & Hp2 & Hc2 & _);
    [by rewrite Hd1|done|].
  cbv zeta in Hp2, Hc2. rewrite Hact2 in Hp2, Hc2.
  apply Permutation_nil_r in Hp2. cbn [fst snd].
  split; [reflexivity|]. split; [exact Hc1|]. split; [reflexivity|].
  split; [exact Hp2|]. by rewrite Hc2.
Qed.

(** ** A faulting endpoint *)

Lemma example_completed_orderly : Forall orderly example_completed.
Proof.
  constructor; [|constructor; [|constructor]]; split; cbn [fst snd].
  - split; unfold example_proxy2, candidate;
      [rewrite lookup_insert_eq
      |rewrite lookup_insert_ne by discriminate; rewrite lookup_insert_eq];
      by eexists.
  - exact I.
  - apply example_proxy_has_endpoint.
  - eapply test_proxy_flag, example_run_returns.
Qed.

(** Claim C3, as stated, fails: when the future of 10.0.0.2 raises, the
    cycle goes on to the end, and no record of that endpoint with status
    'dead' is held or written anywhere. *)
Lemma faulting_endpoint_leaves_no_dead_record :
  fst (test_proxies example_completed "20250509_120000" example_batch) = None ∧
  ¬ ∃ d, d ∈ recorded (snd (test_proxies example_completed "20250509_120000"
                              example_batch)) ∧
         d !! "ip" = Some (VStr "10.0.0.2") ∧
         d !! "status" = Some (VStr "dead").
Proof.
  pose proof example_completed_orderly as Hall.
  assert (proxy_data (master example_batch) ≠ []) as Hdata by discriminate.
  split.
  - by destruct (test_proxies_orderly example_completed "20250509_120000"
                   example_batch Hdata Hall) as (s' & lines & -> & _).
  - intros (d & Hin & Hip & Hstatus).
    apply test_proxies_records in Hin; [|done..].
    destruct Hin as [Hin|Hin].
    + unfold recorded in Hin. cbn in Hin.
      rewrite !elem_of_cons in Hin.
      destruct Hin as [->|[->|Hin]]; [| |by apply elem_of_nil in Hin].
      * rewrite example_proxy_ip in Hip. discriminate Hip.
      * rewrite example_proxy2_status in Hstatus. discriminate Hstatus.
    + unfold returned_results, example_completed in Hin. cbn in Hin.
      apply list_elem_of_singleton in Hin as ->.
      destruct (example_run_result probes_all_ok) as [_ Hr].
      rewrite Hr, result_dict_frame, example_proxy_ip in Hip
        by apply ip_not_result_field.
      discriminate Hip.
Qed.

(** Claim C3, amended.  When the validation of an endpoint raises, and the
    records name their endpoint, the cycle is not aborted: the loop prints
    one line per completed future, the error line for one that raised and
    the result line for one that returned; the input records are left as
    they were; the active set is made of the returned results whose flag
    is true; and every record held or written after the cycle was there
    before or is a returned result, so none is made for the endpoint that
    raised. *)
Theorem faulting_endpoint_is_reported_and_skipped
    (completed : list (Dict * Exc Dict)) (timestamp : string) (s : Sys) :
  proxy_data (master s) ≠ [] → Forall orderly completed →
  ∃ (s' : Sys) (lines : list Output),
    test_proxies completed timestamp s = (None, s') ∧
    Forall2 reports completed lines ∧
    (∃ post, console s' = console s ++ OutTestingHeader :: lines ++ post) ∧
    proxy_data (master s') = proxy_data (master s) ∧
    active_proxies (master s')
    ≡ₚ filter (λ r, flagged r = true) (returned_results completed) ∧
    (∀ d, d ∈ recorded s' →
          d ∈ recorded s ∨ d ∈ returned_results completed).
Proof.
  intros Hdata Hall.
  pose proof (λ d, test_proxies_records completed timestamp s d Hdata Hall)
    as Hrec.
  destruct (test_proxies_orderly completed timestamp s Hdata Hall)
    as (s' & lines & Hrun & Hrep & Hcon & Hpd & _ & Hperm & _).
  rewrite Hrun in Hrec. exists s', lines. by repeat split.
Qed.

Lemma faulting_endpoint_is_reported_and_skipped_witness :
  ∃ (s' : Sys) (lines : list Output),
    test_proxies example_completed "20250509_120000" example_batch
    = (None, s') ∧
    Forall2 reports example_completed lines ∧
    (∃ post, console s'
             = console example_batch ++ OutTestingHeader :: lines ++ post) ∧
    proxy_data (master s') = proxy_data (master example_batch) ∧
    active_proxies (master s')
    ≡ₚ filter (λ r, flagged r = true) (returned_results example_completed) ∧
    (∀ d, d ∈ recorded s' →
          d ∈ recorded example_batch ∨
          d ∈ returned_results example_completed).
Proof.
  apply (faulting_endpoint_is_reported_and_skipped example_completed
           "20250509_120000" example_batch).
  - discriminate.
  - apply example_completed_orderly.
Defined.


(** * Further properties *)

(** ** Exceptions of [test_proxy] *)

(** X1.  [test_proxy] raises in exactly three cases, each before any request
    is issued and leaving the state as it was: [KeyError] for a record
    without ['ip'], [KeyError] for one with ['ip'] and without ['port'],
    [ZeroDivisionError] for an empty list of targets; otherwise it returns
    a result. *)
Theorem test_proxy_raises_before_any_request {World : Type}
    (env : Env World) (self : ProxyValidator) (proxy : Dict) (s : St World) :
  match proxy !! "ip", proxy !! "port", test_urls self with
  | None, _, _ =>
      test_proxy env self proxy s
      = (inr {| exc_class := KeyError; exc_str := "ip" |}, s)
  | Some _, None, _ =>
      test_proxy env self proxy s
      = (inr {| exc_class := KeyError; exc_str := "port" |}, s)
  | Some _, Some _, [] =>
      test_proxy env self proxy s
      = (inr {| exc_class := ZeroDivisionError;
                exc_str := "division by zero" |}, s)
  | Some _, Some _, _ :: _ =>
      ∃ (r : Dict) (s' : St World), test_proxy env self proxy s = (inl r, s')
  end.
Proof.
  destruct (proxy !! "ip") as [ip|] eqn:Hip.
  - destruct (proxy !! "port") as [port|] eqn:Hport.
    + destruct (test_urls self) as [|u urls] eqn:Hurls.
      * unfold test_proxy, getitem. rewrite Hip, Hport, Hurls.
        destruct s. reflexivity.
      * apply test_proxy_total; rewrite ?Hip, ?Hport, ?Hurls; by eauto.
    + unfold test_proxy, getitem. rewrite Hip, Hport. reflexivity.
  - unfold test_proxy, getitem. rewrite Hip. reflexivity.
Qed.

(** X2.  A validator built by the constructor never has an empty list of
    targets: [None] and the empty list give the three default targets, any
    other list is kept; so on every record with ['ip'] and ['port']
    [test_proxy] returns a result, with one outcome per target. *)
Theorem constructed_validator_always_scores {World : Type} (env : Env World)
    (urls : option (list string)) (t : Z) (proxy : Dict) (s : St World) :
  has_endpoint proxy →
  test_urls (ProxyValidator_init urls t)
  = match urls with
    | Some (u :: l) => u :: l
    | _ => default_test_urls
    end ∧
  ∃ (r : Dict) (s' : St World) (details : list TestOutcome),
    test_proxy env (ProxyValidator_init urls t) proxy s = (inl r, s') ∧
    r !! "test_details" = Some (VDetails details) ∧
    url <$> details = test_urls (ProxyValidator_init urls t).
Proof.
  intros [Hip Hport].
  assert (test_urls (ProxyValidator_init urls t) ≠ []) as Hne.
  { destruct urls as [[|u l]|]; done. }
  split; [by destruct urls as [[|u l]|]|].
  destruct (test_proxy_total env (ProxyValidator_init urls t) proxy s
              Hip Hport Hne) as (r & s' & Hrun).
  exists r, s'.
  destruct (test_proxy_result env _ proxy s r s' Hrun)
    as (ip & port & now & _ & _ & _ & Hlen & Hr & _).
  destruct (results_of_fold _ _ Hlen) as (_ & Hurl & _).
  eexists. split; [exact Hrun|]. split; [|exact Hurl].
  rewrite Hr.
  by match goal with
     | |- result_dict _ ?p ?acc ?rate ?now !! _ = _ =>
         destruct (result_dict_written env p acc rate now) as (? & _)
     end.
Qed.

Lemma constructed_validator_always_scores_witness :
  test_urls (ProxyValidator_init (Some []) 5) = default_test_urls ∧
  ∃ (r : Dict) (s' : St ScriptWorld) (details : list TestOutcome),
    test_proxy scripted (ProxyValidator_init (Some []) 5) example_proxy
      (script probes_two_ok) = (inl r, s') ∧
    r !! "test_details" = Some (VDetails details) ∧
    url <$> details = test_urls (ProxyValidator_init (Some []) 5).
Proof.
  apply (constructed_validator_always_scores scripted (Some []) 5
           example_proxy (script probes_two_ok)).
  apply example_proxy_has_endpoint.
Defined.

(** ** The outcomes of a result *)

Lemma outcome_dict_consistent (u : string) (p : ProbeResult) :
  let o := outcome_dict u (classify p) in
  (success o = true ↔ error o = None) ∧
  (success o = true ↔ status_code o = Some 200) ∧
  (success o = false → response_time o = PyInt (-1)) ∧
  (success o = true →
   ∃ code elapsed, p = Responded code elapsed ∧
                   response_time o = PyFloat (py_round elapsed 2)).
Proof.
  destruct p as [code elapsed|[c msg]]; cbn [classify exc_class exc_str].
  - destruct (Z.eqb_spec code 200) as [->|Hne];
      cbn [outcome_dict success error status_code response_time].
    + repeat split; intros H; try done. by eexists _, _.
    + repeat split; intros H; try done. by injection H.
  - destruct c; cbn [outcome_dict success error status_code response_time];
      repeat split; intros H; done.
Qed.

Lemma results_consistent (urls : list string) (rs : list ProbeResult) :
  Forall (λ o, (success o = true ↔ error o = None) ∧
               (success o = true ↔ status_code o = Some 200) ∧
               (success o = false → response_time o = PyInt (-1)) ∧
               (success o = true →
                ∃ elapsed, response_time o = PyFloat (py_round elapsed 2)))
         (results (fold_outcomes acc0 (zip urls rs))).
Proof.
  rewrite fold_outcomes_results. cbn [acc0 results app].
  apply Forall_fmap, Forall_forall. intros [u p] _.
  destruct (outcome_dict_consistent u p) as (H1 & H2 & H3 & H4).
  cbn [fst snd compose]. do 3 (split; [done|]).
  intros H. destruct (H4 H) as (code & elapsed & _ & Ht). by exists elapsed.
Qed.





(** A success measured across a clock set back by one second has the
    response time -1.0, which equals the -1 of the failed outcomes. *)
Lemma success_with_response_time_minus_one :
  let o := outcome_dict "https://www.google.com"
             (classify (Responded 200 (b64 (3 - 4)))) in
  success o = true ∧ (num_val (response_time o) == -1)%Q.
Proof. vm_compute. done. Qed.

(** ** Extremes and thresholds of the score *)

Lemma result_dict_error {World : Type} (env : Env World) (proxy : Dict)
    (acc : Acc) (rate : Q) (now : string) :
  result_dict env proxy acc rate now !! "error"
  = Some (VStr (join ", " (py_set_iter env (omap error (results acc))))).
Proof. unfold result_dict. apply lookup_insert_eq. Qed.

Lemma count_success_all (details : list TestOutcome) :
  Forall (λ o, success o = true) details →
  count_success details = Z.of_nat (length details).
Proof.
  unfold count_success. induction 1 as [|o l Ho _ IH]; [done|].
  rewrite filter_cons, decide_True by done. cbn [length]. lia.
Qed.

Lemma count_success_none (details : list TestOutcome) :
  Forall (λ o, success o = false) details → count_success details = 0.
Proof.
  unfold count_success. induction 1 as [|o l Ho _ IH]; [done|].
  rewrite filter_cons, decide_False by (rewrite Ho; done). exact IH.
Qed.

Lemma omap_error_all (details : list TestOutcome) :
  Forall (λ o, success o = true ↔ error o = None) details →
  Forall (λ o, success o = true) details →
  omap error details = [].
Proof.
  induction 1 as [|o l Ho _ IH]; [done|]. intros Hall.
  inversion_clear Hall as [|? ? Hs Hl].
  cbn. apply Ho in Hs. rewrite Hs. by apply IH.
Qed.

(** What a result holds, on the accumulator of its loop. *)
Lemma test_proxy_fields {World : Type} (env : Env World)
    (self : ProxyValidator) (proxy r : Dict) (s s' : St World) :
  test_proxy env self proxy s = (inl r, s') →
  ∃ acc : Acc,
    let n := Z.of_nat (length (test_urls self)) in
    let rate := success_rate_of (success_count acc) n in
    0 < n ∧ Z.of_nat (length (results acc)) = n ∧
    success_count acc = count_success (results acc) ∧
    0 ≤ success_count acc ≤ n ∧
    Forall (λ o, success o = true ↔ error o = None) (results acc) ∧
    r !! "test_details" = Some (VDetails (results acc)) ∧
    r !! "success" = Some (VBool (Qle_bool threshold rate)) ∧
    r !! "success_rate" = Some (VNum (PyFloat rate)) ∧
    r !! "response_time" = Some (VNum (avg_time_of acc)) ∧
    r !! "status" = Some (VStr (status_of rate)) ∧
    r !! "error"
    = Some (VStr (join ", " (py_set_iter env (omap error (results acc))))).
Proof.
  intros Hrun.
  destruct (test_proxy_result env self proxy s r s' Hrun)
    as (ip & port & now & _ & _ & Hurls & Hlen & -> & _).
  set (rs := probe_results env self proxy s) in *.
  destruct (results_of_fold (test_urls self) rs Hlen)
    as (Hrlen & _ & Hcount & Hcs & _).
  pose proof (results_consistent (test_urls self) rs) as Hcons.
  set (acc := fold_outcomes acc0 (zip (test_urls self) rs)) in *.
  exists acc. cbv zeta.
  destruct (result_dict_written env proxy acc
              (success_rate_of (success_count acc)
                 (Z.of_nat (length (test_urls self)))) now)
    as (Hdet & Hflag & Hrate & Htime & _ & Hstatus).
  split; [destruct (test_urls self); [done|cbn [length]; lia]|].
  split; [by rewrite Hrlen|]. split; [exact Hcs|].
  split; [rewrite Hcount, <- Hlen; pose proof (length_omap_elapsed rs); lia|].
  split; [eapply Forall_impl; [exact Hcons|]; by intros o (? & _)|].
  do 5 (split; [done|]). apply result_dict_error.
Qed.

Lemma success_rate_of_full (n : Z) :
  0 < n → success_rate_of n n = 100%Q.
Proof.
  intros Hn. pose proof (inject_Z_pos n Hn).
  unfold success_rate_of.
  rewrite (b64_comp (inject_Z n / inject_Z n) 1) by (field; lra).
  rewrite b64_one, (b64_comp (1 * 100) 100) by reflexivity.
  rewrite b64_hundred. vm_compute. reflexivity.
Qed.

Lemma success_rate_of_zero (n : Z) :
  0 < n → success_rate_of 0 n = 0%Q.
Proof.
  intros Hn. pose proof (inject_Z_pos n Hn).
  unfold success_rate_of.
  rewrite (b64_zero (inject_Z 0 / inject_Z n))
    by (change (inject_Z 0) with 0%Q; field; lra).
  rewrite (b64_zero (0 * 100)) by reflexivity.
  vm_compute. reflexivity.
Qed.

Lemma threshold_flag : Qle_bool threshold 100 = true ∧
  Qle_bool threshold 0 = false ∧ status_of 100 = "active" ∧
  status_of 0 = "dead".
Proof. vm_compute. done. Qed.

(** X4.  When every outcome of a result is a success (and a set made from
    no strings iterates over nothing), the success rate is 100.0, the flag
    is true, the status is 'active' and the error summary is the empty
    string. *)
Theorem all_targets_reached {World : Type} (env : Env World)
    (self : ProxyValidator) (proxy r : Dict) (s s' : St World)
    (details : list TestOutcome) :
  test_proxy env self proxy s = (inl r, s') →
  py_set_iter env [] = [] →
  r !! "test_details" = Some (VDetails details) →
  Forall (λ o, success o = true) details →
  r !! "success_rate" = Some (VNum (PyFloat 100)) ∧
  r !! "success" = Some (VBool true) ∧
  r !! "status" = Some (VStr "active") ∧
  r !! "error" = Some (VStr "").
Proof.
  intros Hrun Hset Hdet Hall.
  destruct (test_proxy_fields env self proxy r s s' Hrun)
    as (acc & Hn & Hlen & Hcs & _ & Hcons & Hdet' & Hflag & Hrate & _
        & Hstatus & Herr).
  cbv zeta in *. rewrite Hdet in Hdet'. injection Hdet' as ->.
  rewrite Hcs, (count_success_all _ Hall), Hlen,
    (success_rate_of_full _ Hn) in Hflag, Hrate, Hstatus.
  rewrite (omap_error_all _ Hcons Hall), Hset in Herr.
  destruct threshold_flag as (Hf & _ & Hs & _).
  rewrite Hf in Hflag. rewrite Hs in Hstatus. by repeat split.
Qed.

(** X5.  When every outcome of a result is a failure, the success rate is
    0.0, the flag is false, the status is 'dead' and the mean latency is
    the integer -1. *)
Theorem no_target_reached {World : Type} (env : Env World)
    (self : ProxyValidator) (proxy r : Dict) (s s' : St World)
    (details : list TestOutcome) :
  test_proxy env self proxy s = (inl r, s') →
  r !! "test_details" = Some (VDetails details) →
  Forall (λ o, success o = false) details →
  r !! "success_rate" = Some (VNum (PyFloat 0)) ∧
  r !! "success" = Some (VBool false) ∧
  r !! "status" = Some (VStr "dead") ∧
  r !! "response_time" = Some (VNum (PyInt (-1))).
Proof.
  intros Hrun Hdet Hall.
  destruct (test_proxy_fields env self proxy r s s' Hrun)
    as (acc & Hn & Hlen & Hcs & _ & _ & Hdet' & Hflag & Hrate & Htime
        & Hstatus & _).
  cbv zeta in *. rewrite Hdet in Hdet'. injection Hdet' as ->.
  unfold avg_time_of in Htime.
  rewrite Hcs, (count_success_none _ Hall) in Hflag, Hrate, Hstatus, Htime.
  rewrite (success_rate_of_zero _ Hn) in Hflag, Hrate, Hstatus.
  destruct threshold_flag as (_ & Hf & _ & Hs).
  rewrite Hf in Hflag. rewrite Hs in Hstatus. by repeat split.
Qed.

Lemma example_run_details (l : list ProbeResult) :
  returned (example_run l) !! "test_details"
  = Some (VDetails
            (results
               (fold_outcomes acc0
                  (zip default_test_urls
                     (fst (run_probes scripted default_validator
                             (proxy_url scripted (VStr "10.0.0.1")
                                (VStr "8080"))
                             default_test_urls (script l))))))).
Proof.
  destruct (example_run_result l) as [_ ->].
  by match goal with
     | |- result_dict _ ?p ?acc ?rate ?now !! _ = _ =>
         destruct (result_dict_written scripted p acc rate now) as (? & _)
     end.
Qed.

Lemma all_targets_reached_witness :
  returned (example_run probes_all_ok) !! "success_rate"
  = Some (VNum (PyFloat 100)) ∧
  returned (example_run probes_all_ok) !! "success" = Some (VBool true) ∧
  returned (example_run probes_all_ok) !! "status" = Some (VStr "active") ∧
  returned (example_run probes_all_ok) !! "error" = Some (VStr "").
Proof.
  eapply (all_targets_reached scripted default_validator example_proxy
            (returned (example_run probes_all_ok)) (script probes_all_ok)
            (snd (example_run probes_all_ok))).
  - apply example_run_returns.
  - reflexivity.
  - apply example_run_details.
  - vm_compute. repeat constructor.
Defined.

Lemma no_target_reached_witness :
  returned (example_run probes_none_ok) !! "success_rate"
  = Some (VNum (PyFloat 0)) ∧
  returned (example_run probes_none_ok) !! "success" = Some (VBool false) ∧
  returned (example_run probes_none_ok) !! "status" = Some (VStr "dead") ∧
  returned (example_run probes_none_ok) !! "response_time"
  = Some (VNum (PyInt (-1))).
Proof.
  eapply (no_target_reached scripted default_validator example_proxy
            (returned (example_run probes_none_ok)) (script probes_none_ok)
            (snd (example_run probes_none_ok))).
  - apply example_run_returns.
  - apply example_run_details.
  - vm_compute. repeat constructor.
Defined.

(** X6.  More successes over the same number of targets never lower the
    score: the success rate does not decrease, an 'active' status stays
    'active', and a status that is 'dead' with more successes is 'dead'
    with fewer. *)
Theorem more_successes_never_lower_the_score (k k' n : Z) :
  0 < n → k ≤ k' →
  (success_rate_of k n <= success_rate_of k' n)%Q ∧
  (status_of (success_rate_of k n) = "active" →
   status_of (success_rate_of k' n) = "active") ∧
  (status_of (success_rate_of k' n) = "dead" →
   status_of (success_rate_of k n) = "dead").
Proof.
  intros Hn Hk. pose proof (inject_Z_pos n Hn) as HnQ.
  assert (success_rate_of k n <= success_rate_of k' n)%Q as Hmono.
  { unfold success_rate_of. apply py_round_mono, b64_mono.
    apply Qmult_le_compat_r; [|lra]. apply b64_mono.
    apply Qmult_le_compat_r; [by rewrite <- Zle_Qle|].
    apply Qlt_le_weak, Qinv_lt_0_compat, HnQ. }
  split; [exact Hmono|].
  rewrite !status_of_active, !status_of_dead.
  generalize dependent (success_rate_of k n).
  generalize (success_rate_of k' n), threshold.
  intros q' th q Hmono. split; intros; lra.
Qed.

Lemma more_successes_never_lower_the_score_witness :
  (success_rate_of 1 3 <= success_rate_of 2 3)%Q ∧
  (status_of (success_rate_of 1 3) = "active" →
   status_of (success_rate_of 2 3) = "active") ∧
  (status_of (success_rate_of 2 3) = "dead" →
   status_of (success_rate_of 1 3) = "dead").
Proof. apply (more_successes_never_lower_the_score 1 2 3); lia. Defined.

(** X7.  The status on the raw counts, for a list of at most [2^40]
    targets.  With [k] successes over [n] targets, the status is 'active'
    when more than 66.55 percent of the probes succeeded and is not when
    fewer did; it is 'dead' when fewer than 0.05 percent succeeded, also
    with successes among them, and is not when more did. *)
Theorem status_thresholds_on_counts {World : Type} (env : Env World)
    (self : ProxyValidator) (proxy r : Dict) (s s' : St World) :
  test_proxy env self proxy s = (inl r, s') →
  Z.of_nat (length (test_urls self)) ≤ 2 ^ 40 →
  ∃ (details : list TestOutcome) (status : string),
    r !! "test_details" = Some (VDetails details) ∧
    r !! "status" = Some (VStr status) ∧
    let k := count_success details in
    let n := Z.of_nat (length details) in
    (1331 * n < 2000 * k → status = "active") ∧
    (2000 * k < 1331 * n → status ≠ "active") ∧
    (2000 * k < n → status = "dead") ∧
    (n < 2000 * k → status ≠ "dead").
Proof.
  intros Hrun Hmax.
  destruct (test_proxy_fields env self proxy r s s' Hrun)
    as (acc & Hn & Hlen & Hcs & Hk & _ & Hdet & _ & _ & _ & Hstatus & _).
  cbv zeta in *. eexists _, _. split; [exact Hdet|]. split; [exact Hstatus|].
  rewrite Hlen, <- Hcs.
  set (k := success_count acc) in *.
  set (n := Z.of_nat (length (test_urls self))) in *.
  rewrite status_of_active, status_of_dead, success_rate_tenths.
  pose proof (rate_above_threshold (tenths_of k n)) as Hact.
  pose proof (rate_positive (tenths_of k n)) as Hpos.
  fold threshold in Hact.
  destruct (tenths_of_exact k n 666 Hk Hn Hmax) as [Ha1 _].
  destruct (tenths_of_exact k n 665 Hk Hn Hmax) as [_ Ha2].
  destruct (tenths_of_exact k n 0 Hk Hn Hmax) as [_ Hd1].
  destruct (tenths_of_exact k n 1 Hk Hn Hmax) as [Hd2 _].
  destruct (tenths_of_range k n Hk Hn) as [Ht0 _].
  set (t := tenths_of k n) in *.
  set (rate := b64 (inject_Z t / 10)) in *.
  repeat split.
  - intros H. apply Hact, Ha1. lia.
  - intros H Hge. apply Hact in Hge. assert (t ≤ 665) by (apply Ha2; lia).
    lia.
  - intros H. apply Qnot_lt_le. intros Hc. apply Hpos in Hc.
    assert (t ≤ 0) by (apply Hd1; lia). lia.
  - intros H Hle. assert (1 ≤ t) as Ht by (apply Hd2; lia).
    assert (0 < t) as Ht' by lia. apply Hpos in Ht'. lra.
Qed.

Lemma status_thresholds_on_counts_witness :
  ∃ (details : list TestOutcome) (status : string),
    returned (example_run probes_two_ok) !! "test_details"
    = Some (VDetails details) ∧
    returned (example_run probes_two_ok) !! "status" = Some (VStr status) ∧
    let k := count_success details in
    let n := Z.of_nat (length details) in
    (1331 * n < 2000 * k → status = "active") ∧
    (2000 * k < 1331 * n → status ≠ "active") ∧
    (2000 * k < n → status = "dead") ∧
    (n < 2000 * k → status ≠ "dead").
Proof.
  apply (status_thresholds_on_counts scripted default_validator
           example_proxy (returned (example_run probes_two_ok))
           (script probes_two_ok) (snd (example_run probes_two_ok))).
  - apply example_run_returns.
  - vm_compute. discriminate.
Defined.

(** ** More on the selection *)

Lemma ranks_before_refl (d : Dict) : ranks_before d d.
Proof. unfold ranks_before. right. split; [reflexivity|apply Qle_refl]. Qed.

(** X8.  The selected proxy is a best one: it belongs to the active set, no
    active record has a higher success rate, and none with the same rate
    has a lower mean latency. *)
Theorem selected_proxy_is_optimal (s : Sys) :
  active_proxies (master s) ≠ [] →
  Forall scored (active_proxies (master s)) →
  Forall has_endpoint (active_proxies (master s)) →
  ∃ best : Dict,
    current_proxy (master (snd (select_best_proxy s))) = Some best ∧
    best ∈ active_proxies (master s) ∧
    ∀ d, d ∈ active_proxies (master s) →
         (rate_of d <= rate_of best)%Q ∧
         ((rate_of d == rate_of best)%Q →
          (latency_of best <= latency_of d)%Q).
Proof.
  intros Hne Hscored Hend.
  destruct (sort_active_ranks (sort_fault s) _ Hscored)
    as (sorted & Hsort & Hperm & Hss & _).
  destruct sorted as [|best sorted'].
  { apply Permutation_nil_l in Hperm. done. }
  assert (best ∈ active_proxies (master s)) as Hin
    by (rewrite <- Hperm; left).
  rewrite Forall_forall in Hscored, Hend.
  destruct (select_best_proxy_sorted s best sorted') as [o ->]; auto.
  exists best. split; [done|]. split; [done|].
  intros d Hd. rewrite <- Hperm in Hd.
  assert (ranks_before best d) as [Hlt|[Heq Hle]].
  { apply elem_of_cons in Hd as [->|Hd]; [apply ranks_before_refl|].
    inversion_clear Hss as [|? ? _ Hall].
    rewrite Forall_forall in Hall. by apply Hall. }
  - split; [lra|]. intros Heq. lra.
  - split; [lra|]. intros _. done.
Qed.

Lemma selected_proxy_is_optimal_witness :
  ∃ best : Dict,
    current_proxy (master (snd (select_best_proxy example_sys))) = Some best ∧
    best ∈ active_proxies (master example_sys) ∧
    ∀ d, d ∈ active_proxies (master example_sys) →
         (rate_of d <= rate_of best)%Q ∧
         ((rate_of d == rate_of best)%Q →
          (latency_of best <= latency_of d)%Q).
Proof.
  apply (selected_proxy_is_optimal example_sys);
    [discriminate|apply example_active_scored..].
Defined.

Lemma sort_key_inl_keyed (d : Dict) (k : Q * value) :
  sort_key d = inl k → keyed d.
Proof.
  unfold sort_key, keyed, field_num, lookup_exc, as_number.
  destruct (d !! "success_rate") as [[| |n|]|]; try done;
    destruct (d !! "response_time") as [v|]; try done;
    intros _; split; by eexists.
Qed.

Lemma sort_key_inr_class (d : Dict) (e : PyExc) :
  sort_key d = inr e → exc_class e = KeyError ∨ exc_class e = TypeError.
Proof.
  unfold sort_key, lookup_exc, as_number.
  destruct (d !! "success_rate") as [[| |n|]|]; cbn;
    try (intros [= <-]; by auto);
    destruct (d !! "response_time") as [v|]; cbn;
    try done; intros [= <-]; by auto.
Qed.

Lemma map_exc_inl_Forall (l : list Dict) (keys : list (Q * value)) :
  map_exc sort_key l = inl keys → Forall keyed l.
Proof.
  revert keys. induction l as [|d l IH]; intros keys; [constructor|].
  cbn [map_exc]. destruct (sort_key d) as [k|] eqn:Hk; [|done]. cbn.
  destruct (map_exc sort_key l) as [ks|]; [|done]. intros _.
  constructor; [by eapply sort_key_inl_keyed|by eapply IH].
Qed.

Lemma map_exc_inr {A B : Type} (f : A → Exc B) (l : list A) (e : PyExc) :
  map_exc f l = inr e → ∃ x, x ∈ l ∧ f x = inr e.
Proof.
  induction l as [|x l IH]; [done|]. cbn [map_exc].
  destruct (f x) as [y|e'] eqn:Hx; cbn.
  - destruct (map_exc f l) as [ys|e']; [done|]. cbn. intros [= <-].
    destruct (IH eq_refl) as (z & Hz & Hfz). exists z. split; [by right|done].
  - intros [= <-]. exists x. split; [by left|done].
Qed.

Lemma set_active_same (s : Sys) : set_active (active_proxies (master s)) s = s.
Proof. by destruct s as [[] ? ? ?]. Qed.

(** X9.  When the key of line 494 cannot be computed for some active record
    (the record has no ['success_rate'] or no ['response_time'], or its
    success rate is not a number), [select_best_proxy] raises the
    [KeyError] or [TypeError] of the key function and changes nothing: the
    active set keeps its order and the selection is not touched. *)
Theorem select_best_proxy_fails_unchanged (s : Sys) (d : Dict) :
  d ∈ active_proxies (master s) → ¬ keyed d →
  ∃ e : PyExc,
    select_best_proxy s = (Some e, s) ∧
    (exc_class e = KeyError ∨ exc_class e = TypeError).
Proof.
  intros Hin Hd. unfold select_best_proxy.
  destruct (active_proxies (master s)) as [|first rest] eqn:Hact.
  { by apply elem_of_nil in Hin. }
  unfold sort_active, after_sort.
  destruct (map_exc sort_key (first :: rest)) as [keys|e] eqn:Hkeys.
  - apply map_exc_inl_Forall in Hkeys. rewrite Forall_forall in Hkeys.
    destruct Hd. by apply Hkeys.
  - exists e. cbn. rewrite <- Hact, set_active_same. split; [done|].
    destruct (map_exc_inr _ _ _ Hkeys) as (x & _ & Hx).
    by eapply sort_key_inr_class.
Qed.

Lemma sort_key_keyed (d : Dict) : keyed d → ∃ k, sort_key d = inl k.
Proof.
  unfold sort_key, keyed, field_num, lookup_exc, as_number.
  intros [[q Hq] [t Ht]].
  destruct (d !! "success_rate") as [[| |n|]|]; try done;
    destruct (d !! "response_time") as [v|]; try done; by eexists.
Qed.

Lemma outcome_eqb_refl (o : TestOutcome) : outcome_eqb o o = true.
Proof.
  unfold outcome_eqb. rewrite String.eqb_refl.
  replace (Qeq_bool (num_val (response_time o))
             (num_val (response_time o))) with true
    by (symmetry; apply Qeq_bool_iff; reflexivity).
  destruct (success o), (status_code o) as [z|], (error o) as [m|]; cbn;
    rewrite ?Z.eqb_refl, ?String.eqb_refl; done.
Qed.

(** A key compared with itself: no exception. *)
Lemma tuple_lt_refl (k : Q * value) : ∃ c, tuple_lt k k = inl c.
Proof.
  unfold tuple_lt.
  replace (Qeq_bool (fst k) (fst k)) with true
    by (symmetry; apply Qeq_bool_iff; reflexivity).
  unfold value_lt. destruct (snd k) as [x|x|x|x]; cbn [num_of];
    try by eexists.
  induction x as [|o x [c IH]]; [by eexists|]. cbn [details_lt].
  rewrite outcome_eqb_refl. by eexists.
Qed.

Lemma best_line_keyed (d : Dict) :
  has_endpoint d → keyed d → ∃ o, best_line d = inl o.
Proof.
  intros [Hip Hport] [Hrate%field_num_lookup Htime].
  unfold best_line.
  destruct (lookup_exc_Some d "ip" Hip) as [ip ->].
  destruct (lookup_exc_Some d "port" Hport) as [port ->].
  destruct (lookup_exc_Some d "response_time" Htime) as [time ->].
  destruct (lookup_exc_Some d "success_rate" Hrate) as [rate ->].
  by eexists.
Qed.

(** A lone active record is selected without any comparison, whatever its
    response time is. *)
Lemma lone_record_is_selected (s : Sys) (d : Dict) :
  active_proxies (master s) = [d] → keyed d → has_endpoint d →
  fst (select_best_proxy s) = None ∧
  active_proxies (master (snd (select_best_proxy s))) = [d] ∧
  current_proxy (master (snd (select_best_proxy s))) = Some d.
Proof.
  intros Hact Hkeyed Hend.
  destruct (sort_key_keyed d Hkeyed) as [k Hk].
  destruct (tuple_lt_refl k) as [c Hc].
  destruct (best_line_keyed d Hend Hkeyed) as [o Ho].
  unfold select_best_proxy. rewrite Hact.
  unfold sort_active. cbn [map_exc]. rewrite Hk.
  cbn [mbind Exc_bind mret Exc_ret].
  unfold sort_keyed, comparable. cbn [forallb]. rewrite Hc.
  cbn [andb zip zip_with sort_by foldr insert_by fmap list_fmap snd head].
  rewrite Ho. done.
Qed.

Lemma select_best_proxy_fails_unchanged_witness :
  ∃ e : PyExc,
    select_best_proxy (set_active [example_proxy2; example_proxy]
                         example_batch)
    = (Some e, set_active [example_proxy2; example_proxy] example_batch) ∧
    (exc_class e = KeyError ∨ exc_class e = TypeError).
Proof.
  apply (select_best_proxy_fails_unchanged _ example_proxy2).
  - left.
  - intros [[q Hq] _]. unfold field_num, example_proxy2, candidate in Hq.
    rewrite lookup_insert_ne in Hq by discriminate.
    rewrite lookup_insert_ne in Hq by discriminate.
    rewrite lookup_insert_ne in Hq by discriminate.
    rewrite lookup_insert_ne in Hq by discriminate.
    rewrite lookup_insert_ne in Hq by discriminate.
    rewrite lookup_insert_ne in Hq by discriminate.
    rewrite lookup_insert_ne in Hq by discriminate.
    rewrite lookup_insert_ne in Hq by discriminate.
    rewrite lookup_insert_ne in Hq by discriminate.
    rewrite lookup_insert_ne in Hq by discriminate.
    rewrite lookup_insert_ne in Hq by discriminate.
    rewrite lookup_insert_ne in Hq by discriminate.
    rewrite lookup_insert_ne in Hq by discriminate.
    rewrite lookup_insert_ne in Hq by discriminate.
    rewrite lookup_empty in Hq. discriminate Hq.
Defined.

(** X10.  Selecting again changes nothing: after one selection on scored
    records that name their endpoint, a second one leaves the active set,
    the selected proxy and the rest of the object as they are. *)
Theorem select_best_proxy_again (s : Sys) :
  Forall scored (active_proxies (master s)) →
  Forall has_endpoint (active_proxies (master s)) →
  fst (select_best_proxy (snd (select_best_proxy s))) = None ∧
  master (snd (select_best_proxy (snd (select_best_proxy s))))
  = master (snd (select_best_proxy s)).
Proof.
  intros Hscored Hend.
  destruct (active_proxies (master s)) as [|first rest] eqn:Hact.
  { unfold select_best_proxy at 2 4. rewrite Hact. cbn [snd].
    unfold select_best_proxy. cbn. by rewrite Hact. }
  rewrite <- Hact in Hscored, Hend.
  destruct (sort_active_ranks (sort_fault s) _ Hscored)
    as (sorted & Hsort & Hperm & Hss & _).
  destruct sorted as [|best sorted'].
  { rewrite Hact in Hperm. apply Permutation_nil_l in Hperm. done. }
  assert (Forall scored (best :: sorted')) as Hscored'
    by (by rewrite Hperm).
  assert (Forall has_endpoint (best :: sorted')) as Hend'
    by (by rewrite Hperm).
  inversion Hscored' as [|? ? Hsb _]. inversion Hend' as [|? ? Heb _]. subst.
  destruct (select_best_proxy_sorted s best sorted') as [o ->]; auto.
  { by rewrite Hact. }
  cbn [snd].
  set (s1 := print o (set_current (Some best) (set_active (best :: sorted') s))).
  destruct (select_best_proxy_sorted s1 best sorted') as [o' ->]; auto.
  { change (active_proxies (master s1)) with (best :: sorted').
    apply sort_active_sorted_id; [done|].
    by apply StronglySorted_Sorted. }
Qed.

Lemma select_best_proxy_again_witness :
  fst (select_best_proxy (snd (select_best_proxy example_sys))) = None ∧
  master (snd (select_best_proxy (snd (select_best_proxy example_sys))))
  = master (snd (select_best_proxy example_sys)).
Proof.
  apply (select_best_proxy_again example_sys); apply example_active_scored.
Defined.

(** ** More on a test cycle *)

Lemma completed_loop_app (l1 l2 : list (Dict * Exc Dict)) (s : Sys) :
  completed_loop (l1 ++ l2) s
  = match completed_loop l1 s with
    | (None, s1) => completed_loop l2 s1
    | (Some e, s1) => (Some e, s1)
    end.
Proof.
  revert s. induction l1 as [|[proxy outcome] l1 IH]; intros s.
  - reflexivity.
  - cbn [app completed_loop].
    destruct (try_block (active_proxies (master s)) proxy outcome)
      as [active [o|e]].
    + apply IH.
    + destruct (except_clause proxy e) as [o|e']; [apply IH|reflexivity].
Qed.

Lemma try_block_fst (active : list Dict) (proxy : Dict) (outcome : Exc Dict) :
  fst (try_block active proxy outcome)
  = match outcome with
    | inl r => if flagged r then active ++ [r] else active
    | inr _ => active
    end.
Proof.
  unfold try_block, flagged. destruct outcome as [r|e]; [|done].
  by destruct (r !! "success").
Qed.

Lemma try_block_needs_endpoint (active : list Dict) (proxy : Dict)
    (outcome : Exc Dict) (o : Output) :
  snd (try_block active proxy outcome) = inl o → has_endpoint proxy.
Proof.
  unfold try_block, has_endpoint, lookup_exc.
  destruct outcome as [r|e]; [|done].
  destruct (r !! "success") as [ok|]; [|done]. cbn [snd].
  destruct (proxy !! "ip"), (proxy !! "port");
    try (intros _; split; by eexists);
    destruct (truthy ok); cbn; try done;
    destruct (r !! "success_rate") as [rate|]; cbn; try done;
    destruct (as_number greater_than_int rate); cbn; done.
Qed.

Lemma except_clause_needs_endpoint (proxy : Dict) (e : PyExc) :
  ¬ has_endpoint proxy →
  ∃ e', except_clause proxy e = inr e' ∧ exc_class e' = KeyError ∧
        (exc_str e' = "ip" ∨ exc_str e' = "port").
Proof.
  unfold except_clause, has_endpoint, lookup_exc. intros Hno.
  destruct (proxy !! "ip") as [ip|]; cbn.
  - destruct (proxy !! "port") as [port|]; cbn.
    + destruct Hno. split; by eexists.
    + eexists. split; [reflexivity|]. cbn. auto.
  - eexists. split; [reflexivity|]. cbn. auto.
Qed.

Lemma completed_loop_current_file (completed : list (Dict * Exc Dict))
    (s : Sys) :
  current_file (master (snd (completed_loop completed s)))
  = current_file (master s).
Proof.
  revert s. induction completed as [|[proxy outcome] l IH]; intros s.
  - reflexivity.
  - cbn [completed_loop].
    destruct (try_block (active_proxies (master s)) proxy outcome)
      as [active [o|e]].
    + by rewrite IH.
    + destruct (except_clause proxy e) as [o|e']; [by rewrite IH|done].
Qed.

Lemma returned_results_snoc (pre : list (Dict * Exc Dict)) (proxy : Dict)
    (outcome : Exc Dict) :
  returned_results (pre ++ [(proxy, outcome)])
  = returned_results pre
    ++ match outcome with
       | inl r => [r]
       | inr _ => []
       end.
Proof.
  unfold returned_results. rewrite omap_app. f_equal.
  by destruct outcome.
Qed.

(** X11.  A record without ['ip'] or ['port'] aborts the cycle, whatever
    its future returned or raised: [test_proxies] raises the [KeyError] of
    the [except] clause; the futures completed after it are not read,
    nothing is saved and the selection is not touched, while the active
    set, emptied at the start, keeps the results flagged so far. *)
Theorem record_without_endpoint_aborts_cycle
    (pre post : list (Dict * Exc Dict)) (proxy : Dict) (outcome : Exc Dict)
    (timestamp : string) (s : Sys) :
  proxy_data (master s) ≠ [] → Forall orderly pre → ¬ has_endpoint proxy →
  ∃ (e : PyExc) (s' : Sys),
    test_proxies (pre ++ (proxy, outcome) :: post) timestamp s
    = (Some e, s') ∧
    exc_class e = KeyError ∧ (exc_str e = "ip" ∨ exc_str e = "port") ∧
    saved s' = saved s ∧
    current_proxy (master s') = current_proxy (master s) ∧
    current_file (master s') = current_file (master s) ∧
    active_proxies (master s')
    = filter (λ r, flagged r = true)
        (returned_results (pre ++ [(proxy, outcome)])).
Proof.
  intros Hdata Hpre Hno. unfold test_proxies.
  destruct (proxy_data (master s)) as [|p0 data]; [done|].
  rewrite completed_loop_app.
  destruct (completed_loop_orderly pre
              (set_active [] (print OutTestingHeader s)) Hpre)
    as (s1 & lines & Hloop & Hact & _ & Hcur & _ & Hsaved & _).
  rewrite Hloop.
  cbn in Hact, Hcur, Hsaved. cbn [completed_loop].
  pose proof (try_block_fst (active_proxies (master s1)) proxy outcome)
    as Hfst.
  pose proof (try_block_needs_endpoint (active_proxies (master s1)) proxy
                outcome) as Hsnd.
  destruct (try_block (active_proxies (master s1)) proxy outcome)
    as [active [o|e]]; cbn [fst snd] in Hfst, Hsnd.
  { destruct Hno. by eapply Hsnd. }
  destruct (except_clause_needs_endpoint proxy e Hno)
    as (e' & -> & Hclass & Hstr).
  exists e'. eexists. split; [reflexivity|].
  pose proof (completed_loop_current_file pre
                (set_active [] (print OutTestingHeader s))) as Hfile.
  rewrite Hloop in Hfile. cbn in Hfile. cbn.
  do 5 (split; [done|]).
  rewrite Hfst, Hact, returned_results_snoc, filter_app.
  destruct outcome as [r|e0].
  - rewrite filter_cons, filter_nil.
    destruct (flagged r); case_decide; try done. by rewrite app_nil_r.
  - by rewrite filter_nil, app_nil_r.
Qed.

Lemma example_bad_record_no_endpoint : ¬ has_endpoint example_bad_record.
Proof.
  intros [[v Hv] _]. unfold example_bad_record in Hv.
  rewrite lookup_insert_ne in Hv by discriminate.
  rewrite lookup_empty in Hv. discriminate Hv.
Qed.

Lemma record_without_endpoint_aborts_cycle_witness :
  ∃ (e : PyExc) (s' : Sys),
    test_proxies ([] ++ (example_bad_record, inr (exc KeyError "ip")) :: [])
      "20250509_120000" example_bad_batch
    = (Some e, s') ∧
    exc_class e = KeyError ∧ (exc_str e = "ip" ∨ exc_str e = "port") ∧
    saved s' = saved example_bad_batch ∧
    current_proxy (master s') = current_proxy (master example_bad_batch) ∧
    current_file (master s') = current_file (master example_bad_batch) ∧
    active_proxies (master s')
    = filter (λ r, flagged r = true)
        (returned_results
           ([] ++ [(example_bad_record, inr (exc KeyError "ip"))])).
Proof.
  apply (record_without_endpoint_aborts_cycle [] [] example_bad_record
           (inr (exc KeyError "ip")) "20250509_120000" example_bad_batch).
  - discriminate.
  - constructor.
  - apply example_bad_record_no_endpoint.
Defined.

(** X12.  The snapshot written by a cycle is taken before the selection:
    it holds the input records, the flagged results in completion order
    and the proxy selected before the cycle, while the object goes on to
    select the head of the sorted active set whenever a result was
    flagged. *)
Theorem snapshot_precedes_selection (completed : list (Dict * Exc Dict))
    (timestamp : string) (s : Sys) :
  proxy_data (master s) ≠ [] → Forall orderly completed →
  let s' := snd (test_proxies completed timestamp s) in
  let act := filter (λ r, flagged r = true) (returned_results completed) in
  (∃ file,
     last (saved s')
     = Some {| snap_file := file;
               snap_proxies := proxy_data (master s);
               snap_active_proxies := act;
               snap_current_proxy := current_proxy (master s) |}) ∧
  (act ≠ [] →
   ∃ best, current_proxy (master s') = Some best ∧
           head (active_proxies (master s')) = Some best ∧ best ∈ act).
Proof.
  intros Hdata Hall.
  destruct (test_proxies_orderly completed timestamp s Hdata Hall)
    as (s' & lines & -> & _ & _ & _ & _ & Hperm & Hcur & file & Hsaved).
  cbv zeta. cbn [snd]. split.
  - exists file. by rewrite Hsaved, last_snoc.
  - intros Hne.
    destruct (filter (λ r, flagged r = true) (returned_results completed))
      as [|a act'] eqn:Hact; [done|].
    destruct (active_proxies (master s')) as [|best l] eqn:Hl.
    { by apply Permutation_nil_l in Hperm. }
    exists best. rewrite Hcur. repeat split; [done..|].
    rewrite <- Hperm. left.
Qed.

Lemma snapshot_precedes_selection_witness :
  let s' := snd (test_proxies example_completed "20250509_120000"
                   example_batch) in
  let act := filter (λ r, flagged r = true)
               (returned_results example_completed) in
  (∃ file,
     last (saved s')
     = Some {| snap_file := file;
               snap_proxies := proxy_data (master example_batch);
               snap_active_proxies := act;
               snap_current_proxy := current_proxy (master example_batch) |}) ∧
  (act ≠ [] →
   ∃ best, current_proxy (master s') = Some best ∧
           head (active_proxies (master s')) = Some best ∧ best ∈ act).
Proof.
  apply (snapshot_precedes_selection example_completed "20250509_120000"
           example_batch).
  - discriminate.
  - apply example_completed_orderly.
Defined.

(** ** The provider's records *)

Lemma row_to_proxy_fields (domain : string) (cols : list string) :
  let p := row_to_proxy domain cols in
  p !! "ip" = Some (VStr (cell cols 0)) ∧
  p !! "port" = Some (VStr (cell cols 1)) ∧
  p !! "country" = Some (VStr (cell cols 3)) ∧
  p !! "anonymity" = Some (VStr (cell cols 4)) ∧
  p !! "https" = Some (VStr (cell cols 6)) ∧
  p !! "source" = Some (VStr domain) ∧
  p !! "success" = Some (VBool false) ∧
  p !! "response_time" = Some (VNum (PyInt (-1))) ∧
  p !! "status" = Some (VStr "untested") ∧
  p !! "success_rate" = None.
Proof.
  unfold row_to_proxy. cbv zeta.
  repeat split;
    repeat first [ apply lookup_insert_eq
                 | apply lookup_empty
                 | rewrite lookup_insert_ne by discriminate ].
Qed.

Lemma row_to_proxy_has_endpoint (domain : string) (cols : list string) :
  has_endpoint (row_to_proxy domain cols).
Proof.
  destruct (row_to_proxy_fields domain cols) as (Hip & Hport & _).
  cbv zeta in *. split; [rewrite Hip|rewrite Hport]; by eexists.
Qed.

(** X13.  Whatever page the provider met, it returns at most a hundred
    records and never more than the table has rows after the first; a
    failed request and a page without the table give none.  Every record
    has ['ip'] and ['port'], names the provider's domain as its source, is
    marked 'untested' with success False and response time -1, and has no
    ['success_rate'] key. *)
Theorem provider_records_well_formed (domain : string) (page : Page) :
  (length (provider_fetch_proxies domain page)
   ≤ match page with
     | Table rows => Nat.min 100 (length rows - 1)
     | _ => 0
     end)%nat ∧
  Forall (λ p, has_endpoint p ∧
               p !! "source" = Some (VStr domain) ∧
               p !! "status" = Some (VStr "untested") ∧
               p !! "success" = Some (VBool false) ∧
               p !! "response_time" = Some (VNum (PyInt (-1))) ∧
               p !! "success_rate" = None)
         (provider_fetch_proxies domain page).
Proof.
  split.
  - destruct page as [msg| |rows]; cbn [provider_fetch_proxies length];
      try lia.
    unfold rows_to_proxies. rewrite length_fmap.
    pose proof (length_filter (λ cols : list string, (2 ≤ length cols)%nat)
                  (take 100 (drop 1 rows))) as Hlen.
    rewrite length_take, length_drop in Hlen. lia.
  - destruct page as [msg| |rows]; cbn; try constructor.
    unfold rows_to_proxies. apply Forall_fmap, Forall_forall.
    intros cols _. cbn.
    destruct (row_to_proxy_fields domain cols)
      as (_ & _ & _ & _ & _ & Hsrc & Hsucc & Htime & Hstat & Hrate).
    split; [apply row_to_proxy_has_endpoint|done].
Qed.

(** X14.  Fetching and validating compose: on every record a provider
    returns, [test_proxy] of a validator built by the constructor returns a
    result and raises nothing. *)
Theorem provider_records_are_scored {World : Type} (env : Env World)
    (domain : string) (page : Page) (urls : option (list string)) (t : Z)
    (p : Dict) (s : St World) :
  p ∈ provider_fetch_proxies domain page →
  ∃ (r : Dict) (s' : St World),
    test_proxy env (ProxyValidator_init urls t) p s = (inl r, s') ∧
    r !! "ip" = p !! "ip" ∧ r !! "port" = p !! "port" ∧
    r !! "source" = Some (VStr domain).
Proof.
  intros Hin.
  assert (has_endpoint p ∧ p !! "source" = Some (VStr domain))
    as [[Hip Hport] Hsrc].
  { destruct page as [msg| |rows]; cbn in Hin;
      try (by apply elem_of_nil in Hin).
    unfold rows_to_proxies in Hin.
    apply list_elem_of_fmap in Hin as (cols & -> & _).
    split; [apply row_to_proxy_has_endpoint|].
    by destruct (row_to_proxy_fields domain cols) as (_&_&_&_&_&?&_). }
  assert (test_urls (ProxyValidator_init urls t) ≠ []) as Hne.
  { destruct urls as [[|u l]|]; done. }
  destruct (test_proxy_total env (ProxyValidator_init urls t) p s
              Hip Hport Hne) as (r & s' & Hrun).
  exists r, s'. split; [exact Hrun|].
  destruct (test_proxy_result env _ p s r s' Hrun)
    as (ip & port & now & _ & _ & _ & _ & -> & _).
  rewrite !result_dict_frame;
    try (unfold test_result_fields; rewrite !not_elem_of_cons;
         repeat split; try discriminate; apply not_elem_of_nil).
  done.
Qed.

Lemma example_page_record :
  row_to_proxy "www.sslproxies.org" ["10.0.0.1"; "8080"; "DE"]
  ∈ provider_fetch_proxies "www.sslproxies.org" example_page.
Proof.
  unfold provider_fetch_proxies, example_page, rows_to_proxies.
  cbn [drop take]. rewrite filter_cons, decide_True by (cbn; lia).
  rewrite fmap_cons. left.
Qed.

Lemma provider_records_are_scored_witness :
  ∃ (r : Dict) (s' : St ScriptWorld),
    test_proxy scripted (ProxyValidator_init None 10)
      (row_to_proxy "www.sslproxies.org" ["10.0.0.1"; "8080"; "DE"])
      (script probes_two_ok) = (inl r, s') ∧
    r !! "ip"
    = row_to_proxy "www.sslproxies.org" ["10.0.0.1"; "8080"; "DE"] !! "ip" ∧
    r !! "port"
    = row_to_proxy "www.sslproxies.org" ["10.0.0.1"; "8080"; "DE"] !! "port" ∧
    r !! "source" = Some (VStr "www.sslproxies.org").
Proof.
  apply (provider_records_are_scored scripted "www.sslproxies.org"
           example_page None 10).
  apply example_page_record.
Defined.

(** ** Fetching *)

Lemma fetch_loop_spec (fetched : list (list Dict)) (m : ProxyMaster)
    (total : nat) :
  let '(m', total', lines) := fetch_loop fetched m total in
  proxy_data m' = proxy_data m ++ concat fetched ∧
  total' = (total + length (concat fetched))%nat ∧
  lines = (λ l, FetchAdded (length l)) <$> fetched ∧
  validator m' = validator m ∧ active_proxies m' = active_proxies m ∧
  current_proxy m' = current_proxy m ∧ current_file m' = current_file m.
Proof.
  revert m total. induction fetched as [|l fetched IH]; intros m total.
  - cbn. rewrite app_nil_r. repeat split; lia.
  - cbn [fetch_loop].
    specialize (IH (set_proxy_data (proxy_data m ++ l) m)
                  (total + length l)%nat).
    destruct (fetch_loop fetched _ _) as [[m' total'] lines].
    destruct IH as (Hd & Ht & Hl & Hv & Ha & Hc & Hf).
    cbn in Hd, Hv, Ha, Hc, Hf. cbn [concat].
    rewrite Hd, Ht, Hl, length_app, <- app_assoc, fmap_cons.
    repeat split; try done. lia.
Qed.

(** X15.  [fetch_proxies] appends the providers' lists, in completion
    order, to the records already held, without removing duplicates and
    without touching the active set, the selection or the current file; it
    returns True exactly when this call received at least one record,
    whatever was held before. *)
Theorem fetch_proxies_appends (tor_running : bool)
    (fetched : list (list Dict)) (m : ProxyMaster) :
  proxy_data (snd (fst (fetch_proxies tor_running fetched m)))
  = proxy_data m ++ concat fetched ∧
  (fst (fst (fetch_proxies tor_running fetched m)) = true
   ↔ concat fetched ≠ []) ∧
  active_proxies (snd (fst (fetch_proxies tor_running fetched m)))
  = active_proxies m ∧
  current_proxy (snd (fst (fetch_proxies tor_running fetched m)))
  = current_proxy m ∧
  current_file (snd (fst (fetch_proxies tor_running fetched m)))
  = current_file m ∧
  proxy_data
    (snd (fst (fetch_proxies tor_running fetched
                 (snd (fst (fetch_proxies tor_running fetched m))))))
  = proxy_data m ++ concat fetched ++ concat fetched.
Proof.
  assert (∀ m0, proxy_data (snd (fst (fetch_proxies tor_running fetched m0)))
                = proxy_data m0 ++ concat fetched) as Hdata.
  { intros m0. unfold fetch_proxies.
    pose proof (fetch_loop_spec fetched m0 0) as H.
    destruct (fetch_loop fetched m0 0) as [[m' total] lines].
    by destruct H as (? & _). }
  split; [apply Hdata|].
  split; [|split; [|split; [|split]]].
  - unfold fetch_proxies. pose proof (fetch_loop_spec fetched m 0) as H.
    destruct (fetch_loop fetched m 0) as [[m' total] lines].
    destruct H as (_ & -> & _). cbn [fst]. rewrite bool_decide_eq_true.
    destruct (concat fetched); cbn [length]; split; intros; try done; lia.
  - unfold fetch_proxies. pose proof (fetch_loop_spec fetched m 0) as H.
    destruct (fetch_loop fetched m 0) as [[m' total] lines].
    by destruct H as (_ & _ & _ & _ & ? & _).
  - unfold fetch_proxies. pose proof (fetch_loop_spec fetched m 0) as H.
    destruct (fetch_loop fetched m 0) as [[m' total] lines].
    by destruct H as (_ & _ & _ & _ & _ & ? & _).
  - unfold fetch_proxies. pose proof (fetch_loop_spec fetched m 0) as H.
    destruct (fetch_loop fetched m 0) as [[m' total] lines].
    by destruct H as (_ & _ & _ & _ & _ & _ & ?).
  - by rewrite !Hdata, <- app_assoc.
Qed.

(** ** Export *)

Lemma select_best_proxy_current_file (s : Sys) :
  current_file (master (snd (select_best_proxy s)))
  = current_file (master s).
Proof.
  unfold select_best_proxy.
  destruct (active_proxies (master s)) as [|first rest]; [done|].
  destruct (sort_active (sort_fault s) (first :: rest)) as [sorted|e];
    [|done].
  by destruct (match head sorted with
               | Some cur => best_line cur
               | None => _
               end).
Qed.

(** After a cycle over orderly futures the object names the file just
    written and still holds its input records. *)
Lemma test_proxies_current_file (completed : list (Dict * Exc Dict))
    (timestamp : string) (s : Sys) :
  proxy_data (master s) ≠ [] → Forall orderly completed →
  current_file (master (snd (test_proxies completed timestamp s)))
  = Some ("proxy_results/proxy_test_" +:+ timestamp +:+ ".json") ∧
  proxy_data (master (snd (test_proxies completed timestamp s)))
  = proxy_data (master s).
Proof.
  intros Hdata Hall. split.
  - unfold test_proxies.
    destruct (proxy_data (master s)) as [|p0 data]; [done|].
    destruct (completed_loop_orderly completed
                (set_active [] (print OutTestingHeader s)) Hall)
      as (s2 & lines & -> & _).
    unfold save_results. by rewrite select_best_proxy_current_file.
  - by destruct (test_proxies_orderly completed timestamp s Hdata Hall)
      as (s' & lines & -> & _ & _ & ? & _).
Qed.

(** X16.  Exporting before any test cycle fails: on an object whose current
    file was never set, once a fetch has brought records, [export_results]
    raises [TypeError] for every format and writes nothing. *)
Theorem export_before_first_cycle_raises {World : Type} (env : Env World)
    (tor_running : bool) (fetched : list (list Dict))
    (format_type now : string) (m : ProxyMaster) :
  current_file m = None → concat fetched ≠ [] →
  ∃ e : PyExc,
    exc_class e = TypeError ∧
    export_results env format_type now
      (snd (fst (fetch_proxies tor_running fetched m)))
    = {| export_raised := Some e; export_file := None;
         export_console := [] |}.
Proof.
  intros Hfile Hne. unfold fetch_proxies.
  pose proof (fetch_loop_spec fetched m 0) as H.
  destruct (fetch_loop fetched m 0) as [[m' total] lines].
  destruct H as (Hd & _ & _ & _ & _ & _ & Hf). cbn [fst snd].
  unfold export_results. rewrite Hd, Hf, Hfile.
  destruct (proxy_data m ++ concat fetched) as [|p l] eqn:Happ.
  { apply app_eq_nil in Happ as [_ ?]. done. }
  eexists. split; [|reflexivity]. reflexivity.
Qed.

Lemma export_before_first_cycle_raises_witness :
  ∃ e : PyExc,
    exc_class e = TypeError ∧
    export_results scripted "csv" "2025-05-09 12:00:00.000000"
      (snd (fst (fetch_proxies false [[example_proxy]]
                   (master (new_master [])))))
    = {| export_raised := Some e; export_file := None;
         export_console := [] |}.
Proof.
  apply (export_before_first_cycle_raises scripted false [[example_proxy]]
           "csv" "2025-05-09 12:00:00.000000" (master (new_master []))).
  - reflexivity.
  - discriminate.
Defined.

Lemma csv_row_untested (World : Type) (env : Env World) (domain : string)
    (cols : list string) :
  csv_row env (row_to_proxy domain cols)
  = inr {| exc_class := KeyError; exc_str := "success_rate" |}.
Proof.
  destruct (row_to_proxy_fields domain cols)
    as (Hip & Hport & Hc & Ha & Hh & _ & _ & _ & _ & Hrate).
  cbv zeta in *. unfold csv_row, lookup_exc.
  rewrite Hip, Hport, Hc, Ha, Hh, Hrate. reflexivity.
Qed.

(** X17.  The CSV export fails on what a provider returned, also after a
    test cycle: the cycle leaves the input records without a
    ['success_rate'] key, so [export_results('csv')] writes the heading
    line, raises [KeyError] on the first record and prints nothing. *)
Theorem csv_export_fails_after_cycle {World : Type} (env : Env World)
    (domain : string) (page : Page) (completed : list (Dict * Exc Dict))
    (timestamp now : string) (s : Sys) :
  proxy_data (master s) = provider_fetch_proxies domain page →
  proxy_data (master s) ≠ [] → Forall orderly completed →
  export_results env "csv" now
    (master (snd (test_proxies completed timestamp s)))
  = {| export_raised :=
         Some {| exc_class := KeyError; exc_str := "success_rate" |};
       export_file :=
         Some (fst (splitext ("proxy_results/proxy_test_" +:+ timestamp
                              +:+ ".json")) +:+ ".csv",
               [csv_header]);
       export_console := [] |}.
Proof.
  intros Hprov Hdata Hall.
  destruct (test_proxies_current_file completed timestamp s Hdata Hall)
    as [Hfile Hpd].
  unfold export_results. rewrite Hfile, Hpd.
  destruct (proxy_data (master s)) as [|p rest] eqn:Hp; [done|].
  assert (∃ cols, p = row_to_proxy domain cols) as [cols ->].
  { assert (p ∈ provider_fetch_proxies domain page) as Hin
      by (rewrite <- Hprov; left).
    destruct page as [msg| |rows]; cbn in Hin;
      try (by apply elem_of_nil in Hin).
    unfold rows_to_proxies in Hin.
    apply list_elem_of_fmap in Hin as (cols & -> & _). by exists cols. }
  cbn [write_rows String.eqb Ascii.eqb Bool.eqb].
  by rewrite csv_row_untested.
Qed.

Lemma csv_export_fails_after_cycle_witness :
  export_results scripted "csv" "2025-05-09 12:00:00.000000"
    (master (snd (test_proxies [] "20250509_120000" example_fetched)))
  = {| export_raised :=
         Some {| exc_class := KeyError; exc_str := "success_rate" |};
       export_file :=
         Some (fst (splitext ("proxy_results/proxy_test_"
                              +:+ "20250509_120000" +:+ ".json"))
               +:+ ".csv",
               [csv_header]);
       export_console := [] |}.
Proof.
  apply (csv_export_fails_after_cycle scripted "www.sslproxies.org"
           example_page [] "20250509_120000" "2025-05-09 12:00:00.000000"
           example_fetched).
  - reflexivity.
  - intros Hnil. pose proof example_page_record as Hin.
    change (proxy_data (master example_fetched))
      with (provider_fetch_proxies "www.sslproxies.org" example_page)
      in Hnil.
    rewrite Hnil in Hin. by apply elem_of_nil in Hin.
  - constructor.
Defined.

Lemma export_key_timed (d : Dict) :
  timed d → ∃ v, export_key d = inl v ∧ num_of v = Some (latency_of d).
Proof.
  unfold timed, export_key, latency_of, field_num, lookup_exc.
  intros [q Hq].
  destruct (d !! "response_time") as [[| |n|]|]; try done; by eexists.
Qed.

Lemma map_exc_export_key (l : list Dict) :
  Forall timed l →
  ∃ keys, map_exc export_key l = inl keys ∧
          prod_map number_of id <$> zip keys l = decorate_time l ∧
          Forall (λ k, is_Some (num_of k)) keys.
Proof.
  induction 1 as [|d l Hd _ (keys & IH & Hdec & Hnum)]; [by exists []|].
  destruct (export_key_timed d Hd) as (v & Hk & Hv).
  exists (v :: keys). cbn [map_exc]. rewrite Hk, IH.
  split; [reflexivity|]. split.
  - cbn [zip zip_with fmap list_fmap]. rewrite Hdec.
    unfold decorate_time. rewrite fmap_cons. f_equal.
    unfold prod_map, number_of. cbn [fst snd]. by rewrite Hv.
  - constructor; [by rewrite Hv|exact Hnum].
Qed.

Lemma value_lt_numeric (a b : value) :
  is_Some (num_of a) → is_Some (num_of b) →
  value_lt a b = inl (Qlt_bool (number_of a) (number_of b)).
Proof.
  intros [x Hx] [y Hy]. unfold value_lt, number_of. by rewrite Hx, Hy.
Qed.

Lemma zip_latency (l : list Dict) :
  zip (latency_of <$> l) l = decorate_time l.
Proof.
  unfold decorate_time. induction l as [|d l IH]; [done|]. cbn. by f_equal.
Qed.

Lemma snd_decorate_time (l : list Dict) : snd <$> decorate_time l = l.
Proof.
  unfold decorate_time. rewrite <- list_fmap_compose.
  induction l as [|d l IH]; [done|]. cbn. by f_equal.
Qed.

Lemma insert_by_decorate_time (x : Dict) (l : list Dict) :
  ∃ l', insert_by Qlt_bool (latency_of x, x) (decorate_time l)
        = decorate_time l'.
Proof.
  induction l as [|y l [l' IH]]; cbn.
  - by exists [x].
  - destruct (Qlt_bool (latency_of y) (latency_of x)).
    + exists (y :: l'). fold (decorate_time l). rewrite IH. done.
    + by exists (x :: y :: l).
Qed.

Lemma sort_by_decorate_time (l : list Dict) :
  sort_by Qlt_bool (decorate_time l)
  = decorate_time (snd <$> sort_by Qlt_bool (decorate_time l)).
Proof.
  assert (∃ l', sort_by Qlt_bool (decorate_time l) = decorate_time l')
    as [l' Hl'].
  { induction l as [|x l [l' IH]]; [by exists []|].
    cbn. fold (decorate_time l). fold (sort_by Qlt_bool (decorate_time l)).
    rewrite IH. apply insert_by_decorate_time. }
  by rewrite Hl', snd_decorate_time.
Qed.

Lemma Qlt_bool_false_iff (x y : Q) : Qlt_bool y x = false ↔ (x <= y)%Q.
Proof.
  destruct (Qlt_bool y x) eqn:E.
  - apply Qlt_bool_iff in E. split; [done|lra].
  - split; [intros _|done]. apply Qnot_lt_le. intros H.
    apply Qlt_bool_iff in H. congruence.
Qed.

Lemma StronglySorted_decorate_time (l : list Dict) :
  StronglySorted (not_after Qlt_bool) (decorate_time l) →
  StronglySorted (λ x y, (latency_of x <= latency_of y)%Q) l.
Proof.
  induction l as [|x l IH]; cbn; [constructor|].
  intros Hs. inversion_clear Hs as [|? ? Hl Hall].
  constructor; [by apply IH|].
  fold (decorate_time l) in Hall. unfold decorate_time in Hall.
  rewrite Forall_fmap in Hall.
  eapply Forall_impl; [exact Hall|].
  intros y Hy. unfold not_after in Hy. cbn in Hy.
  by apply Qlt_bool_false_iff.
Qed.

(** [sorted(..., key=lambda x: x['response_time'])] on timed records. *)
Lemma sorted_by_response_time_spec (fault : SortFault) (l : list Dict) :
  Forall timed l →
  ∃ sorted,
    sorted_by_response_time fault l = inl sorted ∧ sorted ≡ₚ l ∧
    StronglySorted (λ x y, (latency_of x <= latency_of y)%Q) sorted.
Proof.
  intros Hl. unfold sorted_by_response_time, sort_keyed.
  destruct (map_exc_export_key l Hl) as (keys & -> & Hdec & Hnum).
  cbn.
  assert (comparable value_lt keys = true) as ->.
  { apply comparable_spec. intros a b Ha Hb. rewrite Forall_forall in Hnum.
    rewrite value_lt_numeric by by apply Hnum. by eexists. }
  assert (snd <$> sort_by (decided value_lt) (zip keys l)
          = snd <$> sort_by Qlt_bool (decorate_time l)) as ->.
  { rewrite <- Hdec, <- (sort_by_fmap (decided value_lt) Qlt_bool number_of).
    - by rewrite snd_prod_map.
    - intros x y Hx Hy. rewrite Forall_forall in Hnum.
      unfold decided. rewrite value_lt_numeric; [done| |];
        apply Hnum; [eapply elem_of_zip_l with (x2 := snd y)
                    |eapply elem_of_zip_l with (x2 := snd x)];
        by rewrite <- surjective_pairing. }
  eexists. split; [reflexivity|]. split.
  - rewrite (sort_by_perm Qlt_bool (decorate_time l)).
    by rewrite snd_decorate_time.
  - apply StronglySorted_decorate_time. rewrite <- sort_by_decorate_time.
    apply sort_by_strongly_sorted.
    + intros a b H. apply Qlt_bool_iff in H. apply Qlt_bool_false_iff. lra.
    + intros a b c. rewrite !Qlt_bool_false_iff. lra.
Qed.

Lemma write_rows_txt {World : Type} (env : Env World) (l : list Dict) :
  Forall has_endpoint l →
  ∃ lines, write_rows (txt_row env) l = (lines, None) ∧
           Forall2 (λ d line, txt_row env d = inl line) l lines.
Proof.
  induction 1 as [|d l [[ip Hip] [port Hport]] _ (lines & IH & Hall)].
  - exists []. split; [done|constructor].
  - cbn [write_rows].
    assert (∃ line, txt_row env d = inl line) as [line Hline].
    { unfold txt_row, lookup_exc. rewrite Hip, Hport. by eexists. }
    rewrite Hline, IH. exists (line :: lines). split; [done|].
    by constructor.
Qed.

(** X18.  The text export lists the active set by mean latency alone: with
    a current file and records that name their endpoint and have a numeric
    latency, [export_results('txt')] raises nothing and writes, after the
    heading, one line per active record, the records in ascending order of
    mean latency. *)
Theorem txt_export_lists_active_by_latency {World : Type} (env : Env World)
    (now file : string) (m : ProxyMaster) :
  proxy_data m ≠ [] → current_file m = Some file →
  Forall timed (active_proxies m) → Forall has_endpoint (active_proxies m) →
  ∃ (sorted : list Dict) (heading : string) (lines : list string),
    export_results env "txt" now m
    = {| export_raised := None;
         export_file := Some (fst (splitext file) +:+ ".txt",
                              heading :: lines);
         export_console :=
           [ExportActiveSaved (fst (splitext file) +:+ ".txt")] |} ∧
    sorted ≡ₚ active_proxies m ∧
    StronglySorted (λ x y, (latency_of x <= latency_of y)%Q) sorted ∧
    Forall2 (λ d line, txt_row env d = inl line) sorted lines.
Proof.
  intros Hdata Hfile Htimed Hend. unfold export_results. rewrite Hfile.
  destruct (proxy_data m) as [|p rest]; [done|].
  destruct (sorted_by_response_time_spec (py_sort_fault env) _ Htimed)
    as (sorted & -> & Hperm & Hss).
  destruct (write_rows_txt env sorted) as (lines & Hw & Hall).
  { by rewrite Hperm. }
  cbn [String.eqb Ascii.eqb Bool.eqb]. rewrite Hw.
  by eexists sorted, _, lines.
Qed.

Lemma txt_export_lists_active_by_latency_witness :
  ∃ (sorted : list Dict) (heading : string) (lines : list string),
    export_results scripted "txt" "2025-05-09 12:00:00.000000" example_saved
    = {| export_raised := None;
         export_file :=
           Some (fst (splitext "proxy_results/proxy_test_20250509_120000.json")
                 +:+ ".txt", heading :: lines);
         export_console :=
           [ExportActiveSaved
              (fst (splitext "proxy_results/proxy_test_20250509_120000.json")
               +:+ ".txt")] |} ∧
    sorted ≡ₚ active_proxies example_saved ∧
    StronglySorted (λ x y, (latency_of x <= latency_of y)%Q) sorted ∧
    Forall2 (λ d line, txt_row scripted d = inl line) sorted lines.
Proof.
  apply (txt_export_lists_active_by_latency scripted
           "2025-05-09 12:00:00.000000"
           "proxy_results/proxy_test_20250509_120000.json" example_saved).
  - discriminate.
  - reflexivity.
  - eapply Forall_impl; [apply (proj1 example_active_scored)|].
    intros d [_ Ht]. exact Ht.
  - apply (proj2 example_active_scored).
Defined.
